(** * huffman-array: a shallow embedding of main.cpp / huffman.h

    The program compresses a [std::string] into a string of '0'/'1'
    characters (header followed by payload) and decompresses it again.
    The Huffman tree is never built with pointers: it is a flat vector of
    nodes (leaves first, internal nodes after them) and the tree shape is
    recomputed by a two-cursor merge ([next_node]).

    Conventions of the embedding.
    - A [std::vector<T>] is a [list T]; a random-access iterator into it is
      the [nat] offset from [begin()].  A reverse iterator is an offset
      into the reversed list, so [rbegin()] is offset 0 of [rev v] and
      [rend() - m] is offset [length v - m].
    - A [std::string] is a [list ascii].
    - [char] is [ascii] (an 8-bit pattern).
    - The weight type [T = DifferenceType<...>] ([ptrdiff_t]) is [Z]: a sum
      in [Z] is the sum of [std::plus<ptrdiff_t>] as long as it stays in the
      range of [ptrdiff_t], and signed overflow is undefined.  Overflow
      cannot be reached from [compress]: every weight is a number of
      occurrences, bounded by the input length.  What is proved about
      [build_huffman_array] on leaves given from outside bounds their
      weights, and shows that every weight of the array is in range.
    - Code that can go wrong returns a [result]: a value, undefined
      behaviour (an out-of-range dereference), an uncaught C++ exception, or
      exhaustion of the fuel given to a [while] loop that has no bound of
      its own.
    - [reserve] is modelled by the exception it throws beyond [max_size];
      capacities are not tracked.  Both reserved vectors are reserved to
      the size they finally have: [build_huffman_array] stops pushing at
      [n] nodes, and the queue of [generate_codes] holds the root and two
      entries for each internal node it expands. *)

From Stdlib Require Import List Arith ZArith Lia Bool Ascii Permutation Sorted.
From Stdlib Require String DecimalString.
Import ListNotations.

Set Implicit Arguments.

(** ** Results of fallible code *)

Inductive exn : Type :=
| length_error      (* std::vector::reserve beyond max_size *)
| invalid_argument  (* std::bitset / std::stoi on a non-number *)
| out_of_range.     (* std::string::substr with pos > size *)

Inductive result (A : Type) : Type :=
| Ret (a : A)
| Undefined
| Throw (e : exn)
| OutOfFuel.

Arguments Ret {A} a.
Arguments Undefined {A}.
Arguments Throw {A} e.
Arguments OutOfFuel {A}.

Definition bind {A B : Type} (c : result A) (k : A -> result B) : result B :=
  match c with
  | Ret a => k a
  | Undefined => Undefined
  | Throw e => Throw e
  | OutOfFuel => OutOfFuel
  end.

Notation "x <- c ;; k" := (bind c (fun x => k))
  (at level 61, c at next level, right associativity).
Notation "' p <- c ;; k" := (bind c (fun x => let p := x in k))
  (at level 61, p pattern, c at next level, right associativity).

(** [*it] for an iterator at offset [i]: undefined outside the sequence. *)
Definition deref {A : Type} (v : list A) (i : nat) : result A :=
  match nth_error v i with
  | Some x => Ret x
  | None => Undefined
  end.

(** [v[i] = x] for [std::vector::operator[]]: undefined outside the vector. *)
Fixpoint assign {A : Type} (v : list A) (i : nat) (x : A) : result (list A) :=
  match v, i with
  | [], _ => Undefined
  | _ :: v', O => Ret (x :: v')
  | y :: v', S i' => v'' <- assign v' i' x ;; Ret (y :: v'')
  end.

(** A computation that takes fuel returns [r] when every large enough
    amount of fuel yields [r]; it diverges when no amount of fuel does. *)
Definition returns {A : Type} (c : nat -> result A) (r : A) : Prop :=
  exists fuel0, forall fuel, fuel0 <= fuel -> c fuel = Ret r.

Definition diverges {A : Type} (c : nat -> result A) : Prop :=
  forall fuel, c fuel = OutOfFuel.

(** ** Strings of characters *)

Definition str : Type := list ascii.

Definition c0 : ascii := "0"%char.
Definition c1 : ascii := "1"%char.

(** [char{}], the value-initialised character. *)
Definition char_zero : ascii := Ascii.zero.

Definition char_eqb (a b : ascii) : bool := Ascii.eqb a b.

Fixpoint str_eqb (x y : str) : bool :=
  match x, y with
  | [], [] => true
  | a :: x', b :: y' => char_eqb a b && str_eqb x' y'
  | _, _ => false
  end.

(** [std::bitset<w>(v).to_string()]: the low [w] bits of [v], most
    significant first. *)
Definition to_bits (w : nat) (v : Z) : str :=
  map (fun i => if Z.testbit v (Z.of_nat i) then c1 else c0) (rev (seq 0 w)).

(** [std::bitset<16>{s}] followed by [to_ulong]: the string is read as a
    binary number; a character other than '0' or '1' throws
    [std::invalid_argument]. *)
Fixpoint bitset_of_string (acc : Z) (s : str) : result Z :=
  match s with
  | [] => Ret acc
  | c :: s' =>
      if char_eqb c c0 then bitset_of_string (2 * acc)%Z s'
      else if char_eqb c c1 then bitset_of_string (2 * acc + 1)%Z s'
      else Throw invalid_argument
  end.

(** [s.substr(pos, n)]: throws [std::out_of_range] when [pos > size]. *)
Definition substr (s : str) (pos n : nat) : result str :=
  if length s <? pos then Throw out_of_range
  else Ret (firstn n (skipn pos s)).

(** [std::stoi(s, nullptr, 2)]: optional white space, optional sign, then
    the longest run of binary digits; no digit throws
    [std::invalid_argument].  (The strings handed to it here have at most
    eight characters, so the value always fits an [int].) *)
Definition is_space (c : ascii) : bool :=
  let n := nat_of_ascii c in (n =? 32) || ((9 <=? n) && (n <=? 13)).

Fixpoint skip_space (s : str) : str :=
  match s with
  | c :: s' => if is_space c then skip_space s' else s
  | [] => []
  end.

Fixpoint binary_digits (acc : Z) (seen : bool) (s : str) : option Z :=
  match s with
  | c :: s' =>
      if char_eqb c c0 then binary_digits (2 * acc)%Z true s'
      else if char_eqb c c1 then binary_digits (2 * acc + 1)%Z true s'
      else if seen then Some acc else None
  | [] => if seen then Some acc else None
  end.

Definition stoi2 (s : str) : result Z :=
  let s := skip_space s in
  let '(neg, s) :=
    match s with
    | c :: s' =>
        if char_eqb c "-"%char then (true, s')
        else if char_eqb c "+"%char then (false, s')
        else (false, s)
    | [] => (false, s)
    end in
  match binary_digits 0 false s with
  | Some v => Ret (if neg then (- v)%Z else v)
  | None => Throw invalid_argument
  end.

(** [static_cast<char>(int)]: the low eight bits. *)
Definition char_of_int (v : Z) : ascii := ascii_of_N (Z.to_N (v mod 256)).

(** ** main.cpp: counting runs of equal symbols *)

(** [adjacent_count(first, last)]: the length of the run of elements equal
    to [*first], and the position after it.  A position is the remaining
    suffix of the sequence. *)
Fixpoint adjacent_count (s : str) : Z * str :=
  match s with
  | [] => (0%Z, [])
  | a :: s' =>
      match s' with
      | b :: _ =>
          if char_eqb a b
          then let '(n, r) := adjacent_count s' in ((n + 1)%Z, r)
          else (1%Z, s')
      | [] => (1%Z, s')
      end
  end.

(** A tree node of the encoder: [std::pair<T, char>], weight first. *)
Abbreviation node := (Z * ascii)%type (only parsing).

(** [unique_copy_with_count]: the [while (true)] loop is given fuel. *)
Fixpoint unique_copy_with_count (fuel : nat) (s : str) (out : list node)
  : result (list node) :=
  match fuel with
  | O => OutOfFuel
  | S fuel' =>
      let count := adjacent_count s in
      if (fst count =? 0)%Z then Ret out
      else
        x <- deref s 0 ;;
        unique_copy_with_count fuel' (snd count) (out ++ [(fst count, x)])
  end.

(** ** main.cpp: the function objects handed to the codec *)

(** [merge_first_op<T, std::plus<T>>]: add the weights, value-initialise
    the symbol. *)
Definition merge_first_op (x y : node) : node := ((fst x + fst y)%Z, char_zero).

(** [compare_first<T, char, std::less<T>>]. *)
Definition compare_first (x y : node) : bool := (fst x <? fst y)%Z.

(** [std::not2(cmp)]. *)
Definition not2 {A : Type} (cmp : A -> A -> bool) (x y : A) : bool :=
  negb (cmp x y).

(** [get_second]. *)
Definition get_second {A : Type} (x : A * ascii) : ascii := snd x.

(** [binary_converter], pair overload: [std::bitset<8>(x.second)]. *)
Definition converter_bits {A : Type} (x : A * ascii) : str :=
  to_bits 8 (Z.of_N (N_of_ascii (snd x))).

(** [binary_converter], string overload. *)
Definition converter_char (s : str) : result ascii :=
  v <- stoi2 s ;; Ret (char_of_int v).

(** ** huffman.h: [next_node]

    The two cursors are passed by reference; the embedding returns the
    chosen position together with the new cursors. *)
Definition next_node {T : Type} (v : list T) (cmp : T -> T -> bool)
    (f0 l0 f1 l1 : nat) : result (nat * nat * nat) :=
  if f1 =? l1 then Ret (f0, S f0, f1)
  else if f0 =? l0 then Ret (f1, f0, S f1)
  else
    a1 <- deref v f1 ;;
    a0 <- deref v f0 ;;
    if cmp a1 a0 then Ret (f1, f0, S f1) else Ret (f0, S f0, f1).

(** ** huffman.h: [generate_codes]

    [v] is the sequence the iterators range over.  The callback [f] is
    threaded through the loop with a state of its own.  [prefixes] is the
    queue, [current] the offset of the entry being processed. *)
Section GenerateCodes.
Variables T St : Type.
Variable v : list T.
Variable cmp : T -> T -> bool.
Variables l0 l1 : nat.
Variable f : nat * str -> St -> result St.

Fixpoint generate_loop (n f0 f1 : nat) (prefixes : list (nat * str))
      (current : nat) (s : St) : result St :=
    match n with
    | O => Ret s
    | S n' =>
        cur <- deref prefixes current ;;
        (* is this a 'leaf node'? *)
        if l1 <=? fst cur then
          s' <- f cur s ;;
          generate_loop n' f0 f1 prefixes (S current) s'
        else
          ' (x, f0, f1) <- next_node v cmp f0 l0 f1 l1 ;;
          let prefixes := prefixes ++ [(x, snd cur ++ [c1])] in
          ' (y, f0, f1) <- next_node v cmp f0 l0 f1 l1 ;;
          let prefixes := prefixes ++ [(y, snd cur ++ [c0])] in
          generate_loop n' f0 f1 prefixes (S current) s
    end.

(** [n = l0 - f1] (both callers pass [f1 = rbegin()], so the difference is
    not negative); the root [f1] is queued with the empty code. *)
Definition generate_codes (f0 f1 : nat) (s : St) : result St :=
    let n := l0 - f1 in
    generate_loop n f0 (S f1) [(f1, [])] 0 s.
End GenerateCodes.

(** ** huffman.h: [huffman_encoder] *)

(** [std::vector<std::pair<T, char>>::max_size()] and the range of
    [size_t] on the 64-bit targets the program is built for. *)
Definition size_t_range : Z := (2 ^ 64)%Z.
Definition vector_max_size : Z := ((2 ^ 63 - 1) / 16)%Z.

(** [std::unordered_map<char, std::string>]: [insert] keeps an existing
    entry, [operator[]] yields the empty string for an absent key. *)
Definition code_table : Type := list (ascii * str).

Definition st_insert (k : ascii) (c : str) (st : code_table) : code_table :=
  if existsb (fun e => char_eqb (fst e) k) st then st else st ++ [(k, c)].

Definition st_index (st : code_table) (k : ascii) : str :=
  match find (fun e => char_eqb (fst e) k) st with
  | Some e => snd e
  | None => []
  end.

Section Encoder.
Variable T : Type.
Variable cmp : T -> T -> bool.
Variable op : T -> T -> T.

Fixpoint build_loop (fuel : nat) (l0 l1 : nat) (nodes : list T)
      (f0 f1 : nat) : result (list T) :=
    if length nodes =? l1 then Ret nodes
    else
      match fuel with
      | O => OutOfFuel
      | S fuel' =>
          ' (x, f0, f1) <- next_node nodes cmp f0 l0 f1 (length nodes) ;;
          ' (y, f0, f1) <- next_node nodes cmp f0 l0 f1 (length nodes) ;;
          vx <- deref nodes x ;;
          vy <- deref nodes y ;;
          build_loop fuel' l0 l1 (nodes ++ [op vx vy]) f0 f1
      end.

Definition build_huffman_array (fuel : nat) (nodes : list T)
    : result (list T) :=
    let size := Z.of_nat (length nodes) in
    let n := ((size * 2 - 1) mod size_t_range)%Z in
    if (vector_max_size <? n)%Z then Throw length_error (* nodes.reserve(n) *)
    else
      let f0 := 2 in
      let l0 := length nodes in
      a <- deref nodes 0 ;;
      b <- deref nodes 1 ;;
      let nodes := nodes ++ [op a b] in
      let f1 := l0 in
      let l1 := Z.to_nat n in
      build_loop fuel l0 l1 nodes f0 f1.

Variable converter : T -> str.

Fixpoint header_loop (fuel : nat) (nodes : list T) (l0 f0 f1 : nat)
      (res : str) : result str :=
    if (f0 =? l0) && (f1 =? length nodes) then Ret res
    else
      match fuel with
      | O => OutOfFuel
      | S fuel' =>
          ' (x, f0, f1) <- next_node nodes cmp f0 l0 f1 (length nodes) ;;
          (* is leaf node *)
          if x <? l0 then
            vx <- deref nodes x ;;
            header_loop fuel' nodes l0 f0 f1 (res ++ [c1] ++ converter vx)
          else
            header_loop fuel' nodes l0 f0 f1 (res ++ [c0])
      end.

Definition header (fuel : nat) (nodes : list T) : result str :=
    let res := to_bits 16 (Z.of_nat (length nodes)) in
    let f0 := 0 in
    let l0 := length nodes / 2 + 1 in (* end of leaf nodes *)
    let f1 := l0 in (* start of internal nodes *)
    header_loop fuel nodes l0 f0 f1 res.

Variable f : T -> ascii.

  (** The callback [st_op] of [operator()]. *)
Definition st_op (rnodes : list T) (x : nat * str) (st : code_table)
    : result code_table :=
    vx <- deref rnodes (fst x) ;;
    Ret (st_insert (f vx) (snd x) st).

  (** The code table [st] that [operator()] fills by [generate_codes] over
      the reverse iterators of the built array. *)
Definition encoder_codes (nodes : list T) (lnodes : nat)
    : result code_table :=
    let rnodes := rev nodes in
    let rend := length nodes in
    generate_codes rnodes (not2 cmp) rend (rend - lnodes) (st_op rnodes)
      (rend - lnodes) 0 [].

  (** encode the input with generated codes *)
Fixpoint encode_input (st : code_table) (input : str) (res : str) : str :=
    match input with
    | [] => res
    | c :: input' => encode_input st input' (res ++ st_index st c)
    end.

  (** [huffman_encoder::operator()]; [nodes0] is the member [nodes] as the
      constructor received it. *)
Definition huffman_encoder (fuel : nat) (nodes0 : list T) (input : str)
    : result str :=
    let lnodes := length nodes0 in
    nodes <- build_huffman_array fuel nodes0 ;;
    res <- header fuel nodes ;;
    st <- encoder_codes nodes lnodes ;;
    Ret (encode_input st input res).
End Encoder.

(** ** What the C++ implementation leaves open

    [std::sort] is not stable: any sorted permutation may come back.
    Whether [char] is signed is implementation-defined, and the local
    [T x;] of [read_header] is not initialised: [uninit i] stands for
    whatever it holds in iteration [i]. *)

Definition strict_weak_order {A : Type} (lt : A -> A -> bool) : Prop :=
  (forall x, lt x x = false) /\
  (forall x y z, lt x y = true -> lt y z = true -> lt x z = true) /\
  (forall x y z, lt x y = false -> lt y z = false -> lt x z = false).

(** [x] may stand before [y] in a sequence sorted by [lt]. *)
Definition not_after {A : Type} (lt : A -> A -> bool) (x y : A) : Prop :=
  lt y x = false.

Class Implementation : Type := {
  std_sort : forall A : Type, (A -> A -> bool) -> list A -> list A;
  std_sort_perm :
    forall (A : Type) (lt : A -> A -> bool) (l : list A),
      Permutation (std_sort lt l) l;
  std_sort_sorted :
    forall (A : Type) (lt : A -> A -> bool) (l : list A),
      strict_weak_order lt -> StronglySorted (not_after lt) (std_sort lt l);
  char_is_signed : bool;
  uninit : nat -> ascii
}.

(** ** huffman.h: [huffman_decoder] *)

(** A node of the decoder: [std::pair<int, T>] with [T = char]; the first
    component is the position of the node in the header. *)
Abbreviation dnode := (Z * ascii)%type (only parsing).

Section Decoder.
Context {impl : Implementation}.
Variable converter : str -> result ascii.

  (** The [for] loop of [read_header]; [count] iterations remain. *)
Fixpoint read_header_loop (count i : nat) (input : str)
      (nodes : list dnode) (lnodes inodes first : nat)
    : result (list dnode * nat) :=
    match count with
    | O => Ret (nodes, first)
    | S count' =>
        c <- deref input first ;;
        let isleaf := char_eqb c c1 in
        let first := S first in
        if isleaf then
          s <- substr input first 8 ;;
          x <- converter s ;;
          let first := first + 8 in
          nodes <- assign nodes lnodes (Z.of_nat i, x) ;;
          read_header_loop count' (S i) input nodes (S lnodes) inodes first
        else
          nodes <- assign nodes inodes (Z.of_nat i, uninit i) ;;
          read_header_loop count' (S i) input nodes lnodes (S inodes) first
    end.

Definition read_header (input : str) : result (list dnode * nat) :=
    s <- substr input 0 16 ;;
    size <- bitset_of_string 0 s ;;
    let nodes := repeat (0%Z, char_zero) (Z.to_nat size) in
    let lnodes := 0 in
    let inodes := length nodes / 2 + 1 in
    let first := 16 in
    read_header_loop (length nodes) 0 input nodes lnodes inodes first.

  (** The comparator of the sort applied to [prefixes]. *)
Definition shorter_code (x y : nat * str) : bool :=
    length (snd x) <? length (snd y).

  (** The callback [prefix_op]. *)
Definition prefix_op (x : nat * str) (prefixes : list (nat * str))
    : result (list (nat * str)) :=
    Ret (prefixes ++ [x]).

  (** The comparator of the decoder: [!(x.first < y.first)]. *)
Definition decoder_cmp (x y : dnode) : bool := negb (fst x <? fst y)%Z.

  (** [operator()] up to the point where matching begins: the node array,
      the candidate prefixes and the position of the first payload bit.
      [std::sort] runs on [prefixes] before [generate_codes] fills it. *)
Definition decoder_prefixes (input : str)
    : result (list dnode * list (nat * str) * nat) :=
    ' (nodes, current) <- read_header input ;;
    let lnodes := length nodes / 2 + 1 in
    let prefixes : list (nat * str) := [] in
    let prefixes := std_sort shorter_code prefixes in
    let rend := length nodes in
    if rend <? lnodes then Undefined (* rend() - lnodes before rbegin() *)
    else
      prefixes <- generate_codes (rev nodes) decoder_cmp rend (rend - lnodes)
                    prefix_op (rend - lnodes) 0 prefixes ;;
      Ret (nodes, prefixes, current).

  (** read bits until we match the current prefix size *)
Fixpoint read_bits (input : str) (k : nat) (bits_read : str)
      (current : nat) : result (str * nat) :=
    match k with
    | O => Ret (bits_read, current)
    | S k' =>
        c <- deref input current ;;
        read_bits input k' (bits_read ++ [c]) (S current)
    end.

  (** The [for] loop over the prefixes: the matched entry if any, with
      [bits_read] and [current] as the loop leaves them. *)
Fixpoint match_prefix (input : str) (prefixes : list (nat * str))
      (bits_read : str) (current : nat)
    : result (option nat * str * nat) :=
    match prefixes with
    | [] => Ret (None, bits_read, current)
    | prefix :: rest =>
        ' (bits_read, current) <-
            read_bits input (length (snd prefix) - length bits_read)
              bits_read current ;;
        if str_eqb bits_read (snd prefix)
        then Ret (Some (fst prefix), [], current)
        else match_prefix input rest bits_read current
    end.

  (** [while (current != input.end())] *)
Fixpoint decode_loop (fuel : nat) (input : str) (rnodes : list dnode)
      (prefixes : list (nat * str)) (bits_read : str) (current : nat)
      (res : str) : result str :=
    if current =? length input then Ret res
    else
      match fuel with
      | O => OutOfFuel
      | S fuel' =>
          ' (m, bits_read, current) <-
              match_prefix input prefixes bits_read current ;;
          match m with
          | Some p =>
              vp <- deref rnodes p ;;
              decode_loop fuel' input rnodes prefixes bits_read current
                (res ++ [snd vp])
          | None =>
              decode_loop fuel' input rnodes prefixes bits_read current res
          end
      end.

Definition huffman_decoder (fuel : nat) (input : str) : result str :=
    ' (nodes, prefixes, current) <- decoder_prefixes input ;;
    decode_loop fuel input (rev nodes) prefixes [] current [].
End Decoder.

(** ** main.cpp: [compress] and [decompress] *)

Section Main.
Context {impl : Implementation}.

  (** The value of a [char] in comparisons. *)
Definition char_value (c : ascii) : Z :=
    let n := Z.of_N (N_of_ascii c) in
    if char_is_signed && (128 <=? n)%Z then (n - 256)%Z else n.

Definition char_less (a b : ascii) : bool :=
    (char_value a <? char_value b)%Z.

  (** The frequency table of [compress], before it is sorted by weight. *)
Definition frequencies (fuel : nat) (input : str) : result (list node) :=
    let x := std_sort char_less input in
    unique_copy_with_count fuel x [].

Definition compress (fuel : nat) (input : str) : result str :=
    frequencies <- frequencies fuel input ;;
    let frequencies := std_sort compare_first frequencies in
    huffman_encoder compare_first merge_first_op (@converter_bits Z)
      (@get_second Z) fuel frequencies input.

Definition decompress (fuel : nat) (input : str) : result str :=
    huffman_decoder converter_char fuel input.
End Main.

(** ** A reference implementation: insertion sort, signed [char] *)

Section InsertionSort.
Variable A : Type.
Variable lt : A -> A -> bool.

Fixpoint insert_sorted (x : A) (l : list A) : list A :=
    match l with
    | [] => [x]
    | y :: l' => if lt y x then y :: insert_sorted x l' else x :: l
    end.

Fixpoint insertion_sort (l : list A) : list A :=
    match l with
    | [] => []
    | x :: l' => insert_sorted x (insertion_sort l')
    end.
End InsertionSort.

(** ** main.cpp: [main]

    [argv] holds the program name followed by the arguments, so [argc] is
    its length.  [main] is modelled by what it has written to [std::cout]
    and by how it ends: the value it returns, or what went wrong in
    [compress] or [decompress] after some output was written. *)

Module Text.
Import String.

Definition nl : ascii := "010"%char.

Definition expected_one_argument : str :=
  list_ascii_of_string "expected one argument".
Definition input_message : str :=
  list_ascii_of_string "--Input Message--".
Definition compressed_message : str :=
  list_ascii_of_string "--Compressed Message--".
Definition decompressed_message : str :=
  list_ascii_of_string "--Decompressed Message--".
Definition compression_results : str :=
  list_ascii_of_string "--Compression Results--".
Definition input_size : str := list_ascii_of_string "Input Size: ".
Definition output_size : str :=
  list_ascii_of_string "Output Size (including header): ".
Definition bits : str := list_ascii_of_string " bits".

(** [std::cout << n] for a [size_t]. *)
Definition decimal (n : nat) : str :=
  list_ascii_of_string (DecimalString.NilZero.string_of_uint (Nat.to_uint n)).
End Text.

Section MainProgram.
Context {impl : Implementation}.

Definition main (fuel : nat) (argv : list str) : str * result Z :=
    if negb (length argv =? 2) then
      (Text.expected_one_argument ++ [Text.nl], Ret 1%Z)
    else
      let cout := Text.input_message ++ [Text.nl] in
      let s := nth 1 argv [] in
      let cout := cout ++ s ++ [Text.nl] in
      let cout := cout ++ [Text.nl] ++ Text.compressed_message ++ [Text.nl] in
      match compress fuel s with
      | Ret compressed =>
          let cout := cout ++ compressed ++ [Text.nl] in
          let cout :=
            cout ++ [Text.nl] ++ Text.decompressed_message ++ [Text.nl] in
          match decompress fuel compressed with
          | Ret r =>
              let cout := cout ++ r ++ [Text.nl] in
              let cout :=
                cout ++ [Text.nl] ++ Text.compression_results ++ [Text.nl] in
              let cout :=
                cout ++ Text.input_size ++ Text.decimal (length s * 8)
                  ++ Text.bits ++ [Text.nl] in
              let cout :=
                cout ++ Text.output_size ++ Text.decimal (length compressed)
                  ++ Text.bits ++ [Text.nl] in
              (cout, Ret 0%Z)
          | Undefined => (cout, Undefined)
          | Throw e => (cout, Throw e)
          | OutOfFuel => (cout, OutOfFuel)
          end
      | Undefined => (cout, Undefined)
      | Throw e => (cout, Throw e)
      | OutOfFuel => (cout, OutOfFuel)
      end.
End MainProgram.

(** * Definitions used to state and prove the properties *)

(** ** The emission order of [generate_codes]

    The codes handed to the callback, in order; [pending] holds the queue
    entries from [current] on.  [generate_loop_gen_list] relates it to
    [generate_loop]. *)
Section GenList.
Variable T : Type.
Variable v : list T.
Variable cmp : T -> T -> bool.
Variables l0 l1 : nat.

Fixpoint gen_list (n f0 f1 : nat) (pending : list (nat * str))
  : result (list (nat * str)) :=
  match n with
  | O => Ret []
  | S n' =>
      match pending with
      | [] => Undefined
      | cur :: rest =>
          if l1 <=? fst cur then
            out <- gen_list n' f0 f1 rest ;; Ret (cur :: out)
          else
            ' (x, f0, f1) <- next_node v cmp f0 l0 f1 l1 ;;
            ' (y, f0, f1) <- next_node v cmp f0 l0 f1 l1 ;;
            gen_list n' f0 f1
              (rest ++ [(x, snd cur ++ [c1]); (y, snd cur ++ [c0])])
      end
  end.
End GenList.

(** Calling [f] on each emitted entry in turn. *)
Fixpoint run_callback (St : Type) (f : nat * str -> St -> result St)
    (out : list (nat * str)) (s : St) : result St :=
  match out with
  | [] => Ret s
  | x :: out' => s' <- f x s ;; run_callback f out' s'
  end.

Definition code_len (e : nat * str) : nat := length (snd e).

(** Ascending by code length. *)
Definition shortest_first (l : list (nat * str)) : Prop :=
  StronglySorted (fun x y => code_len x <= code_len y) l.

(** The queue holds codes of length [d], then codes of length [d + 1]. *)
Definition level_queue (d : nat) (pending : list (nat * str)) : Prop :=
  exists p1 p2, pending = p1 ++ p2 /\
    Forall (fun e => code_len e = d) p1 /\
    Forall (fun e => code_len e = S d) p2.

(** ** Prefix codes *)

Definition is_prefix (a b : str) : Prop := exists t, b = a ++ t.

Definition incomparable (a b : str) : Prop :=
  ~ is_prefix a b /\ ~ is_prefix b a.

(** No code of the list is a prefix of a code at another place of it. *)
Definition prefix_free (l : list str) : Prop :=
  ForallOrdPairs incomparable l.

(** ** The comparisons that drive [generate_codes]

    With [m] internal nodes at offsets [0 .. m) and [m + 1] leaves at
    offsets [m .. 2m], [generate_codes] only ever compares an internal node
    with a leaf.  [c q p] is the outcome of [cmp] on internal node [q] and
    leaf [p]. *)
Definition compares (T : Type) (v : list T) (cmp : T -> T -> bool) (m : nat)
    (c : nat -> nat -> bool) : Prop :=
  forall q p, q < m -> m <= p -> p < 2 * m + 1 ->
    exists a1 a0,
      nth_error v q = Some a1 /\ nth_error v p = Some a0 /\ cmp a1 a0 = c q p.

(** Internal nodes are in order: one that precedes a leaf is preceded by
    the internal nodes before it. *)
Definition internal_monotone (m : nat) (c : nat -> nat -> bool) : Prop :=
  forall q q' p, q <= q' -> q' < m -> m <= p -> p < 2 * m + 1 ->
    c q' p = true -> c q p = true.

(** The [q]-th internal node precedes the [q]-th leaf: when the queue
    reaches a leaf, enough internal nodes were expanded before it. *)
Definition internal_ahead (m : nat) (c : nat -> nat -> bool) : Prop :=
  forall q, q < m -> c q (m + q) = true.

(** The invariant of the queue of [generate_codes] after [I] internal
    nodes and [L] leaves have been processed: the queue holds the offsets
    the cursors have passed, each kind in increasing order, and every leaf
    passed so far precedes every internal node not yet passed. *)
Definition queue_inv (m : nat) (c : nat -> nat -> bool) (I L f0 f1 : nat)
    (pending : list (nat * str)) : Prop :=
  filter (fun p => p <? m) (map fst pending) = seq I (f1 - I) /\
  filter (fun p => m <=? p) (map fst pending) = seq (m + L) (f0 - (m + L)) /\
  I <= f1 /\ f1 <= m /\ m + L <= f0 /\ f0 <= 2 * m + 1 /\ 1 <= f1 /\
  (forall p q, m <= p -> p < f0 -> f1 <= q -> q < m -> c q p = false).

(** What [next_node] returns inside [generate_codes], as a function of the
    comparisons alone. *)
Definition pick (c : nat -> nat -> bool) (m N f0 f1 : nat)
  : nat * nat * nat :=
  if f1 =? m then (f0, S f0, f1)
  else if f0 =? N then (f1, f0, S f1)
  else if c f1 f0 then (f1, f0, S f1) else (f0, S f0, f1).

(** The cursors of [generate_codes] stay inside their frontiers. *)
Definition cursors_ok (m N f0 f1 : nat) : Prop :=
  f1 <= m /\ m <= f0 /\ (f1 < m -> f0 <= N).

(** ** The merge array *)

Definition node_default : node := (0%Z, char_zero).

Definition weight (nodes : list node) (i : nat) : Z :=
  fst (nth i nodes node_default).

Definition zsum (l : list Z) : Z := fold_right Z.add 0%Z l.

(** The range of the weight type, [ptrdiff_t] of 64 bits. *)
Definition ptrdiff_max : Z := (2 ^ 63 - 1)%Z.
Definition ptrdiff_min : Z := (- 2 ^ 63)%Z.

Definition in_ptrdiff (z : Z) : Prop := (ptrdiff_min <= z <= ptrdiff_max)%Z.

(** The sum of the absolute values of the weights: where it is at most
    [ptrdiff_max], no sum of some of the weights leaves the range. *)
Definition abs_weight (l : list node) : Z :=
  zsum (map (fun x => Z.abs (fst x)) l).

(** The positions of [nodes] that no internal node has taken as a child. *)
Definition live (nodes : list node) (consumed : list nat) : list nat :=
  filter (fun z => negb (existsb (Nat.eqb z) consumed))
    (seq 0 (length nodes)).

(** [x] and [y] are the two smallest not-yet-consumed nodes. *)
Definition two_smallest (nodes : list node) (consumed : list nat)
    (x y : nat) : Prop :=
  In x (live nodes consumed) /\ In y (live nodes consumed) /\ x <> y /\
  (weight nodes x <= weight nodes y)%Z /\
  forall z, In z (live nodes consumed) -> z <> x -> z <> y ->
    (weight nodes y <= weight nodes z)%Z.

(** The arrays that grow from [leaves] by appending, one at a time, the
    combination of the two smallest not-yet-consumed nodes; [consumed]
    lists the children taken so far, latest first. *)
Inductive merge_array (leaves : list node) : list node -> list nat -> Prop :=
| merge_array_leaves : merge_array leaves leaves []
| merge_array_step nodes consumed x y :
    merge_array leaves nodes consumed ->
    two_smallest nodes consumed x y ->
    merge_array leaves
      (nodes ++ [merge_first_op (nth x nodes node_default)
                                (nth y nodes node_default)])
      (y :: x :: consumed).

(** The invariant of the loop of [build_huffman_array] for [k] leaves:
    the cursors have passed exactly the consumed nodes, the internal nodes
    not yet passed are in ascending order, and each of them is the sum of
    two weights that bound every node not yet passed before it. *)
Definition build_inv (leaves nodes : list node) (f0 f1 : nat)
    (consumed : list nat) : Prop :=
  let k := length leaves in
  firstn k nodes = leaves /\
  2 <= f0 /\ f0 <= k /\ k <= f1 /\ f1 < length nodes /\
  f0 + (f1 - k) = 2 * (length nodes - k) /\
  (forall z, In z consumed <-> z < f0 \/ (k <= z /\ z < f1)) /\
  merge_array leaves nodes consumed /\
  (forall q q', f1 <= q -> q <= q' -> q' < length nodes ->
     (weight nodes q <= weight nodes q')%Z) /\
  (forall q, f1 <= q -> q < length nodes ->
     exists a b, weight nodes q = (a + b)%Z /\
       (forall p, f0 <= p -> p < k ->
          (a <= weight nodes p)%Z /\ (b <= weight nodes p)%Z) /\
       (forall q', f1 <= q' -> q' < q ->
          (a <= weight nodes q')%Z /\ (b <= weight nodes q')%Z)).

(** What holds in addition when no weight is negative: the internal nodes
    are in ascending order altogether, the [j]-th internal node is at
    least as heavy as leaf [j + 1], and no consumed leaf is heavier than
    an internal node still to be consumed. *)
Definition build_inv_nonneg (leaves nodes : list node) (f0 f1 : nat) : Prop :=
  let k := length leaves in
  (forall i, i < length nodes -> (0 <= weight nodes i)%Z) /\
  (forall q q', k <= q -> q <= q' -> q' < length nodes ->
     (weight nodes q <= weight nodes q')%Z) /\
  (forall j, k + j < length nodes ->
     (weight nodes (S j) <= weight nodes (k + j))%Z) /\
  (forall p q, p < f0 -> f1 <= q -> q < length nodes ->
     (weight nodes p <= weight nodes q)%Z).

(** Position [z] is between the cursors and the ends of their frontiers:
    a leaf or an internal node not yet consumed. *)
Definition between (k len f0 f1 z : nat) : Prop :=
  (f0 <= z /\ z < k) \/ (f1 <= z /\ z < len).

(** ** The decoder's array *)

(** The header position stored in node [z] of the decoder's array. *)
Definition header_pos (dn : list dnode) (z : nat) : Z :=
  fst (nth z dn node_default).

(** The symbol stored in node [z]. *)
Definition symbol (nodes : list (Z * ascii)) (z : nat) : ascii :=
  snd (nth z nodes node_default).

(** ** Inputs *)

(** The number of distinct symbols of an input. *)
Definition distinct_symbols (input : str) : nat :=
  length (nodup ascii_dec input).

(** The comparison [generate_codes] makes in the encoder between the
    internal node at reverse offset [q] and the leaf at reverse offset
    [p]: [std::not2(cmp)] on the weights. *)
Definition rev_compare (nodes : list node) (q p : nat) : bool :=
  negb (weight (rev nodes) q <? weight (rev nodes) p)%Z.

(** ** Sorting the candidates

    The stable ascending sort by code length: insertion sort keeps entries
    of equal length in the order they had. *)
Definition sort_by_code_length (l : list (nat * str)) : list (nat * str) :=
  insertion_sort shorter_code l.

(** ** Malformed streams

    The header that [compress] writes for "abc" (five nodes; codes "0",
    "11" and "10"), followed by a payload that stops inside a code, and by
    payloads whose characters match no code. *)
Definition header_abc : str :=
  to_bits 16 5 ++
  [c1] ++ to_bits 8 97 ++ [c1] ++ to_bits 8 98 ++ [c1] ++ to_bits 8 99 ++
  [c0] ++ [c0].

Definition truncated_stream : str := header_abc ++ [c1].

Definition unmatched_stream : str :=
  header_abc ++ ["2"%char; "2"%char; "2"%char].

Definition dropped_stream : str := header_abc ++ ["2"%char; "2"%char].

(** ** Sample data *)

Definition abc : str := ["a"%char; "b"%char; "c"%char].

Definition aaaa : str := ["a"%char; "a"%char; "a"%char; "a"%char].

(** Four leaves sorted by weight. *)
Definition sample_leaves : list node :=
  [(1%Z, "c"%char); (1%Z, "d"%char); (2%Z, "b"%char); (5%Z, "a"%char)].

(** Three leaves and one internal node; the leaf at offset 2 and the
    internal node at offset 3 weigh the same. *)
Definition tie_nodes : list node :=
  [(1%Z, "a"%char); (1%Z, "b"%char); (2%Z, "c"%char); (2%Z, char_zero)].

(** The decoder's array for "abc" with the reference implementation. *)
Definition abc_dnodes : list dnode :=
  [(0%Z, "a"%char); (1%Z, "b"%char); (2%Z, "c"%char);
   (3%Z, char_zero); (4%Z, char_zero)].

Definition abc_prefixes : list (nat * str) :=
  [(2, [c0]); (3, [c1; c1]); (4, [c1; c0])].

(** ** Bit strings, run lengths and table keys *)

(** A character of the compressed stream: '0' or '1'. *)
Definition binary (c : ascii) : Prop := c = c0 \/ c = c1.

(** Writing out a list of (count, symbol) pairs: each symbol as often as
    its count says. *)
Definition expand (fr : list node) : str :=
  flat_map (fun e => repeat (snd e) (Z.to_nat (fst e))) fr.

(** The key [c] has an entry in the table. *)
Definition has_code (st : code_table) (c : ascii) : bool :=
  existsb (fun e => char_eqb (fst e) c) st.

(** An array of leaves and internal nodes as [header] expects it. *)
Definition abc_nodes : list node :=
  [(1%Z, "a"%char); (1%Z, "b"%char); (1%Z, "c"%char);
   (2%Z, char_zero); (3%Z, char_zero)].

(** ** The stages of [compress]

    What [compress] computes on [input], stage by stage: the frequency
    table, the merge array, the header, the code table, and the output,
    which is the header followed by the codes of the input. *)
Definition compress_stages {impl : Implementation} (input : str)
    (fr nodes : list node) (hdr : str) (st : code_table) (out : str)
  : Prop :=
  returns (fun fuel => frequencies fuel input) fr /\
  returns (fun fuel =>
             build_huffman_array compare_first merge_first_op fuel
               (std_sort compare_first fr)) nodes /\
  returns (fun fuel => header compare_first (@converter_bits Z) fuel nodes)
    hdr /\
  encoder_codes compare_first (@get_second Z) nodes (length fr) = Ret st /\
  returns (fun fuel => compress fuel input) out /\
  out = hdr ++ flat_map (st_index st) input.

(** ** More sample data *)

(** Sixteen characters where the node count should be, one of them not a
    binary digit. *)
Definition bad_count_stream : str := repeat c0 15 ++ ["2"%char].

(** A node count of five with nothing after it. *)
Definition count_only_stream : str := to_bits 16 5.

(** An input whose symbols occur 2, 1 and 4 times. *)
Definition aabcccc : str :=
  ["a"%char; "a"%char; "b"%char; "c"%char; "c"%char; "c"%char; "c"%char].

Definition cab : str := ["c"%char; "a"%char; "b"%char].

Definition program_name : str :=
  ["h"%char; "u"%char; "f"%char; "f"%char; "m"%char; "a"%char; "n"%char].

(** ** The merge order and the cost of a code

    The positions that successive calls of [next_node] hand out. *)
Fixpoint merge_order (T : Type) (v : list T) (cmp : T -> T -> bool)
    (l0 l1 n f0 f1 : nat) : result (list nat) :=
  match n with
  | O => Ret []
  | S n' =>
      ' (x, f0, f1) <- next_node v cmp f0 l0 f1 l1 ;;
      rest <- merge_order v cmp l0 l1 n' f0 f1 ;;
      Ret (x :: rest)
  end.

(** The number of characters that the codes [l] take when the node at
    offset [p] occurs [wt p] times. *)
Definition code_cost (wt : nat -> Z) (l : list (nat * str)) : Z :=
  zsum (map (fun e => (wt (fst e) * Z.of_nat (length (snd e)))%Z) l).

(** ** Codes by their lengths

    [ps] lists the nodes that have a code and [len z] is the length of
    the code of node [z].  [kraft_ok] is Kraft's inequality, scaled by
    [2 ^ M] to stay with integers. *)
Definition lengths_cost (w : nat -> Z) (len : nat -> nat) (ps : list nat)
  : Z :=
  zsum (map (fun z => (w z * Z.of_nat (len z))%Z) ps).

Definition kraft_sum (M : nat) (len : nat -> nat) (ps : list nat) : Z :=
  zsum (map (fun z => (2 ^ Z.of_nat (M - len z))%Z) ps).

Definition kraft_ok (M : nat) (len : nat -> nat) (ps : list nat) : Prop :=
  (forall z, In z ps -> len z <= M) /\
  (kraft_sum M len ps <= 2 ^ Z.of_nat M)%Z.

Definition set_length (len : nat -> nat) (a v : nat) : nat -> nat :=
  fun z => if z =? a then v else len z.

Definition swap_lengths (len : nat -> nat) (a b : nat) : nat -> nat :=
  fun z => if z =? a then len b else if z =? b then len a else len z.

(** Kraft's sum of a list of codes, scaled by [2 ^ M]. *)
Definition kraft_codes (M : nat) (l : list str) : Z :=
  zsum (map (fun c => (2 ^ Z.of_nat (M - length c))%Z) l).

(** The codes of [l] that start with [b], without that character. *)
Definition tails (b : ascii) (l : list str) : list str :=
  flat_map (fun c => match c with
                     | x :: t => if char_eqb x b then [t] else []
                     | [] => []
                     end) l.

(** The code that writes every character as its eight bits. *)
Definition plain_code (c : ascii) : str := to_bits 8 (Z.of_N (N_of_ascii c)).

(** * The reference implementation satisfies the interface *)

Lemma insert_sorted_perm (A : Type) (lt : A -> A -> bool) x l :
  Permutation (insert_sorted lt x l) (x :: l).
Proof.
  induction l as [|y l IH]; simpl; [reflexivity|].
  destruct (lt y x); [|reflexivity].
  rewrite IH. apply perm_swap.
Qed.

Lemma insertion_sort_perm (A : Type) (lt : A -> A -> bool) l :
  Permutation (insertion_sort lt l) l.
Proof.
  induction l as [|x l IH]; simpl; [reflexivity|].
  rewrite insert_sorted_perm. now constructor.
Qed.

Lemma insert_sorted_sorted (A : Type) (lt : A -> A -> bool) x l :
  strict_weak_order lt ->
  StronglySorted (not_after lt) l ->
  StronglySorted (not_after lt) (insert_sorted lt x l).
Proof.
  intros (Hirr & Htr & Hntr) Hs.
  induction Hs as [|y l Hs IH Hy]; simpl.
  - repeat constructor.
  - destruct (lt y x) eqn:E.
    + constructor; [exact IH|].
      rewrite Forall_forall. intros z Hz.
      apply (Permutation_in _ (insert_sorted_perm lt x l)) in Hz.
      destruct Hz as [<-|Hz].
      * unfold not_after. destruct (lt x y) eqn:E'; [|reflexivity].
        rewrite <- (Hirr x). symmetry. eauto.
      * rewrite Forall_forall in Hy. auto.
    + constructor; [constructor; assumption|].
      constructor; [exact E|].
      rewrite Forall_forall in *. intros z Hz.
      unfold not_after in *. eauto.
Qed.

Lemma insertion_sort_sorted (A : Type) (lt : A -> A -> bool) l :
  strict_weak_order lt -> StronglySorted (not_after lt) (insertion_sort lt l).
Proof.
  intros H. induction l as [|x l IH]; simpl.
  - constructor.
  - now apply insert_sorted_sorted.
Qed.

#[export] Instance reference_implementation : Implementation := {|
  std_sort := insertion_sort;
  std_sort_perm := insertion_sort_perm;
  std_sort_sorted := insertion_sort_sorted;
  char_is_signed := true;
  uninit := fun _ => char_zero
|}.


(** Another implementation: the same sort, unsigned [char], and other
    contents of uninitialised variables. *)
#[export] Instance unsigned_implementation : Implementation := {|
  std_sort := insertion_sort;
  std_sort_perm := insertion_sort_perm;
  std_sort_sorted := insertion_sort_sorted;
  char_is_signed := false;
  uninit := fun _ => "x"%char
|}.

(** * Elementary facts about the embedding *)

Lemma bind_Ret_inv (A B : Type) (c : result A) (k : A -> result B) (b : B) :
  bind c k = Ret b -> exists a, c = Ret a /\ k a = Ret b.
Proof. destruct c; simpl; intros H; try discriminate. eauto. Qed.

Ltac inv_bind H :=
  let a := fresh "r" in
  let H1 := fresh H "a" in
  let H2 := fresh H "b" in
  apply bind_Ret_inv in H; destruct H as (a & H1 & H2).

Lemma deref_Ret (A : Type) (v : list A) (i : nat) (x : A) :
  deref v i = Ret x <-> nth_error v i = Some x.
Proof.
  unfold deref. destruct (nth_error v i); split; intros H;
    try discriminate; congruence.
Qed.

Lemma deref_nth (A : Type) (v : list A) (i : nat) (d : A) :
  i < length v -> deref v i = Ret (nth i v d).
Proof.
  intros H. apply deref_Ret. now apply nth_error_nth'.
Qed.

Lemma deref_lt (A : Type) (v : list A) (i : nat) (x : A) :
  deref v i = Ret x -> i < length v.
Proof.
  intros H. apply deref_Ret in H. apply nth_error_Some. congruence.
Qed.

Lemma deref_out (A : Type) (v : list A) (i : nat) :
  length v <= i -> deref v i = Undefined.
Proof.
  intros H. unfold deref. apply nth_error_None in H. now rewrite H.
Qed.

Lemma deref_app_l (A : Type) (v v' : list A) (i : nat) :
  i < length v -> deref (v ++ v') i = deref v i.
Proof. intros H. unfold deref. now rewrite nth_error_app1. Qed.

Lemma deref_app_r (A : Type) (v v' : list A) (i : nat) :
  deref (v ++ v') (length v + i) = deref v' i.
Proof.
  unfold deref. rewrite nth_error_app2 by lia.
  now replace (length v + i - length v) with i by lia.
Qed.

Lemma assign_spec (A : Type) (v : list A) (i : nat) (x : A) :
  i < length v ->
  assign v i x = Ret (firstn i v ++ x :: skipn (S i) v).
Proof.
  revert i. induction v as [|y v IH]; intros [|i] H; simpl in *; try lia.
  - reflexivity.
  - rewrite IH by lia. reflexivity.
Qed.

Lemma char_eqb_eq (a b : ascii) : char_eqb a b = true <-> a = b.
Proof. apply Ascii.eqb_eq. Qed.

Lemma char_eqb_refl (a : ascii) : char_eqb a a = true.
Proof. now apply char_eqb_eq. Qed.

Lemma char_eqb_neq (a b : ascii) : char_eqb a b = false <-> a <> b.
Proof. apply Ascii.eqb_neq. Qed.

Lemma str_eqb_eq (x y : str) : str_eqb x y = true <-> x = y.
Proof.
  revert y. induction x as [|a x IH]; intros [|b y]; simpl;
    try (split; [discriminate|congruence]); [tauto|].
  rewrite andb_true_iff, char_eqb_eq, IH. split.
  - intros [-> ->]. reflexivity.
  - intros H. injection H. auto.
Qed.

Lemma str_eqb_refl (x : str) : str_eqb x x = true.
Proof. now apply str_eqb_eq. Qed.

(** ** [next_node] *)

Lemma next_node_cases (T : Type) (v : list T) (cmp : T -> T -> bool)
    (f0 l0 f1 l1 x f0' f1' : nat) :
  next_node v cmp f0 l0 f1 l1 = Ret (x, f0', f1') ->
  (x = f0 /\ f0' = S f0 /\ f1' = f1) \/ (x = f1 /\ f0' = f0 /\ f1' = S f1 /\ f1 <> l1).
Proof.
  unfold next_node.
  destruct (f1 =? l1) eqn:E1.
  - intros H. injection H as <- <- <-. auto.
  - apply Nat.eqb_neq in E1.
    destruct (f0 =? l0).
    + intros H. injection H as <- <- <-. auto.
    + intros H. inv_bind H. inv_bind Hb.
      destruct (cmp r r0); injection Hbb as <- <- <-; auto.
Qed.

(** The comparison made by [next_node] when both frontiers are non-empty. *)
Lemma next_node_both (T : Type) (v : list T) (cmp : T -> T -> bool)
    (f0 l0 f1 l1 : nat) (a0 a1 : T) :
  f0 <> l0 -> f1 <> l1 ->
  nth_error v f0 = Some a0 -> nth_error v f1 = Some a1 ->
  next_node v cmp f0 l0 f1 l1 =
    if cmp a1 a0 then Ret (f1, f0, S f1) else Ret (f0, S f0, f1).
Proof.
  intros H0 H1 E0 E1. unfold next_node.
  apply Nat.eqb_neq in H0, H1. rewrite H0, H1.
  apply deref_Ret in E0, E1. rewrite E0, E1. reflexivity.
Qed.

(** * [generate_codes]: the order of emission and the shape of the codes *)

Section GenListFacts.
Variable T : Type.
Variable v : list T.
Variable cmp : T -> T -> bool.
Variables l0 l1 : nat.

Lemma generate_loop_gen_list (St : Type) (f : nat * str -> St -> result St) :
  forall n f0 f1 done pending s out,
    gen_list v cmp l0 l1 n f0 f1 pending = Ret out ->
    generate_loop v cmp l0 l1 f n f0 f1 (done ++ pending) (length done) s =
    run_callback f out s.
Proof.
  induction n as [|n IH]; intros f0 f1 done pending s out H; simpl in *.
  - injection H as <-. reflexivity.
  - destruct pending as [|cur rest]; [discriminate|].
    replace (deref (done ++ cur :: rest) (length done)) with (Ret cur).
    2:{ symmetry. apply deref_Ret. rewrite nth_error_app2 by lia.
        now rewrite Nat.sub_diag. }
    simpl. destruct (l1 <=? fst cur).
    + inv_bind H. injection Hb as <-. simpl.
      destruct (f cur s) as [s'| | |]; simpl; try reflexivity.
      specialize (IH f0 f1 (done ++ [cur]) rest s' r Ha).
      rewrite <- app_assoc, length_app in IH. simpl in IH.
      now rewrite Nat.add_1_r in IH.
    + inv_bind H. destruct r as [[x f0'] f1']. rewrite Ha. simpl.
      inv_bind Hb. destruct r as [[y f0''] f1'']. rewrite Hba. simpl.
      specialize (IH f0'' f1'' (done ++ [cur])
                    (rest ++ [(x, snd cur ++ [c1]); (y, snd cur ++ [c0])])
                    s out Hbb).
      rewrite length_app in IH. simpl in IH. rewrite Nat.add_1_r in IH.
      rewrite <- IH. f_equal. rewrite <- !app_assoc. reflexivity.
Qed.

Lemma generate_codes_gen_list (St : Type) (f : nat * str -> St -> result St)
    (f0 f1 : nat) (s : St) (out : list (nat * str)) :
  gen_list v cmp l0 l1 (l0 - f1) f0 (S f1) [(f1, [])] = Ret out ->
  generate_codes v cmp l0 l1 f f0 f1 s = run_callback f out s.
Proof.
  intros H. unfold generate_codes.
  apply (generate_loop_gen_list f _ _ _ [] _ s H).
Qed.

(** *** Breadth-first order: codes come out shortest first *)

Lemma level_queue_head d cur rest :
  level_queue d (cur :: rest) ->
  exists d', d <= d' /\ code_len cur = d' /\ level_queue d' rest /\
    forall a b, code_len a = S d' -> code_len b = S d' ->
      level_queue d' (rest ++ [a; b]).
Proof.
  intros (p1 & p2 & E & H1 & H2).
  destruct p1 as [|e p1]; simpl in E.
  - subst p2. inversion H2; subst. exists (S d).
    repeat split; [lia|assumption| |].
    + exists rest, []. rewrite app_nil_r. auto.
    + intros a b Ha Hb. exists rest, [a; b]. auto.
  - injection E as <- ->. inversion H1; subst. exists (code_len cur).
    repeat split; [lia| |].
    + exists p1, p2. auto.
    + intros a b Ha Hb. exists p1, (p2 ++ [a; b]).
      rewrite app_assoc. repeat split; auto.
      apply Forall_app. auto.
Qed.

Lemma gen_list_sorted :
  forall n f0 f1 pending d out,
    level_queue d pending ->
    gen_list v cmp l0 l1 n f0 f1 pending = Ret out ->
    shortest_first out /\ Forall (fun e => d <= code_len e) out.
Proof.
  unfold shortest_first.
  induction n as [|n IH]; intros f0 f1 pending d out Hq H; simpl in H.
  - injection H as <-. split; constructor.
  - destruct pending as [|cur rest]; [discriminate|].
    destruct (level_queue_head Hq) as (d' & Hd & Hc & Hrest & Hpush).
    destruct (l1 <=? fst cur).
    + inv_bind H. injection Hb as <-.
      destruct (IH _ _ _ _ _ Hrest Ha) as [Hs Hf].
      split.
      * constructor; [assumption|].
        eapply Forall_impl; [|exact Hf]. simpl. intros; lia.
      * constructor; [lia|].
        eapply Forall_impl; [|exact Hf]. simpl. intros; lia.
    + inv_bind H. destruct r as [[x f0'] f1'].
      inv_bind Hb. destruct r as [[y f0''] f1''].
      assert (Hq' : level_queue d'
                (rest ++ [(x, snd cur ++ [c1]); (y, snd cur ++ [c0])])).
      { apply Hpush; unfold code_len in *; simpl;
          rewrite length_app; simpl; lia. }
      destruct (IH _ _ _ _ _ Hq' Hbb) as [Hs Hf].
      split; [assumption|].
      eapply Forall_impl; [|exact Hf]. simpl. intros; lia.
Qed.

Lemma level_queue_root (p : nat) : level_queue 0 [(p, [])].
Proof. exists [(p, [])], []. repeat split; repeat constructor. Qed.
End GenListFacts.

(** With the callback that collects the entries, [generate_loop] is
    [gen_list]: the collecting callback cannot fail. *)
Lemma generate_loop_prefix_op (T : Type) (v : list T) (cmp : T -> T -> bool)
    (l0 l1 : nat) :
  forall n f0 f1 done pending s,
    generate_loop v cmp l0 l1 prefix_op n f0 f1 (done ++ pending)
      (length done) s
    = (out <- gen_list v cmp l0 l1 n f0 f1 pending ;; Ret (s ++ out)).
Proof.
  induction n as [|n IH]; intros f0 f1 done pending s; simpl.
  - now rewrite app_nil_r.
  - destruct pending as [|cur rest].
    + rewrite app_nil_r, deref_out by lia. reflexivity.
    + replace (deref (done ++ cur :: rest) (length done)) with (Ret cur).
      2:{ symmetry. apply deref_Ret. rewrite nth_error_app2 by lia.
          now rewrite Nat.sub_diag. }
      simpl. destruct (l1 <=? fst cur).
      * change (prefix_op cur s) with (Ret (s ++ [cur])). cbn [bind].
        specialize (IH f0 f1 (done ++ [cur]) rest (s ++ [cur])).
        rewrite <- app_assoc, length_app in IH. simpl in IH.
        rewrite Nat.add_1_r in IH. rewrite IH.
        destruct (gen_list v cmp l0 l1 n f0 f1 rest); simpl; try reflexivity.
        now rewrite <- app_assoc.
      * destruct (next_node v cmp f0 l0 f1 l1) as [[[x f0'] f1']| | |];
          simpl; try reflexivity.
        destruct (next_node v cmp f0' l0 f1' l1) as [[[y f0''] f1'']| | |];
          simpl; try reflexivity.
        specialize (IH f0'' f1'' (done ++ [cur])
                      (rest ++ [(x, snd cur ++ [c1]); (y, snd cur ++ [c0])])
                      s).
        rewrite length_app in IH. simpl in IH. rewrite Nat.add_1_r in IH.
        rewrite <- IH. f_equal. rewrite <- !app_assoc. reflexivity.
Qed.

Lemma generate_codes_prefix_op (T : Type) (v : list T) (cmp : T -> T -> bool)
    (l0 l1 f0 f1 : nat) (out : list (nat * str)) :
  generate_codes v cmp l0 l1 prefix_op f0 f1 [] = Ret out ->
  gen_list v cmp l0 l1 (l0 - f1) f0 (S f1) [(f1, [])] = Ret out.
Proof.
  unfold generate_codes.
  pose proof (generate_loop_prefix_op v cmp l0 l1 (l0 - f1) f0 (S f1) []
                [(f1, [])] []) as E.
  cbn [app length] in E. rewrite E.
  destruct (gen_list v cmp l0 l1 (l0 - f1) f0 (S f1) [(f1, [])]);
    simpl; intros H; try discriminate. exact H.
Qed.

(** * Prefix-freedom of the generated codes *)

Lemma is_prefix_refl (a : str) : is_prefix a a.
Proof. exists []. now rewrite app_nil_r. Qed.

Lemma is_prefix_trans (a b c : str) :
  is_prefix a b -> is_prefix b c -> is_prefix a c.
Proof.
  intros [t ->] [u ->]. exists (t ++ u). now rewrite app_assoc.
Qed.

Lemma is_prefix_app (a t : str) : is_prefix a (a ++ t).
Proof. now exists t. Qed.

Lemma is_prefix_length (a b : str) : is_prefix a b -> length a <= length b.
Proof. intros [t ->]. rewrite length_app. lia. Qed.

Lemma is_prefix_firstn (a b : str) :
  is_prefix a b <-> firstn (length a) b = a.
Proof.
  split.
  - intros [t ->]. rewrite firstn_app, Nat.sub_diag, firstn_all. simpl.
    now rewrite app_nil_r.
  - intros H. exists (skipn (length a) b). rewrite <- H at 1.
    symmetry. apply firstn_skipn.
Qed.

(** Two prefixes of one string are comparable. *)
Lemma is_prefix_comparable (a b o : str) :
  is_prefix a o -> is_prefix b o -> is_prefix a b \/ is_prefix b a.
Proof.
  intros Ha Hb. apply is_prefix_firstn in Ha, Hb.
  destruct (Nat.le_ge_cases (length a) (length b)) as [H|H].
  - left. apply is_prefix_firstn. rewrite <- Hb, firstn_firstn.
    now rewrite Nat.min_l by lia.
  - right. apply is_prefix_firstn. rewrite <- Ha, firstn_firstn.
    now rewrite Nat.min_l by lia.
Qed.

Lemma is_prefix_snoc (q a : str) (c : ascii) :
  is_prefix q (a ++ [c]) -> q = a ++ [c] \/ is_prefix q a.
Proof.
  intros [t E]. destruct t as [|x t].
  - rewrite app_nil_r in E. auto.
  - destruct (@exists_last _ (x :: t)) as (t' & d & Et); [discriminate|].
    rewrite Et, app_assoc in E. apply app_inj_tail in E.
    destruct E as [-> _]. right. apply is_prefix_app.
Qed.

Lemma incomparable_sym (a b : str) : incomparable a b -> incomparable b a.
Proof. unfold incomparable. tauto. Qed.

Lemma prefix_free_snoc (l : list str) (a : str) :
  prefix_free l -> Forall (fun x => incomparable x a) l ->
  prefix_free (l ++ [a]).
Proof.
  unfold prefix_free. induction 1 as [|x l Hx Hl IH]; intros Ha; simpl.
  - repeat constructor.
  - inversion Ha as [|? ? Hxa Ha']; subst. constructor; [|auto].
    apply Forall_app. split; [assumption|]. constructor; [exact Hxa|constructor].
Qed.

Lemma children_incomparable (a : str) : incomparable (a ++ [c1]) (a ++ [c0]).
Proof.
  split; intros H; apply is_prefix_firstn in H;
    rewrite !length_app, firstn_all2 in H by (rewrite length_app; simpl; lia);
    apply app_inv_head in H; discriminate.
Qed.

Lemma child_incomparable (a q : str) (c : ascii) :
  incomparable a q -> incomparable q (a ++ [c]).
Proof.
  intros [H1 H2]. split; intros H.
  - apply is_prefix_snoc in H. destruct H as [->|H]; [|auto].
    apply H1, is_prefix_app.
  - apply H1. eapply is_prefix_trans; [apply is_prefix_app|exact H].
Qed.

Lemma extension_incomparable (a q o : str) :
  incomparable a q -> is_prefix q o -> incomparable a o.
Proof.
  intros [H1 H2] Hq. split; intros H.
  - destruct (is_prefix_comparable H Hq); auto.
  - apply H2. eapply is_prefix_trans; eassumption.
Qed.

Section GenPrefixFree.
Variable T : Type.
Variable v : list T.
Variable cmp : T -> T -> bool.
Variables l0 l1 : nat.

(** Emitted codes extend queued codes, and stay pairwise incomparable. *)
Lemma gen_list_prefix_free :
  forall n f0 f1 pending out,
    prefix_free (map snd pending) ->
    gen_list v cmp l0 l1 n f0 f1 pending = Ret out ->
    prefix_free (map snd out) /\
    Forall (fun o => Exists (fun q => is_prefix (snd q) (snd o)) pending) out.
Proof.
  induction n as [|n IH]; intros f0 f1 pending out Hp H; simpl in H.
  - injection H as <-. split; constructor.
  - destruct pending as [|cur rest]; [discriminate|].
    simpl in Hp. inversion Hp as [|? ? Hcur Hrest]; subst.
    destruct (l1 <=? fst cur).
    + inv_bind H. injection Hb as <-.
      destruct (IH _ _ _ _ Hrest Ha) as [Hpf Hext]. split.
      * simpl. constructor; [|assumption].
        rewrite Forall_forall in *. intros o Ho.
        apply in_map_iff in Ho. destruct Ho as (e & <- & He).
        specialize (Hext e He). apply Exists_exists in Hext.
        destruct Hext as (q & Hq & Hqo).
        apply extension_incomparable with (q := snd q); [|assumption].
        apply Hcur. now apply in_map.
      * constructor.
        -- constructor. apply is_prefix_refl.
        -- eapply Forall_impl; [|exact Hext]. simpl. intros o Ho.
           now constructor 2.
    + inv_bind H. destruct r as [[x f0'] f1'].
      inv_bind Hb. destruct r as [[y f0''] f1''].
      assert (Hp' : prefix_free
                (map snd (rest ++ [(x, snd cur ++ [c1]); (y, snd cur ++ [c0])]))).
      { rewrite map_app. simpl.
        change [snd cur ++ [c1]; snd cur ++ [c0]]
          with ([snd cur ++ [c1]] ++ [snd cur ++ [c0]]).
        rewrite app_assoc. apply prefix_free_snoc.
        - apply prefix_free_snoc; [assumption|].
          eapply Forall_impl; [|exact Hcur]. simpl.
          intros q Hq. now apply child_incomparable.
        - apply Forall_app. split.
          + eapply Forall_impl; [|exact Hcur]. simpl.
            intros q Hq. now apply child_incomparable.
          + constructor; [apply children_incomparable|constructor]. }
      destruct (IH _ _ _ _ Hp' Hbb) as [Hpf Hext]. split; [assumption|].
      eapply Forall_impl; [|exact Hext]. simpl. intros o Ho.
      apply Exists_exists in Ho. destruct Ho as (q & Hq & Hqo).
      apply in_app_or in Hq. destruct Hq as [Hq|Hq].
      * constructor 2. apply Exists_exists. eauto.
      * constructor 1. simpl in Hq.
        destruct Hq as [<-|[<-|[]]]; simpl in Hqo;
          (eapply is_prefix_trans; [apply is_prefix_app|exact Hqo]).
Qed.
End GenPrefixFree.

(** * [generate_codes] on a well-formed array: every leaf gets a code *)

Lemma seq_cons_inv (a n x : nat) (l : list nat) :
  seq a n = x :: l -> x = a /\ l = seq (S a) (n - 1) /\ 1 <= n.
Proof.
  destruct n as [|n]; simpl; [discriminate|].
  intros H. injection H as <- <-. rewrite Nat.sub_0_r. repeat split. lia.
Qed.

Lemma seq_nil_inv (a n : nat) : seq a n = [] -> n = 0.
Proof. destruct n; simpl; [reflexivity|discriminate]. Qed.

Lemma seq_snoc (a n b : nat) : b = a + n -> seq a n ++ [b] = seq a (S n).
Proof. intros ->. symmetry. apply seq_S. Qed.

Section GenShape.
Variable T : Type.
Variable v : list T.
Variable cmp : T -> T -> bool.
Variable m : nat.
Variable c : nat -> nat -> bool.
Hypothesis Hcmp : compares v cmp m c.
Hypothesis Hmono : internal_monotone m c.
Hypothesis Hahead : internal_ahead m c.
Variable N : nat.
Hypothesis HN : N = 2 * m + 1.

(** One call of [next_node] inside [generate_codes]. *)
Lemma queue_inv_pick I L f0 f1 pending code :
  queue_inv m c I L f0 f1 pending ->
  (f1 - 1) + (f0 - m) < 2 * m ->
  exists x f0' f1',
    next_node v cmp f0 N f1 m = Ret (x, f0', f1') /\
    queue_inv m c I L f0' f1' (pending ++ [(x, code)]) /\
    (f1' - 1) + (f0' - m) = S ((f1 - 1) + (f0 - m)).
Proof.
  intros (Hi & Hl & HI & Hf1 & HL & Hf0 & H1 & Hx) Hp.
  assert (Hleaf : forall f1', f1' = f1 -> f0 < 2 * m + 1 ->
            (forall q, f1 <= q -> q < m -> c q f0 = false) ->
            queue_inv m c I L (S f0) f1' (pending ++ [(f0, code)]) /\
            (f1' - 1) + (S f0 - m) = S ((f1 - 1) + (f0 - m))).
  { intros f1' -> Hlt Hq. split; [|lia].
    unfold queue_inv. rewrite map_app, !filter_app. cbn [map filter fst app].
    replace (f0 <? m) with false by (symmetry; apply Nat.ltb_ge; lia).
    replace (m <=? f0) with true by (symmetry; apply Nat.leb_le; lia).
    rewrite app_nil_r, Hi, Hl.
    split; [reflexivity|].
    split; [rewrite seq_snoc by lia; f_equal; lia|].
    repeat split; try lia.
    intros p q Hp1 Hp2 Hq1 Hq2.
    destruct (Nat.eq_dec p f0) as [->|Hne]; [auto|].
    apply Hx; lia. }
  assert (Hint : forall f0', f0' = f0 -> f1 < m ->
            queue_inv m c I L f0' (S f1) (pending ++ [(f1, code)]) /\
            (S f1 - 1) + (f0' - m) = S ((f1 - 1) + (f0 - m))).
  { intros f0' -> Hlt. split; [|lia].
    unfold queue_inv. rewrite map_app, !filter_app. cbn [map filter fst app].
    replace (f1 <? m) with true by (symmetry; apply Nat.ltb_lt; lia).
    replace (m <=? f1) with false by (symmetry; apply Nat.leb_gt; lia).
    rewrite app_nil_r, Hi, Hl.
    split; [rewrite seq_snoc by lia; f_equal; lia|].
    split; [reflexivity|].
    repeat split; try lia.
    intros p q Hp1 Hp2 Hq1 Hq2. apply Hx; lia. }
  unfold next_node.
  destruct (f1 =? m) eqn:E1.
  - apply Nat.eqb_eq in E1. exists f0, (S f0), f1. split; [reflexivity|].
    apply Hleaf; [reflexivity|lia|intros; lia].
  - apply Nat.eqb_neq in E1.
    destruct (f0 =? N) eqn:E0.
    + apply Nat.eqb_eq in E0.
      exists f1, f0, (S f1). split; [reflexivity|]. apply Hint; [reflexivity|lia].
    + apply Nat.eqb_neq in E0.
      destruct (Hcmp (q := f1) (p := f0)) as (a1 & a0 & Ea1 & Ea0 & Ec);
        try lia.
      apply deref_Ret in Ea1, Ea0. rewrite Ea1, Ea0. simpl. rewrite Ec.
      destruct (c f1 f0) eqn:Ecc.
      * exists f1, f0, (S f1). split; [reflexivity|].
        apply Hint; [reflexivity|lia].
      * exists f0, (S f0), f1. split; [reflexivity|].
        apply Hleaf; [reflexivity|lia|].
        intros q Hq1 Hq2. destruct (c q f0) eqn:Eq; [|reflexivity].
        rewrite <- Ecc. symmetry.
        apply (Hmono (q := f1) (q' := q) (p := f0)); try lia. exact Eq.
Qed.

(** From any state that satisfies the invariant the loop runs to its end
    and emits the remaining leaves in the order of their offsets. *)
Lemma gen_list_leaves_from :
  forall n I L f0 f1 pending,
    queue_inv m c I L f0 f1 pending ->
    (f1 - 1) + (f0 - m) = 2 * I ->
    I + L + n = 2 * m + 1 ->
    exists out,
      gen_list v cmp N m n f0 f1 pending = Ret out /\
      map fst out = seq (m + L) (m + 1 - L).
Proof.
  induction n as [|n IH]; intros I L f0 f1 pending Hq Hp Hn; simpl.
  - exists []. split; [reflexivity|].
    destruct Hq as (_ & _ & HI & Hf1 & _).
    replace (m + 1 - L) with 0 by lia. reflexivity.
  - destruct pending as [|cur rest].
    + exfalso.
      destruct Hq as (Hi & Hl & HI & Hf1 & HL & Hf0 & H1 & Hx). simpl in *.
      symmetry in Hi, Hl. apply seq_nil_inv in Hi, Hl.
      assert (Ef1 : f1 = I) by lia. assert (Ef0 : f0 = m + L) by lia.
      assert (EL : L = S I) by lia. assert (HIm : I < m) by lia.
      specialize (Hx (m + I) I). rewrite Hahead in Hx by lia.
      assert (true = false) by (apply Hx; lia). discriminate.
    + destruct (Nat.leb_spec m (fst cur)) as [Hleaf|Hint].
      * (* a leaf: emitted *)
        destruct Hq as (Hi & Hl & HI & Hf1 & HL & Hf0 & H1 & Hx).
        simpl in Hi, Hl.
        replace (fst cur <? m) with false in Hi
          by (symmetry; apply Nat.ltb_ge; lia).
        replace (m <=? fst cur) with true in Hl
          by (symmetry; apply Nat.leb_le; lia).
        symmetry in Hl. apply seq_cons_inv in Hl.
        destruct Hl as (Ecur & Hl & Hpos).
        destruct (IH I (S L) f0 f1 rest) as (out & Hout & Hfst); try lia.
        { unfold queue_inv. rewrite Hi, Hl.
          repeat split; try lia; [|exact Hx]. f_equal; lia. }
        exists (cur :: out). rewrite Hout. simpl. split; [reflexivity|].
        rewrite Hfst, Ecur.
        replace (m + 1 - L) with (S (m + 1 - S L)) by lia. simpl.
        f_equal. f_equal. lia.
      * (* an internal node: its two children are queued *)
        destruct Hq as (Hi & Hl & HI & Hf1 & HL & Hf0 & H1 & Hx).
        simpl in Hi, Hl.
        replace (fst cur <? m) with true in Hi
          by (symmetry; apply Nat.ltb_lt; lia).
        replace (m <=? fst cur) with false in Hl
          by (symmetry; apply Nat.leb_gt; lia).
        symmetry in Hi. apply seq_cons_inv in Hi.
        destruct Hi as (Ecur & Hi & Hpos).
        assert (Hrest : queue_inv m c (S I) L f0 f1 rest).
        { unfold queue_inv. rewrite Hi, Hl.
          repeat split; try lia; [|exact Hx]. f_equal; lia. }
        destruct (queue_inv_pick (snd cur ++ [c1]) Hrest)
          as (x & f0' & f1' & Ex & Hq' & Hp'); [lia|].
        destruct (queue_inv_pick (snd cur ++ [c0]) Hq')
          as (y & f0'' & f1'' & Ey & Hq'' & Hp''); [lia|].
        rewrite Ex. simpl. rewrite Ey. simpl.
        rewrite <- app_assoc in Hq''. simpl in Hq''.
        destruct (IH (S I) L f0'' f1'' _ Hq'') as (out & Hout & Hfst);
          try lia.
        exists out. auto.
Qed.

(** The run started by [generate_codes]: [2m + 1] entries, the root at
    offset 0 queued with the empty code. *)
Lemma gen_list_leaves :
  1 <= m ->
  exists out,
    gen_list v cmp N m (N - 0) m 1 [(0, [])] = Ret out /\
    map fst out = seq m (m + 1).
Proof.
  intros Hm.
  assert (Hq : queue_inv m c 0 0 m 1 [(0, [])]).
  { unfold queue_inv. cbn [map filter fst].
    replace (0 <? m) with true by (symmetry; apply Nat.ltb_lt; lia).
    replace (m <=? 0) with false by (symmetry; apply Nat.leb_gt; lia).
    replace (m - (m + 0)) with 0 by lia.
    split; [reflexivity|]. split; [reflexivity|].
    repeat split; try lia. }
  destruct (@gen_list_leaves_from N 0 0 m 1 [(0, [])] Hq)
    as (out & Hout & Hfst); try lia.
  exists out. rewrite Nat.sub_0_r, Nat.add_0_r in *. auto.
Qed.
End GenShape.

(** * [generate_codes] depends on the array through the comparisons only *)

Section GenExt.
Variables T T' : Type.
Variable v : list T.
Variable cmp : T -> T -> bool.
Variable v' : list T'.
Variable cmp' : T' -> T' -> bool.
Variable m : nat.
Variable c : nat -> nat -> bool.
Variable N : nat.
Hypothesis HN : N = 2 * m + 1.

Lemma next_node_pick (U : Type) (u : list U) (cu : U -> U -> bool) f0 f1 :
  compares u cu m c -> cursors_ok m N f0 f1 ->
  next_node u cu f0 N f1 m = Ret (pick c m N f0 f1).
Proof.
  intros Hc (H1 & H0 & H01). unfold next_node, pick.
  destruct (f1 =? m) eqn:E1; [reflexivity|]. apply Nat.eqb_neq in E1.
  destruct (f0 =? N) eqn:E0; [reflexivity|]. apply Nat.eqb_neq in E0.
  destruct (Hc f1 f0) as (a1 & a0 & Ea1 & Ea0 & Ec); try lia.
  apply deref_Ret in Ea1, Ea0. rewrite Ea1, Ea0. simpl. rewrite Ec.
  destruct (c f1 f0); reflexivity.
Qed.

Lemma pick_cursors_ok f0 f1 x f0' f1' :
  cursors_ok m N f0 f1 -> pick c m N f0 f1 = (x, f0', f1') ->
  cursors_ok m N f0' f1'.
Proof.
  unfold cursors_ok, pick. intros (H1 & H0 & H01).
  destruct (f1 =? m) eqn:E1.
  - apply Nat.eqb_eq in E1. intros H. injection H as <- <- <-. lia.
  - apply Nat.eqb_neq in E1. destruct (f0 =? N) eqn:E0.
    + apply Nat.eqb_eq in E0. intros H. injection H as <- <- <-. lia.
    + apply Nat.eqb_neq in E0.
      destruct (c f1 f0); intros H; injection H as <- <- <-; lia.
Qed.

Hypothesis Hc : compares v cmp m c.
Hypothesis Hc' : compares v' cmp' m c.

Lemma gen_list_ext :
  forall n f0 f1 pending,
    cursors_ok m N f0 f1 ->
    gen_list v cmp N m n f0 f1 pending = gen_list v' cmp' N m n f0 f1 pending.
Proof.
  induction n as [|n IH]; intros f0 f1 pending Hok; simpl; [reflexivity|].
  destruct pending as [|cur rest]; [reflexivity|].
  destruct (m <=? fst cur).
  - rewrite (IH _ _ _ Hok). reflexivity.
  - rewrite (next_node_pick Hc Hok), (next_node_pick Hc' Hok). simpl.
    destruct (pick c m N f0 f1) as [[x f0'] f1'] eqn:E.
    pose proof (pick_cursors_ok Hok E) as Hok'.
    rewrite (next_node_pick Hc Hok'), (next_node_pick Hc' Hok'). simpl.
    destruct (pick c m N f0' f1') as [[y f0''] f1''] eqn:E'.
    pose proof (pick_cursors_ok Hok' E') as Hok''.
    apply IH. exact Hok''.
Qed.
End GenExt.

(** * [build_huffman_array] *)

Lemma StronglySorted_nth (A : Type) (R : A -> A -> Prop) (l : list A) (d : A) :
  StronglySorted R l ->
  forall i j, i < j -> j < length l -> R (nth i l d) (nth j l d).
Proof.
  induction 1 as [|a l Hs IH Ha]; intros i j Hij Hj; simpl in *; [lia|].
  destruct j as [|j]; [lia|]. destruct i as [|i].
  - rewrite Forall_forall in Ha. apply Ha. apply nth_In. lia.
  - apply IH; lia.
Qed.

Lemma weight_app_l (nodes : list node) (x : node) (i : nat) :
  i < length nodes -> weight (nodes ++ [x]) i = weight nodes i.
Proof. intros H. unfold weight. now rewrite app_nth1. Qed.

Lemma weight_app_r (nodes : list node) (x : node) :
  weight (nodes ++ [x]) (length nodes) = fst x.
Proof. unfold weight. now rewrite nth_middle. Qed.

Lemma weight_firstn (nodes : list node) (k i : nat) :
  i < k -> weight (firstn k nodes) i = weight nodes i.
Proof. intros H. unfold weight. now rewrite nth_firstn, (proj2 (Nat.ltb_lt _ _) H). Qed.

Lemma In_live (nodes : list node) (consumed : list nat) (z : nat) :
  In z (live nodes consumed) <-> z < length nodes /\ ~ In z consumed.
Proof.
  unfold live. rewrite filter_In, in_seq, negb_true_iff.
  assert (H : existsb (Nat.eqb z) consumed = false <-> ~ In z consumed).
  { rewrite <- not_true_iff_false, existsb_exists. split.
    - intros H Hin. apply H. exists z. split; [assumption|apply Nat.eqb_refl].
    - intros H (y & Hy & E). apply Nat.eqb_eq in E. now subst. }
  rewrite H. split; intros [H1 H2]; split; auto; lia.
Qed.

(** One call of [next_node] during construction picks a smallest of the
    nodes not yet consumed. *)
Lemma next_node_min (nodes : list node) (k f0 f1 : nat) :
  f0 <= k -> k <= f1 -> f1 <= length nodes -> k <= length nodes ->
  f0 < k \/ f1 < length nodes ->
  (forall p p', f0 <= p -> p <= p' -> p' < k ->
     (weight nodes p <= weight nodes p')%Z) ->
  (forall q q', f1 <= q -> q <= q' -> q' < length nodes ->
     (weight nodes q <= weight nodes q')%Z) ->
  exists x f0' f1',
    next_node nodes compare_first f0 k f1 (length nodes) = Ret (x, f0', f1') /\
    ((x = f0 /\ f0' = S f0 /\ f1' = f1 /\ f0 < k) \/
     (x = f1 /\ f0' = f0 /\ f1' = S f1 /\ f1 < length nodes)) /\
    (forall z, (f0 <= z /\ z < k) \/ (f1 <= z /\ z < length nodes) ->
       (weight nodes x <= weight nodes z)%Z).
Proof.
  intros H0 Hk1 H1 Hk Hne Hl Hq.
  destruct (Nat.eq_dec f1 (length nodes)) as [E1|E1].
  - exists f0, (S f0), f1. unfold next_node.
    rewrite (proj2 (Nat.eqb_eq _ _) E1).
    split; [reflexivity|]. split; [left; lia|].
    intros z [Hz|Hz]; [|lia]. apply Hl; lia.
  - destruct (Nat.eq_dec f0 k) as [E0|E0].
    + exists f1, f0, (S f1). unfold next_node.
      rewrite (proj2 (Nat.eqb_neq _ _) E1), (proj2 (Nat.eqb_eq _ _) E0).
      split; [reflexivity|]. split; [right; lia|].
      intros z [Hz|Hz]; [lia|]. apply Hq; lia.
    + rewrite (@next_node_both _ nodes compare_first f0 k f1 (length nodes)
                 (nth f0 nodes node_default) (nth f1 nodes node_default));
        try assumption; try (apply nth_error_nth'; lia).
      unfold compare_first. fold (weight nodes f1). fold (weight nodes f0).
      destruct (Z.ltb_spec (weight nodes f1) (weight nodes f0)) as [Hlt|Hge].
      * exists f1, f0, (S f1). split; [reflexivity|]. split; [right; lia|].
        intros z [Hz|Hz].
        -- specialize (Hl f0 z). lia.
        -- apply Hq; lia.
      * exists f0, (S f0), f1. split; [reflexivity|]. split; [left; lia|].
        intros z [Hz|Hz].
        -- apply Hl; lia.
        -- specialize (Hq f1 z). lia.
Qed.

(** The two calls of one iteration pick the two smallest. *)
Lemma build_picks (nodes : list node) (k f0 f1 : nat) :
  f0 <= k -> k <= f1 -> f1 < length nodes ->
  f0 < k \/ f1 + 1 < length nodes ->
  (forall p p', f0 <= p -> p <= p' -> p' < k ->
     (weight nodes p <= weight nodes p')%Z) ->
  (forall q q', f1 <= q -> q <= q' -> q' < length nodes ->
     (weight nodes q <= weight nodes q')%Z) ->
  exists x y f0m f1m f0' f1',
    next_node nodes compare_first f0 k f1 (length nodes) = Ret (x, f0m, f1m) /\
    next_node nodes compare_first f0m k f1m (length nodes) = Ret (y, f0', f1') /\
    f0 <= f0' /\ f0' <= k /\ f1 <= f1' /\ f1' <= length nodes /\
    f0' + f1' = f0 + f1 + 2 /\
    x <> y /\
    (forall z, between k (length nodes) f0 f1 z <->
               between k (length nodes) f0' f1' z \/ z = x \/ z = y) /\
    (forall z, (z < f0' \/ (k <= z /\ z < f1')) <->
               (z < f0 \/ (k <= z /\ z < f1)) \/ z = x \/ z = y) /\
    ~ between k (length nodes) f0' f1' x /\
    ~ between k (length nodes) f0' f1' y /\
    (weight nodes x <= weight nodes y)%Z /\
    (forall z, between k (length nodes) f0' f1' z ->
       (weight nodes y <= weight nodes z)%Z).
Proof.
  intros H0 Hk1 H1 Hne Hl Hq.
  destruct (@next_node_min nodes k f0 f1) as (x & f0m & f1m & Ex & Hx & Hxmin);
    try assumption; try lia.
  assert (Hbm : f0m <= k /\ k <= f1m /\ f1m <= length nodes /\
                (f0m < k \/ f1m < length nodes) /\ f0 <= f0m /\ f1 <= f1m)
    by (destruct Hx as [(-> & -> & -> & ?)|(-> & -> & -> & ?)]; lia).
  destruct Hbm as (Hb1 & Hb2 & Hb3 & Hb4 & Hb5 & Hb6).
  destruct (@next_node_min nodes k f0m f1m) as (y & f0' & f1' & Ey & Hy & Hymin);
    try assumption; try lia.
  { intros p p' ? ? ?. apply Hl; lia. }
  { intros q q' ? ? ?. apply Hq; lia. }
  exists x, y, f0m, f1m, f0', f1'.
  split; [exact Ex|]. split; [exact Ey|].
  unfold between in *.
  destruct Hx as [(-> & -> & -> & Hx)|(-> & -> & -> & Hx)];
    destruct Hy as [(-> & -> & -> & Hy)|(-> & -> & -> & Hy)];
    (repeat split; try lia; try (intros; lia);
     try (apply Hxmin; lia); try (intros z Hz; apply Hymin; lia)).
Qed.

Section BuildInvariant.
Variable leaves : list node.
Hypothesis Hk : 2 <= length leaves.
Hypothesis Hsorted : StronglySorted (not_after compare_first) leaves.

Lemma leaves_weight_sorted (nodes : list node) (p p' : nat) :
  firstn (length leaves) nodes = leaves ->
  p <= p' -> p' < length leaves ->
  (weight nodes p <= weight nodes p')%Z.
Proof.
  intros Hf Hp Hp'.
  rewrite <- (@weight_firstn nodes (length leaves) p) by lia.
  rewrite <- (@weight_firstn nodes (length leaves) p') by lia.
  rewrite Hf.
  destruct (Nat.eq_dec p p') as [->|Hne]; [lia|].
  pose proof (@StronglySorted_nth _ _ leaves node_default Hsorted p p') as H.
  unfold not_after, compare_first in H. unfold weight.
  assert (Hlt : p < p') by lia. specialize (H Hlt Hp').
  apply Z.ltb_ge in H. exact H.
Qed.

Lemma build_inv_step (nodes : list node) (f0 f1 : nat) (consumed : list nat) :
  build_inv leaves nodes f0 f1 consumed ->
  length nodes <> 2 * length leaves - 1 ->
  exists x y f0m f1m f0' f1',
    next_node nodes compare_first f0 (length leaves) f1 (length nodes)
      = Ret (x, f0m, f1m) /\
    next_node nodes compare_first f0m (length leaves) f1m (length nodes)
      = Ret (y, f0', f1') /\
    x < length nodes /\ y < length nodes /\
    build_inv leaves
      (nodes ++ [merge_first_op (nth x nodes node_default)
                                (nth y nodes node_default)])
      f0' f1' (y :: x :: consumed) /\
    (build_inv_nonneg leaves nodes f0 f1 ->
     build_inv_nonneg leaves
       (nodes ++ [merge_first_op (nth x nodes node_default)
                                 (nth y nodes node_default)])
       f0' f1').
Proof.
  intros (Hfirst & H2 & H0k & Hk1 & H1len & Hcount & Hcons & Hma & Hq & Hcre)
         Hlen.
  set (k := length leaves) in *.
  destruct (@build_picks nodes k f0 f1)
    as (x & y & f0m & f1m & f0' & f1' & Ex & Ey & Hb1 & Hb2 & Hb3 & Hb4 &
        Hsum & Hxy & Hbetw & Hpassed & Hnx & Hny & Hwxy & Hymin);
    try assumption; try lia.
  { intros p p' ? ? ?. apply leaves_weight_sorted; assumption. }
  exists x, y, f0m, f1m, f0', f1'.
  split; [exact Ex|]. split; [exact Ey|].
  assert (Hbx : between k (length nodes) f0 f1 x) by (apply Hbetw; auto).
  assert (Hby : between k (length nodes) f0 f1 y) by (apply Hbetw; auto).
  assert (Hxlen : x < length nodes) by (unfold between in Hbx; lia).
  assert (Hylen : y < length nodes) by (unfold between in Hby; lia).
  split; [exact Hxlen|]. split; [exact Hylen|].
  set (new := merge_first_op (nth x nodes node_default)
                             (nth y nodes node_default)).
  assert (Hw : forall i, i < length nodes ->
                 weight (nodes ++ [new]) i = weight nodes i)
    by (intros; now apply weight_app_l).
  assert (Hwn : weight (nodes ++ [new]) (length nodes)
                = (weight nodes x + weight nodes y)%Z)
    by (rewrite weight_app_r; reflexivity).
  (* the two children bound the creators of every node still queued *)
  assert (Hbound : forall q, f1' <= q -> q < length nodes ->
            (weight nodes q <= weight nodes x + weight nodes y)%Z).
  { intros q Hq1 Hq2.
    destruct (Hcre q) as (a & b & Eab & Hleaf & Hint); try lia.
    assert (Hax : (a <= weight nodes x)%Z).
    { unfold between in Hbx, Hnx. destruct Hbx as [Hbx|Hbx].
      - apply Hleaf; lia.
      - apply Hint; lia. }
    assert (Hby' : (b <= weight nodes y)%Z).
    { unfold between in Hby, Hny. destruct Hby as [Hby|Hby].
      - apply Hleaf; lia.
      - apply Hint; lia. }
    lia. }
  assert (Hqueue : forall q q', f1' <= q -> q <= q' -> q' < S (length nodes) ->
            (weight (nodes ++ [new]) q <= weight (nodes ++ [new]) q')%Z).
  { intros q q' Hq1 Hq2 Hq3.
    destruct (Nat.eq_dec q' (length nodes)) as [->|Hne].
    - rewrite Hwn. destruct (Nat.eq_dec q (length nodes)) as [->|Hne'].
      + rewrite Hwn. lia.
      + rewrite Hw by lia. apply Hbound; lia.
    - rewrite !Hw by lia. apply Hq; lia. }
  split.
  { unfold build_inv. fold k. rewrite length_app. simpl length.
    rewrite Nat.add_1_r.
    split.
    { rewrite firstn_app.
      replace (k - length nodes) with 0 by lia.
      simpl. rewrite app_nil_r. exact Hfirst. }
    split; [lia|]. split; [lia|]. split; [lia|]. split; [lia|].
    split; [lia|].
    split.
    { intros z. simpl. rewrite Hcons, Hpassed.
      clear. intuition congruence. }
    split.
    { apply merge_array_step; [exact Hma|].
      assert (Hlive : forall z, In z (live nodes consumed) <->
                        between k (length nodes) f0 f1 z).
      { intros z. rewrite In_live, Hcons. unfold between. lia. }
      unfold two_smallest. rewrite !Hlive.
      repeat split; try assumption.
      intros z Hz Hzx Hzy. apply Hymin. apply Hlive, Hbetw in Hz.
      destruct Hz as [Hz|[Hz|Hz]]; [assumption|contradiction|contradiction]. }
    split; [exact Hqueue|].
    intros q Hq1 Hq2.
    destruct (Nat.eq_dec q (length nodes)) as [->|Hne].
    - exists (weight nodes x), (weight nodes y). split; [exact Hwn|].
      split.
      + intros p Hp1 Hp2. rewrite Hw by lia.
        assert (Hz : (weight nodes y <= weight nodes p)%Z)
          by (apply Hymin; unfold between; lia).
        lia.
      + intros q' Hq'1 Hq'2. rewrite Hw by lia.
        assert (Hz : (weight nodes y <= weight nodes q')%Z)
          by (apply Hymin; unfold between; lia).
        lia.
    - destruct (Hcre q) as (a & b & Eab & Hleaf & Hint); try lia.
      exists a, b. rewrite Hw by lia. split; [exact Eab|]. split.
      + intros p Hp1 Hp2. rewrite Hw by lia. apply Hleaf; lia.
      + intros q' Hq'1 Hq'2. rewrite Hw by lia. apply Hint; lia. }
  (* no negative weight *)
  intros (Hpos & Hint & Hahead & Hpast).
  fold k in Hint, Hahead.
  assert (Hpx : (0 <= weight nodes x)%Z) by (apply Hpos; lia).
  assert (Hpy : (0 <= weight nodes y)%Z) by (apply Hpos; lia).
  assert (Hpast' : forall p q, p < f0' -> f1' <= q -> q < S (length nodes) ->
            (weight (nodes ++ [new]) p <= weight (nodes ++ [new]) q)%Z).
  { intros p q Hp Hq1 Hq2. rewrite (Hw p) by lia.
    assert (Hp' : p < f0 \/ p = x \/ p = y).
    { destruct (proj1 (Hpassed p)) as [[?|?]|?]; [lia|lia|lia|tauto]. }
    destruct (Nat.eq_dec q (length nodes)) as [->|Hne].
    - rewrite Hwn. destruct Hp' as [Hp'|[->| ->]]; [|lia|lia].
      assert (Hpx' : (weight nodes p <= weight nodes x)%Z).
      { unfold between in Hbx. destruct Hbx as [Hbx|Hbx].
        - apply leaves_weight_sorted; [assumption|lia|lia].
        - apply Hpast; lia. }
      lia.
    - rewrite Hw by lia. destruct Hp' as [Hp'|Hp'].
      + apply Hpast; lia.
      + assert (Hyq : (weight nodes y <= weight nodes q)%Z)
          by (apply Hymin; unfold between; lia).
        destruct Hp' as [-> | ->]; lia. }
  unfold build_inv_nonneg. fold k. rewrite length_app. simpl length.
  rewrite Nat.add_1_r.
  split.
  { intros i Hi. destruct (Nat.eq_dec i (length nodes)) as [->|Hne].
    - rewrite Hwn. lia.
    - rewrite Hw by lia. apply Hpos. lia. }
  split.
  { intros q q' Hq1 Hq2 Hq3.
    destruct (Nat.eq_dec q' (length nodes)) as [->|Hne].
    - destruct (Nat.eq_dec q (length nodes)) as [->|Hne']; [lia|].
      rewrite Hwn, Hw by lia.
      assert (Hlast : (weight nodes q <= weight nodes (length nodes - 1))%Z)
        by (apply Hint; lia).
      assert (Hl : between k (length nodes) f0 f1 (length nodes - 1))
        by (unfold between; lia).
      apply Hbetw in Hl. destruct Hl as [Hl|[Hl|Hl]].
      + assert (Hb : (weight nodes (length nodes - 1)
                      <= weight nodes x + weight nodes y)%Z).
        { apply Hbound; unfold between in Hl; lia. }
        lia.
      + rewrite Hl in Hlast. lia.
      + rewrite Hl in Hlast. lia.
    - rewrite !Hw by lia. apply Hint; lia. }
  split; [|exact Hpast'].
  intros j Hj.
  destruct (Nat.eq_dec (k + j) (length nodes)) as [E|Hne].
  - rewrite E. apply Hpast'; lia.
  - rewrite !Hw by lia. apply Hahead. lia.
Qed.

Lemma build_loop_eq (T : Type) (cmp : T -> T -> bool) (op : T -> T -> T)
    (fuel l0 l1 : nat) (nodes : list T) (f0 f1 : nat) :
  build_loop cmp op fuel l0 l1 nodes f0 f1 =
  if length nodes =? l1 then Ret nodes
  else
    match fuel with
    | O => OutOfFuel
    | S fuel' =>
        ' (x, f0, f1) <- next_node nodes cmp f0 l0 f1 (length nodes) ;;
        ' (y, f0, f1) <- next_node nodes cmp f0 l0 f1 (length nodes) ;;
        vx <- deref nodes x ;;
        vy <- deref nodes y ;;
        build_loop cmp op fuel' l0 l1 (nodes ++ [op vx vy]) f0 f1
    end.
Proof. destruct fuel; reflexivity. Qed.

Lemma build_loop_returns :
  forall d nodes f0 f1 consumed,
    build_inv leaves nodes f0 f1 consumed ->
    2 * length leaves - 1 - length nodes = d ->
    exists nodes' f0' f1' consumed',
      (forall fuel, d <= fuel ->
         build_loop compare_first merge_first_op fuel (length leaves)
           (2 * length leaves - 1) nodes f0 f1 = Ret nodes') /\
      length nodes' = 2 * length leaves - 1 /\
      build_inv leaves nodes' f0' f1' consumed' /\
      (build_inv_nonneg leaves nodes f0 f1 ->
       build_inv_nonneg leaves nodes' f0' f1').
Proof.
  induction d as [|d IH]; intros nodes f0 f1 consumed Hinv Hd.
  - assert (E : length nodes = 2 * length leaves - 1).
    { destruct Hinv as (_ & ? & ? & ? & ? & ? & _). lia. }
    exists nodes, f0, f1, consumed.
    split; [|split; [exact E|split; [exact Hinv|tauto]]].
    intros fuel _. rewrite build_loop_eq.
    now rewrite (proj2 (Nat.eqb_eq _ _) E).
  - assert (E : length nodes <> 2 * length leaves - 1) by lia.
    destruct (build_inv_step Hinv E)
      as (x & y & f0m & f1m & f0' & f1' & Ex & Ey & Hx & Hy & Hinv' & Hnn).
    destruct (IH _ _ _ _ Hinv')
      as (nodes' & f0'' & f1'' & consumed' & Eloop & Hlen & Hinv'' & Hnn').
    { rewrite length_app. simpl. lia. }
    exists nodes', f0'', f1'', consumed'.
    split; [|split; [exact Hlen|split; [exact Hinv''|tauto]]].
    intros [|fuel] Hfuel; [lia|].
    rewrite build_loop_eq, (proj2 (Nat.eqb_neq _ _) E).
    rewrite Ex. simpl. rewrite Ey. simpl.
    rewrite (deref_nth _ node_default Hx), (deref_nth _ node_default Hy).
    simpl. apply Eloop. lia.
Qed.

(** The state in which [build_huffman_array] enters its loop. *)
Lemma build_inv_init :
  build_inv leaves
    (leaves ++ [merge_first_op (nth 0 leaves node_default)
                               (nth 1 leaves node_default)])
    2 (length leaves) [1; 0].
Proof.
  set (new := merge_first_op _ _).
  assert (Hs : forall p p', p <= p' -> p' < length leaves ->
            (weight leaves p <= weight leaves p')%Z).
  { intros p p' Hp Hp'. apply leaves_weight_sorted; [|lia|lia].
    apply firstn_all. }
  assert (Hw : forall i, i < length leaves ->
            weight (leaves ++ [new]) i = weight leaves i)
    by (intros; now apply weight_app_l).
  assert (Hwn : weight (leaves ++ [new]) (length leaves)
                = (weight leaves 0 + weight leaves 1)%Z)
    by (rewrite weight_app_r; reflexivity).
  unfold build_inv. rewrite length_app. simpl length.
  split.
  { rewrite firstn_app, Nat.sub_diag, firstn_all. simpl.
    now rewrite app_nil_r. }
  split; [lia|]. split; [lia|]. split; [lia|]. split; [lia|].
  split; [lia|].
  split; [intros z; simpl; lia|].
  split.
  { apply merge_array_step; [constructor|].
    unfold two_smallest. rewrite !In_live. simpl.
    split; [split; [lia|tauto]|]. split; [split; [lia|tauto]|].
    split; [lia|]. split; [apply Hs; lia|].
    intros z Hz. rewrite In_live in Hz. destruct Hz as [Hz _].
    intros Hz0 Hz1. apply Hs; lia. }
  split.
  { intros q q' Hq1 Hq2 Hq3.
    assert (q = length leaves) by lia. assert (q' = length leaves) by lia.
    subst. lia. }
  intros q Hq1 Hq2. assert (q = length leaves) by lia. subst q.
  exists (weight leaves 0), (weight leaves 1). split; [exact Hwn|].
  split.
  - intros p Hp1 Hp2. rewrite Hw by lia. split; apply Hs; lia.
  - intros; lia.
Qed.

Lemma build_inv_nonneg_init :
  Forall (fun x => (0 <= fst x)%Z) leaves ->
  build_inv_nonneg leaves
    (leaves ++ [merge_first_op (nth 0 leaves node_default)
                               (nth 1 leaves node_default)])
    2 (length leaves).
Proof.
  intros Hpos. set (new := merge_first_op _ _).
  assert (Hp : forall i, i < length leaves -> (0 <= weight leaves i)%Z).
  { intros i Hi. rewrite Forall_forall in Hpos. apply Hpos.
    apply nth_In. exact Hi. }
  assert (Hs : forall p p', p <= p' -> p' < length leaves ->
            (weight leaves p <= weight leaves p')%Z).
  { intros p p' Hp1 Hp'. apply leaves_weight_sorted; [|lia|lia].
    apply firstn_all. }
  assert (Hw : forall i, i < length leaves ->
            weight (leaves ++ [new]) i = weight leaves i)
    by (intros; now apply weight_app_l).
  assert (Hwn : weight (leaves ++ [new]) (length leaves)
                = (weight leaves 0 + weight leaves 1)%Z)
    by (rewrite weight_app_r; reflexivity).
  pose proof (Hp 0) as Hp0. pose proof (Hp 1) as Hp1.
  unfold build_inv_nonneg. rewrite length_app. simpl length.
  split.
  { intros i Hi. destruct (Nat.eq_dec i (length leaves)) as [->|Hne].
    - rewrite Hwn. lia.
    - rewrite Hw by lia. apply Hp. lia. }
  split.
  { intros q q' Hq1 Hq2 Hq3.
    assert (q = length leaves) by lia. assert (q' = length leaves) by lia.
    subst. lia. }
  split.
  { intros j Hj. assert (j = 0) by lia. subst j.
    rewrite Nat.add_0_r, Hwn, Hw by lia. lia. }
  intros p q Hp2 Hq1 Hq2. assert (q = length leaves) by lia. subst q.
  rewrite Hwn, Hw by lia.
  assert (Hp01 : (weight leaves 0 <= weight leaves 1)%Z) by (apply Hs; lia).
  destruct p as [|[|p]]; lia.
Qed.

(** [build_huffman_array] returns, and its result satisfies the
    invariants with the cursors at their final places. *)
Lemma build_huffman_array_returns :
  (Z.of_nat (2 * length leaves - 1) <= vector_max_size)%Z ->
  exists nodes consumed,
    (forall fuel, length leaves <= fuel ->
       build_huffman_array compare_first merge_first_op fuel leaves
       = Ret nodes) /\
    length nodes = 2 * length leaves - 1 /\
    build_inv leaves nodes (length leaves) (2 * length leaves - 2) consumed /\
    (Forall (fun x => (0 <= fst x)%Z) leaves ->
     build_inv_nonneg leaves nodes (length leaves) (2 * length leaves - 2)).
Proof.
  intros Hmax.
  destruct (@build_loop_returns _ _ _ _ _ build_inv_init eq_refl)
    as (nodes & f0 & f1 & consumed & Eloop & Hlen & Hinv & Hnn).
  assert (Ef : f0 = length leaves /\ f1 = 2 * length leaves - 2).
  { destruct Hinv as (_ & ? & ? & ? & ? & ? & _). lia. }
  destruct Ef as [-> ->].
  exists nodes, consumed. split; [|split; [exact Hlen|split; [exact Hinv|]]].
  - intros fuel Hfuel. unfold build_huffman_array.
    assert (En : ((Z.of_nat (length leaves) * 2 - 1) mod size_t_range
                  = Z.of_nat (2 * length leaves - 1))%Z).
    { assert (Hv : vector_max_size = 576460752303423487%Z) by reflexivity.
      assert (Hr : size_t_range = 18446744073709551616%Z) by reflexivity.
      rewrite Hv in Hmax. rewrite Hr.
      rewrite Z.mod_small; lia. }
    rewrite En. rewrite (proj2 (Z.ltb_ge _ _) Hmax).
    rewrite (@deref_nth _ leaves 0 node_default) by lia.
    rewrite (@deref_nth _ leaves 1 node_default) by lia.
    simpl. rewrite Nat2Z.id. apply Eloop.
    rewrite length_app. simpl. lia.
  - intros Hpos. apply Hnn. now apply build_inv_nonneg_init.
Qed.
End BuildInvariant.

(** * The weight of the root *)

Lemma consumed_false (consumed : list nat) (z : nat) :
  existsb (Nat.eqb z) consumed = false <-> ~ In z consumed.
Proof.
  rewrite <- not_true_iff_false, existsb_exists. split.
  - intros H Hin. apply H. exists z. split; [assumption|apply Nat.eqb_refl].
  - intros H (y & Hy & E). apply Nat.eqb_eq in E. now subst.
Qed.

Lemma filter_none (A : Type) (P : A -> bool) (l : list A) :
  (forall z, In z l -> P z = false) -> filter P l = [].
Proof.
  induction l as [|a l IH]; intros H; simpl; [reflexivity|].
  rewrite (H a) by now left. apply IH. intros z Hz. apply H. now right.
Qed.

Lemma zsum_filter_remove (w : nat -> Z) (P : nat -> bool) (x : nat)
    (l : list nat) :
  NoDup l -> In x l -> P x = true ->
  zsum (map w (filter (fun z => negb (z =? x) && P z) l))
  = (zsum (map w (filter P l)) - w x)%Z.
Proof.
  induction 1 as [|a l Ha Hl IH]; intros Hin HP; [destruct Hin|].
  simpl. destruct (Nat.eqb_spec a x) as [->|Hne].
  - simpl. rewrite HP. simpl.
    assert (E : filter (fun z => negb (z =? x) && P z) l = filter P l).
    { apply filter_ext_in. intros z Hz.
      destruct (Nat.eqb_spec z x) as [->|]; [contradiction|]. reflexivity. }
    rewrite E. lia.
  - simpl. destruct Hin as [Hin|Hin]; [contradiction|].
    destruct (P a); simpl; rewrite IH by assumption; lia.
Qed.

Lemma zsum_app (l l' : list Z) : zsum (l ++ l') = (zsum l + zsum l')%Z.
Proof.
  induction l as [|a l IH]; simpl; [reflexivity|].
  unfold zsum in *. simpl. rewrite IH. lia.
Qed.

Lemma map_weight_seq (l : list node) :
  map (weight l) (seq 0 (length l)) = map fst l.
Proof.
  apply nth_ext with (d := 0%Z) (d' := 0%Z).
  - now rewrite !length_map, length_seq.
  - intros i Hi. rewrite length_map, length_seq in Hi.
    rewrite (nth_indep _ 0%Z (weight l 0)) by (now rewrite length_map, length_seq).
    rewrite map_nth, seq_nth by assumption. simpl.
    rewrite (nth_indep _ 0%Z (fst node_default)) by (now rewrite length_map).
    rewrite map_nth. reflexivity.
Qed.

Lemma merge_array_consumed_lt (leaves nodes : list node) (consumed : list nat) :
  merge_array leaves nodes consumed ->
  forall z, In z consumed -> z < length nodes.
Proof.
  induction 1 as [|nodes consumed x y Hma IH (Hx & Hy & _)];
    intros z Hz; [destruct Hz|].
  rewrite length_app. simpl.
  apply In_live in Hx, Hy.
  destruct Hz as [<-|[<-|Hz]]; [lia|lia|].
  specialize (IH z Hz). lia.
Qed.

(** The nodes not yet consumed always weigh as much as the leaves. *)
Lemma merge_array_live_weight (leaves nodes : list node)
    (consumed : list nat) :
  merge_array leaves nodes consumed ->
  zsum (map (weight nodes) (live nodes consumed)) = zsum (map fst leaves).
Proof.
  induction 1 as [|nodes consumed x y Hma IH (Hx & Hy & Hxy & _)].
  - unfold live. simpl.
    assert (Hall : forall (l : list nat), filter (fun _ => true) l = l).
    { induction l as [|a l IHl]; simpl; [reflexivity|now rewrite IHl]. }
    rewrite Hall. now rewrite map_weight_seq.
  - set (new := merge_first_op _ _).
    pose proof (merge_array_consumed_lt Hma) as Hlt.
    pose proof Hx as Hx'. pose proof Hy as Hy'.
    apply In_live in Hx', Hy'. destruct Hx' as [Hxl Hxc], Hy' as [Hyl Hyc].
    unfold live. rewrite length_app. simpl length.
    rewrite Nat.add_1_r, seq_S, filter_app. simpl.
    assert (Hnew : existsb (Nat.eqb (length nodes)) consumed = false).
    { apply consumed_false. intros Hin. apply Hlt in Hin. lia. }
    rewrite (proj2 (Nat.eqb_neq _ _)) by lia.
    rewrite (proj2 (Nat.eqb_neq _ _)) by lia.
    rewrite Hnew. simpl.
    rewrite map_app, (map_ext_in (weight (nodes ++ [new])) (weight nodes)).
    2:{ intros z Hz. apply filter_In in Hz. destruct Hz as [Hz _].
        apply in_seq in Hz. apply weight_app_l. lia. }
    simpl. rewrite weight_app_r.
    set (P := fun z => negb (existsb (Nat.eqb z) consumed)).
    rewrite (filter_ext _
               (fun z => negb (z =? y) && (negb (z =? x) && P z))).
    2:{ intros z. unfold P. now rewrite !negb_orb. }
    assert (Hnd : NoDup (seq 0 (length nodes))) by apply seq_NoDup.
    assert (Hinx : In x (seq 0 (length nodes))) by (apply in_seq; lia).
    assert (Hiny : In y (seq 0 (length nodes))) by (apply in_seq; lia).
    assert (HPx : P x = true)
      by (unfold P; apply negb_true_iff, consumed_false; assumption).
    assert (HPy : P y = true)
      by (unfold P; apply negb_true_iff, consumed_false; assumption).
    fold (live nodes consumed) in IH. unfold live in IH. fold P in IH.
    rewrite zsum_app.
    rewrite (@zsum_filter_remove (weight nodes)
               (fun z => negb (z =? x) && P z) y); try assumption.
    2:{ rewrite HPy. rewrite (proj2 (Nat.eqb_neq y x)) by auto. reflexivity. }
    rewrite (@zsum_filter_remove (weight nodes) P x); try assumption.
    rewrite IH. unfold new, merge_first_op, weight, zsum. simpl. lia.
Qed.

(** When everything but the last node is consumed, the last node weighs as
    much as all the leaves. *)
Lemma merge_array_root_weight (leaves nodes : list node)
    (consumed : list nat) (n : nat) :
  merge_array leaves nodes consumed ->
  length nodes = S n ->
  (forall z, In z consumed <-> z < n) ->
  weight nodes n = zsum (map fst leaves).
Proof.
  intros Hma Hlen Hcons.
  rewrite <- (merge_array_live_weight Hma).
  unfold live. rewrite Hlen, seq_S, filter_app. simpl.
  rewrite filter_none.
  - replace (existsb (Nat.eqb n) consumed) with false.
    + simpl. lia.
    + symmetry. apply consumed_false. rewrite Hcons. lia.
  - intros z Hz. apply in_seq in Hz. apply negb_false_iff.
    apply not_false_iff_true. rewrite consumed_false.
    intros H. apply H. apply Hcons. lia.
Qed.

(** * Weights within the range of [ptrdiff_t] *)

Lemma live_nil (nodes : list node) : live nodes [] = seq 0 (length nodes).
Proof.
  unfold live. cbn [existsb negb].
  induction (seq 0 (length nodes)) as [|a l IH]; [reflexivity|].
  cbn [filter]. now rewrite IH.
Qed.

Lemma live_NoDup (nodes : list node) (consumed : list nat) :
  NoDup (live nodes consumed).
Proof. unfold live. apply NoDup_filter, seq_NoDup. Qed.

(** The nodes not yet consumed, after one more step. *)
Lemma live_step_sum (g : nat -> Z) (nodes : list node) (consumed : list nat)
    (x y : nat) (new : node) :
  In x (live nodes consumed) -> In y (live nodes consumed) -> x <> y ->
  (forall z, In z consumed -> z < length nodes) ->
  zsum (map g (live (nodes ++ [new]) (y :: x :: consumed)))
  = (zsum (map g (live nodes consumed)) - g x - g y + g (length nodes))%Z.
Proof.
  intros Hx Hy Hxy Hlt.
  pose proof Hx as Hx'. pose proof Hy as Hy'.
  apply In_live in Hx', Hy'. destruct Hx' as [Hxl Hxc], Hy' as [Hyl Hyc].
  unfold live. rewrite length_app. simpl length.
  rewrite Nat.add_1_r, seq_S, filter_app. simpl.
  assert (Hnew : existsb (Nat.eqb (length nodes)) consumed = false).
  { apply consumed_false. intros Hin. apply Hlt in Hin. lia. }
  rewrite (proj2 (Nat.eqb_neq _ _)) by lia.
  rewrite (proj2 (Nat.eqb_neq _ _)) by lia.
  rewrite Hnew. simpl.
  rewrite map_app, zsum_app. simpl.
  set (P := fun z => negb (existsb (Nat.eqb z) consumed)).
  rewrite (filter_ext _
             (fun z => negb (z =? y) && (negb (z =? x) && P z))).
  2:{ intros z. unfold P. now rewrite !negb_orb. }
  assert (Hnd : NoDup (seq 0 (length nodes))) by apply seq_NoDup.
  assert (Hinx : In x (seq 0 (length nodes))) by (apply in_seq; lia).
  assert (Hiny : In y (seq 0 (length nodes))) by (apply in_seq; lia).
  assert (HPx : P x = true)
    by (unfold P; apply negb_true_iff, consumed_false; assumption).
  assert (HPy : P y = true)
    by (unfold P; apply negb_true_iff, consumed_false; assumption).
  rewrite (@zsum_filter_remove g
             (fun z => negb (z =? x) && P z) y); try assumption.
  2:{ rewrite HPy. rewrite (proj2 (Nat.eqb_neq y x)) by auto. reflexivity. }
  rewrite (@zsum_filter_remove g P x); try assumption.
  lia.
Qed.

Lemma zsum_member (A : Type) (g : A -> Z) (l : list A) (a : A) :
  (forall z, In z l -> (0 <= g z)%Z) -> In a l -> (g a <= zsum (map g l))%Z.
Proof.
  induction l as [|b l IH]; intros Hg Ha; [destruct Ha|].
  assert (H0 : (0 <= zsum (map g l))%Z).
  { clear IH Ha. induction l as [|c l IHl]; [unfold zsum; simpl; lia|].
    assert (Hc : (0 <= g c)%Z) by (apply Hg; right; now left).
    assert (Hl : (0 <= zsum (map g l))%Z).
    { apply IHl. intros z [Hz|Hz]; apply Hg; [now left|right; now right]. }
    unfold zsum in *. simpl. lia. }
  assert (Hb : (0 <= g b)%Z) by (apply Hg; now left).
  destruct Ha as [->|Ha].
  - unfold zsum in *. simpl. lia.
  - assert (H : (g a <= zsum (map g l))%Z)
      by (apply IH; [intros z Hz; apply Hg; now right|exact Ha]).
    unfold zsum in *. simpl. lia.
Qed.

(** The nodes not yet consumed never weigh more, in absolute value, than
    the leaves do, and so does every node apart. *)
Lemma merge_array_abs_weight (leaves nodes : list node)
    (consumed : list nat) :
  merge_array leaves nodes consumed ->
  (zsum (map (fun z => Z.abs (weight nodes z)) (live nodes consumed))
   <= abs_weight leaves)%Z /\
  Forall (fun x => (Z.abs (fst x) <= abs_weight leaves)%Z) nodes.
Proof.
  induction 1 as [|nodes consumed x y Hma [IHs IHf] (Hx & Hy & Hxy & _)].
  - split.
    + rewrite live_nil.
      rewrite <- (map_map (weight leaves) Z.abs), map_weight_seq, map_map.
      unfold abs_weight. lia.
    + apply Forall_forall. intros x Hx. unfold abs_weight.
      apply (zsum_member (fun x : node => Z.abs (fst x))); [|exact Hx].
      intros; lia.
  - set (new := merge_first_op _ _).
    pose proof (merge_array_consumed_lt Hma) as Hlt.
    pose proof Hx as Hx'. pose proof Hy as Hy'.
    apply In_live in Hx', Hy'. destruct Hx' as [Hxl Hxc], Hy' as [Hyl Hyc].
    pose proof (@live_step_sum
                  (fun z => Z.abs (weight (nodes ++ [new]) z))
                  nodes consumed x y new Hx Hy Hxy Hlt) as Hstep.
    cbv beta in Hstep.
    rewrite (map_ext_in (fun z => Z.abs (weight (nodes ++ [new]) z))
               (fun z => Z.abs (weight nodes z)) (live nodes consumed))
      in Hstep.
    2:{ intros z Hz. apply In_live in Hz. now rewrite weight_app_l. }
    rewrite !weight_app_l, weight_app_r in Hstep by assumption.
    assert (Hnew : fst new = (weight nodes x + weight nodes y)%Z)
      by reflexivity.
    assert (Hle : (zsum (map (fun z => Z.abs (weight (nodes ++ [new]) z))
                          (live (nodes ++ [new]) (y :: x :: consumed)))
                   <= abs_weight leaves)%Z) by lia.
    split; [exact Hle|].
    apply Forall_app. split; [exact IHf|].
    constructor; [|constructor].
    eapply Z.le_trans; [|exact Hle].
    rewrite <- (weight_app_r nodes new).
    apply (zsum_member (fun z => Z.abs (weight (nodes ++ [new]) z))).
    + intros; lia.
    + apply In_live. rewrite length_app. simpl. split; [lia|].
      intros [E|[E|Hin]]; [lia|lia|]. apply Hlt in Hin. lia.
Qed.

Lemma abs_in_ptrdiff (z : Z) : (Z.abs z <= ptrdiff_max)%Z -> in_ptrdiff z.
Proof. unfold in_ptrdiff, ptrdiff_max, ptrdiff_min. lia. Qed.

(** With leaves whose absolute weights sum to at most [ptrdiff_max], every
    weight of the array, so every sum that was formed, is in the range of
    [ptrdiff_t]. *)
Lemma merge_array_in_ptrdiff (leaves nodes : list node)
    (consumed : list nat) :
  merge_array leaves nodes consumed ->
  (abs_weight leaves <= ptrdiff_max)%Z ->
  Forall (fun x => in_ptrdiff (fst x)) nodes.
Proof.
  intros Hma Hb. destruct (merge_array_abs_weight Hma) as [_ Hf].
  eapply Forall_impl; [|exact Hf].
  intros a Ha. apply abs_in_ptrdiff. cbv beta in Ha. lia.
Qed.

Lemma abs_weight_nonneg (l : list node) :
  Forall (fun x => (0 <= fst x)%Z) l -> abs_weight l = zsum (map fst l).
Proof.
  intros H. unfold abs_weight. f_equal. apply map_ext_in.
  intros a Ha. rewrite Forall_forall in H. apply Z.abs_eq. now apply H.
Qed.

(** * The header: written by the encoder, read back by the decoder *)

Lemma to_bits_length (w : nat) (v : Z) : length (to_bits w v) = w.
Proof. unfold to_bits. now rewrite length_map, length_rev, length_seq. Qed.

Lemma to_bits_S (w : nat) (v : Z) :
  to_bits (S w) v =
  (if Z.testbit v (Z.of_nat w) then c1 else c0) :: to_bits w v.
Proof. unfold to_bits. rewrite seq_S, rev_app_distr. reflexivity. Qed.

Lemma mod_pow2_S (v : Z) (w : nat) :
  (v mod 2 ^ Z.of_nat (S w) =
   v mod 2 ^ Z.of_nat w
   + 2 ^ Z.of_nat w * (if Z.testbit v (Z.of_nat w) then 1 else 0))%Z.
Proof.
  rewrite Nat2Z.inj_succ, Z.pow_succ_r by lia.
  rewrite (Z.mul_comm 2), Z.rem_mul_r by lia.
  f_equal. f_equal.
  destruct (Z.testbit v (Z.of_nat w)) eqn:E.
  - apply Z.testbit_true in E; [exact E|lia].
  - apply Z.testbit_false in E; [exact E|lia].
Qed.

Lemma bitset_to_bits_acc (w : nat) (v acc : Z) :
  bitset_of_string acc (to_bits w v)
  = Ret (acc * 2 ^ Z.of_nat w + v mod 2 ^ Z.of_nat w)%Z.
Proof.
  revert acc. induction w as [|w IH]; intros acc.
  - simpl. rewrite Z.mod_1_r. f_equal. lia.
  - rewrite to_bits_S, mod_pow2_S.
    assert (Hp : (2 ^ Z.of_nat (S w) = 2 * 2 ^ Z.of_nat w)%Z)
      by (rewrite Nat2Z.inj_succ, Z.pow_succ_r; lia).
    rewrite Hp.
    destruct (Z.testbit v (Z.of_nat w)).
    + change (bitset_of_string acc (c1 :: to_bits w v))
        with (bitset_of_string (2 * acc + 1) (to_bits w v)).
      rewrite IH. f_equal. ring.
    + change (bitset_of_string acc (c0 :: to_bits w v))
        with (bitset_of_string (2 * acc) (to_bits w v)).
      rewrite IH. f_equal. ring.
Qed.

Lemma bitset_to_bits (w : nat) (v : Z) :
  (0 <= v < 2 ^ Z.of_nat w)%Z ->
  bitset_of_string 0 (to_bits w v) = Ret v.
Proof.
  intros H. rewrite bitset_to_bits_acc, Z.mod_small by assumption.
  f_equal.
Qed.

(** The two overloads of [binary_converter] are inverse to each other. *)
Lemma converter_roundtrip (A : Type) (x : A * ascii) :
  converter_char (converter_bits x) = Ret (snd x).
Proof.
  destruct x as [a c]. unfold converter_bits. simpl snd.
  destruct c as [[] [] [] [] [] [] [] []]; reflexivity.
Qed.

Lemma converter_bits_length (A : Type) (x : A * ascii) :
  length (converter_bits x) = 8.
Proof. apply to_bits_length. Qed.

Lemma assign_nth_error (A : Type) (v : list A) (i : nat) (x : A) :
  i < length v ->
  exists v', assign v i x = Ret v' /\ length v' = length v /\
    nth_error v' i = Some x /\
    forall j, j <> i -> nth_error v' j = nth_error v j.
Proof.
  revert i. induction v as [|y v IH]; intros [|i] H; simpl in *; try lia.
  - exists (x :: v). repeat split. intros [|j] Hj; [contradiction|reflexivity].
  - destruct (IH i) as (v' & E & Hl & Hi & Ho); [lia|].
    exists (y :: v'). rewrite E. simpl. repeat split; auto.
    intros [|j] Hj; [reflexivity|]. apply Ho. lia.
Qed.

Lemma header_loop_eq (T : Type) (cmp : T -> T -> bool) (converter : T -> str)
    (fuel : nat) (nodes : list T) (l0 f0 f1 : nat) (res : str) :
  header_loop cmp converter fuel nodes l0 f0 f1 res =
  if (f0 =? l0) && (f1 =? length nodes) then Ret res
  else
    match fuel with
    | O => OutOfFuel
    | S fuel' =>
        ' (x, f0, f1) <- next_node nodes cmp f0 l0 f1 (length nodes) ;;
        if x <? l0 then
          vx <- deref nodes x ;;
          header_loop cmp converter fuel' nodes l0 f0 f1
            (res ++ [c1] ++ converter vx)
        else
          header_loop cmp converter fuel' nodes l0 f0 f1 (res ++ [c0])
    end.
Proof. destruct fuel; reflexivity. Qed.

(** What one call of [next_node] in [header] compares. *)
Lemma next_node_header (nodes : list node) (k f0 f1 : nat) :
  f0 <= k -> k <= f1 -> f1 <= length nodes ->
  f0 < k \/ f1 < length nodes ->
  exists x f0' f1',
    next_node nodes compare_first f0 k f1 (length nodes) = Ret (x, f0', f1') /\
    ((x = f0 /\ f0' = S f0 /\ f1' = f1 /\ f0 < k /\
      (f1 < length nodes -> (weight nodes f0 <= weight nodes f1)%Z)) \/
     (x = f1 /\ f0' = f0 /\ f1' = S f1 /\ f1 < length nodes /\
      (f0 < k -> (weight nodes f1 < weight nodes f0)%Z))).
Proof.
  intros H0 Hk1 H1 Hne.
  destruct (Nat.eq_dec f1 (length nodes)) as [E1|E1].
  - exists f0, (S f0), f1. unfold next_node.
    rewrite (proj2 (Nat.eqb_eq _ _) E1).
    split; [reflexivity|]. left. repeat split; lia.
  - destruct (Nat.eq_dec f0 k) as [E0|E0].
    + exists f1, f0, (S f1). unfold next_node.
      rewrite (proj2 (Nat.eqb_neq _ _) E1), (proj2 (Nat.eqb_eq _ _) E0).
      split; [reflexivity|]. right. repeat split; lia.
    + rewrite (@next_node_both _ nodes compare_first f0 k f1 (length nodes)
                 (nth f0 nodes node_default) (nth f1 nodes node_default));
        try assumption; try (apply nth_error_nth'; lia).
      unfold compare_first. fold (weight nodes f1). fold (weight nodes f0).
      destruct (Z.ltb_spec (weight nodes f1) (weight nodes f0)) as [Hlt|Hge].
      * exists f1, f0, (S f1). split; [reflexivity|].
        right. repeat split; lia.
      * exists f0, (S f0), f1. split; [reflexivity|].
        left. repeat split; lia.
Qed.

Lemma nth_of_nth_error (A : Type) (l l' : list A) (z : nat) (d : A) :
  nth_error l z = nth_error l' z -> nth z l d = nth z l' d.
Proof.
  intros H. destruct (nth_error l' z) as [a|] eqn:E.
  - rewrite (nth_error_nth _ _ d H), (nth_error_nth _ _ d E). reflexivity.
  - rewrite !nth_overflow; [reflexivity| |]; apply nth_error_None; assumption.
Qed.

Section HeaderRead.
Context {impl : Implementation}.
Variable nodes : list node.
Variable k : nat.
Hypothesis Hk : k <= length nodes.
Hypothesis Hleaves : forall p p', p <= p' -> p' < k ->
  (weight nodes p <= weight nodes p')%Z.
Hypothesis Hinternal : forall q q', k <= q -> q <= q' -> q' < length nodes ->
  (weight nodes q <= weight nodes q')%Z.

(** [header] writes the remaining nodes in merge order and [read_header]
    stores each of them, with its position in the header, at the place it
    has in the encoder's array. *)
Lemma header_read_loop :
  forall d f0 f1,
    f0 <= k -> k <= f1 -> f1 <= length nodes ->
    (k - f0) + (length nodes - f1) = d ->
    exists body,
      (forall fuel res, d <= fuel ->
         header_loop compare_first (@converter_bits Z) fuel nodes k f0 f1 res
         = Ret (res ++ body)) /\
      length body = d + 8 * (k - f0) /\
      forall (pre payload : str) (dn : list dnode) (i : nat),
        length dn = length nodes ->
        exists dn',
          read_header_loop converter_char d i (pre ++ body ++ payload) dn
            f0 f1 (length pre) = Ret (dn', length pre + length body) /\
          length dn' = length nodes /\
          (forall z, z < f0 \/ (k <= z /\ z < f1) ->
             nth_error dn' z = nth_error dn z) /\
          (forall p, f0 <= p -> p < k ->
             symbol dn' p = symbol nodes p /\
             (Z.of_nat i <= header_pos dn' p)%Z) /\
          (forall q, f1 <= q -> q < length nodes ->
             (Z.of_nat i <= header_pos dn' q)%Z) /\
          (forall p q, f0 <= p -> p < k -> f1 <= q -> q < length nodes ->
             (header_pos dn' q <? header_pos dn' p)%Z
             = (weight nodes q <? weight nodes p)%Z).
Proof.
  induction d as [|d IH]; intros f0 f1 H0 Hk1 H1 Hd.
  - exists []. split.
    { intros fuel res _. rewrite header_loop_eq.
      replace (f0 =? k) with true by (symmetry; apply Nat.eqb_eq; lia).
      replace (f1 =? length nodes) with true
        by (symmetry; apply Nat.eqb_eq; lia).
      simpl. now rewrite app_nil_r. }
    split; [cbn [length]; lia|].
    intros pre payload dn i Hdn. exists dn. cbn [length]. rewrite Nat.add_0_r.
    split; [reflexivity|]. split; [assumption|].
    split; [reflexivity|]. repeat split; intros; lia.
  - assert (Hnot : (f0 =? k) && (f1 =? length nodes) = false).
    { apply andb_false_iff.
      destruct (Nat.eq_dec f0 k); [right|left]; apply Nat.eqb_neq; lia. }
    destruct (@next_node_header nodes k f0 f1)
      as (x & f0' & f1' & Ex & Hx); try lia.
    destruct Hx as [(-> & -> & -> & Hlt & Hw)|(-> & -> & -> & Hlt & Hw)].
    + (* a leaf *)
      remember (converter_bits (nth f0 nodes node_default)) as bits eqn:Ebits.
      destruct (IH (S f0) f1) as (body & Ebody & Hlen & Hread); try lia.
      exists (c1 :: bits ++ body).
      split.
      { intros [|fuel] res Hfuel; [lia|].
        rewrite header_loop_eq, Hnot, Ex. simpl.
        rewrite (proj2 (Nat.ltb_lt _ _) Hlt).
        rewrite (@deref_nth _ nodes f0 node_default) by lia. simpl.
        rewrite <- Ebits, Ebody by lia. f_equal.
        rewrite <- app_assoc. reflexivity. }
      assert (Hbits : length bits = 8)
        by (rewrite Ebits; apply converter_bits_length).
      split.
      { cbn [length]. rewrite length_app, Hlen, Hbits. lia. }
      intros pre payload dn i Hdn.
      destruct (@assign_nth_error _ dn f0
                  (Z.of_nat i, snd (nth f0 nodes node_default)))
        as (dn1 & Eas & Hl1 & Hat & Hother); [lia|].
      destruct (Hread (pre ++ c1 :: bits) payload dn1 (S i))
        as (dn' & Eread & Hl' & Hsame & Hleaf & Hint & Hcross); [lia|].
      exists dn'.
      assert (Ein : (pre ++ c1 :: bits) ++ body ++ payload
                    = pre ++ (c1 :: bits ++ body) ++ payload).
      { repeat (rewrite <- app_assoc || rewrite <- app_comm_cons).
        reflexivity. }
      rewrite Ein in Eread. clear Ein.
      split.
      { remember (pre ++ (c1 :: bits ++ body) ++ payload) as input eqn:Einput.
        simpl read_header_loop.
        assert (Ed : deref input (length pre) = Ret c1).
        { apply deref_Ret. rewrite Einput.
          rewrite nth_error_app2, Nat.sub_diag by lia. reflexivity. }
        rewrite Ed. simpl.
        assert (Es : substr input (S (length pre)) 8 = Ret bits).
        { unfold substr. rewrite Einput.
          replace (length (pre ++ (c1 :: bits ++ body) ++ payload)
                     <? S (length pre)) with false.
          2:{ symmetry. apply Nat.ltb_ge. rewrite !length_app. cbn [length]. lia. }
          f_equal.
          replace (pre ++ (c1 :: bits ++ body) ++ payload)
            with ((pre ++ [c1]) ++ bits ++ body ++ payload)
            by (repeat (rewrite <- app_assoc || rewrite <- app_comm_cons);
                reflexivity).
          rewrite skipn_app.
          replace (S (length pre) - length (pre ++ [c1])) with 0
            by (rewrite length_app; cbn [length]; lia).
          rewrite skipn_all2 by (rewrite length_app; cbn [length]; lia).
          cbn [app skipn]. rewrite firstn_app, Hbits, Nat.sub_diag.
          rewrite firstn_all2 by lia. cbn [firstn]. now rewrite app_nil_r. }
        rewrite Es. simpl.
        rewrite Ebits at 1. rewrite converter_roundtrip. simpl.
        rewrite Eas. simpl.
        replace (S (length pre + 8)) with (length (pre ++ c1 :: bits))
          by (rewrite length_app; cbn [length]; lia).
        rewrite Eread. f_equal. f_equal.
        repeat rewrite length_app. cbn [length].
        repeat rewrite length_app. lia. }
      split; [exact Hl'|].
      assert (Hf0 : @nth (Z * ascii) f0 dn' node_default
                    = (Z.of_nat i, snd (nth f0 nodes node_default))).
      { apply nth_error_nth. rewrite Hsame by lia. exact Hat. }
      assert (Hpos0 : header_pos dn' f0 = Z.of_nat i)
        by (unfold header_pos; now rewrite Hf0).
      assert (Hsym0 : symbol dn' f0 = symbol nodes f0)
        by (unfold symbol at 1; now rewrite Hf0).
      split.
      { intros z Hz. rewrite Hsame by lia. apply Hother. lia. }
      split.
      { intros p Hp1 Hp2. destruct (Nat.eq_dec p f0) as [->|Hne].
        - rewrite Hpos0. split; [exact Hsym0|lia].
        - destruct (Hleaf p) as [Hs Hpos]; try lia. split; [exact Hs|lia]. }
      split.
      { intros q Hq1 Hq2. specialize (Hint q Hq1 Hq2). lia. }
      intros p q Hp1 Hp2 Hq1 Hq2.
      destruct (Nat.eq_dec p f0) as [->|Hne].
      * specialize (Hint q Hq1 Hq2).
        rewrite Hpos0.
        assert (Hwq : (weight nodes f0 <= weight nodes q)%Z).
        { specialize (Hw ltac:(lia)).
          specialize (Hinternal (q := f1) (q' := q)). lia. }
        rewrite (proj2 (Z.ltb_ge _ _)) by lia.
        rewrite (proj2 (Z.ltb_ge _ _)) by lia. reflexivity.
      * apply Hcross; lia.
    + (* an internal node *)
      destruct (IH f0 (S f1)) as (body & Ebody & Hlen & Hread); try lia.
      exists (c0 :: body).
      split.
      { intros [|fuel] res Hfuel; [lia|].
        rewrite header_loop_eq, Hnot, Ex. simpl.
        rewrite (proj2 (Nat.ltb_ge _ _)) by lia.
        rewrite Ebody by lia. f_equal.
        rewrite <- app_assoc. reflexivity. }
      split.
      { cbn [length]. rewrite Hlen. lia. }
      intros pre payload dn i Hdn.
      destruct (@assign_nth_error _ dn f1 (Z.of_nat i, uninit i))
        as (dn1 & Eas & Hl1 & Hat & Hother); [lia|].
      destruct (Hread (pre ++ [c0]) payload dn1 (S i))
        as (dn' & Eread & Hl' & Hsame & Hleaf & Hint & Hcross); [lia|].
      exists dn'.
      assert (Ein : (pre ++ [c0]) ++ body ++ payload
                    = pre ++ (c0 :: body) ++ payload).
      { rewrite <- !app_assoc. reflexivity. }
      rewrite Ein in Eread. clear Ein.
      split.
      { remember (pre ++ (c0 :: body) ++ payload) as input eqn:Einput.
        simpl read_header_loop.
        assert (Ed : deref input (length pre) = Ret c0).
        { apply deref_Ret. rewrite Einput.
          rewrite nth_error_app2, Nat.sub_diag by lia. reflexivity. }
        rewrite Ed. simpl.
        replace (char_eqb c0 c1) with false by reflexivity.
        rewrite Eas. simpl.
        replace (S (length pre)) with (length (pre ++ [c0]))
          by (rewrite length_app; cbn [length]; lia).
        rewrite Eread. f_equal. f_equal.
        repeat rewrite length_app. cbn [length]. lia. }
      split; [exact Hl'|].
      assert (Hf1 : @nth (Z * ascii) f1 dn' node_default
                    = (Z.of_nat i, uninit i)).
      { apply nth_error_nth. rewrite Hsame by lia. exact Hat. }
      assert (Hpos1 : header_pos dn' f1 = Z.of_nat i)
        by (unfold header_pos; now rewrite Hf1).
      split.
      { intros z Hz. rewrite Hsame by lia. apply Hother. lia. }
      split.
      { intros p Hp1 Hp2. destruct (Hleaf p) as [Hs Hpos]; try lia.
        split; [exact Hs|lia]. }
      split.
      { intros q Hq1 Hq2. destruct (Nat.eq_dec q f1) as [->|Hne].
        - rewrite Hpos1. lia.
        - specialize (Hint q). lia. }
      intros p q Hp1 Hp2 Hq1 Hq2.
      destruct (Nat.eq_dec q f1) as [->|Hne].
      * destruct (Hleaf p) as [_ Hpos]; try lia.
        rewrite Hpos1.
        assert (Hwp : (weight nodes f1 < weight nodes p)%Z).
        { specialize (Hw ltac:(lia)).
          specialize (Hleaves (p := f0) (p' := p)). lia. }
        rewrite (proj2 (Z.ltb_lt _ _)) by lia.
        rewrite (proj2 (Z.ltb_lt _ _)) by lia. reflexivity.
      * apply Hcross; lia.
Qed.
End HeaderRead.

(** [header] followed by [read_header]: the decoder's array has the
    symbols of the leaves at the places of the leaves, and its header
    positions order an internal node and a leaf as the weights do. *)
Lemma header_read_header (impl : Implementation) (nodes : list node)
    (k : nat) :
  1 <= k -> length nodes = 2 * k - 1 -> 2 * k - 1 < 2 ^ 16 ->
  (forall p p', p <= p' -> p' < k ->
     (weight nodes p <= weight nodes p')%Z) ->
  (forall q q', k <= q -> q <= q' -> q' < length nodes ->
     (weight nodes q <= weight nodes q')%Z) ->
  exists hdr,
    (forall fuel, length nodes <= fuel ->
       header compare_first (@converter_bits Z) fuel nodes = Ret hdr) /\
    length hdr = 16 + length nodes + 8 * k /\
    forall payload,
      exists dn,
        read_header converter_char (hdr ++ payload) = Ret (dn, length hdr) /\
        length dn = length nodes /\
        (forall p, p < k -> symbol dn p = symbol nodes p) /\
        (forall p q, p < k -> k <= q -> q < length nodes ->
           (header_pos dn q <? header_pos dn p)%Z
           = (weight nodes q <? weight nodes p)%Z).
Proof.
  intros Hk Hlen Hsmall Hleaves Hinternal.
  assert (Hdiv : length nodes / 2 + 1 = k).
  { rewrite Hlen. replace (2 * k - 1) with (1 + (k - 1) * 2) by lia.
    rewrite Nat.div_add by lia. simpl. lia. }
  destruct (@header_read_loop impl nodes k ltac:(lia) Hleaves Hinternal
              (length nodes) 0 k)
    as (body & Ebody & Hbody & Hread); try lia.
  remember (to_bits 16 (Z.of_nat (length nodes))) as size eqn:Esize.
  assert (Hsize : length size = 16)
    by (rewrite Esize; apply to_bits_length).
  assert (Hvalue : bitset_of_string 0 size = Ret (Z.of_nat (length nodes))).
  { rewrite Esize. apply bitset_to_bits.
    split; [lia|]. change (2 ^ Z.of_nat 16)%Z with (Z.of_nat (2 ^ 16)).
    lia. }
  exists (size ++ body).
  split.
  { intros fuel Hfuel. unfold header. rewrite Hdiv, <- Esize.
    now apply Ebody. }
  split.
  { rewrite length_app, Hsize, Hbody. lia. }
  intros payload.
  destruct (Hread size payload (repeat (0%Z, char_zero) (length nodes)) 0)
    as (dn & Edn & Hl & _ & Hleaf & _ & Hcross).
  { apply repeat_length. }
  exists dn.
  split.
  { assert (Efirst : firstn 16 ((size ++ body) ++ payload) = size).
    { rewrite <- app_assoc, firstn_app, Hsize, Nat.sub_diag.
      rewrite firstn_all2 by lia. cbn [firstn]. now rewrite app_nil_r. }
    unfold read_header, substr. cbn [Nat.ltb Nat.leb skipn bind].
    rewrite Efirst. cbn [bind]. rewrite Hvalue. cbn [bind].
    rewrite Nat2Z.id, repeat_length, Hdiv.
    rewrite Hsize in Edn. rewrite <- app_assoc, Edn. f_equal. f_equal.
    rewrite length_app. lia. }
  split; [exact Hl|]. split.
  - intros p Hp. apply Hleaf; lia.
  - intros p q Hp Hq1 Hq2. apply Hcross; lia.
Qed.

(** * The frequency table *)

Lemma adjacent_count_cons2 (a b : ascii) (s : str) :
  adjacent_count (a :: b :: s) =
  if char_eqb a b
  then let '(n, r) := adjacent_count (b :: s) in ((n + 1)%Z, r)
  else (1%Z, b :: s).
Proof. reflexivity. Qed.

Lemma adjacent_count_spec (a : ascii) (s : str) :
  exists m r,
    adjacent_count (a :: s) = (Z.of_nat (S m), r) /\
    a :: s = repeat a (S m) ++ r /\
    (forall b r', r = b :: r' -> b <> a).
Proof.
  revert a. induction s as [|b s IH]; intros a.
  - exists 0, []. repeat split. intros; discriminate.
  - rewrite adjacent_count_cons2. destruct (char_eqb a b) eqn:E.
    + apply char_eqb_eq in E. subst b.
      destruct (IH a) as (m & r & Ec & Es & Hr).
      exists (S m), r. rewrite Ec. split.
      * f_equal. lia.
      * split; [|exact Hr]. rewrite Es. reflexivity.
    + apply char_eqb_neq in E.
      exists 0, (b :: s). repeat split.
      intros b' r' H. injection H as <- <-. auto.
Qed.

Lemma StronglySorted_app_inv (A : Type) (R : A -> A -> Prop) (l1 l2 : list A) :
  StronglySorted R (l1 ++ l2) ->
  StronglySorted R l2 /\ forall x y, In x l1 -> In y l2 -> R x y.
Proof.
  induction l1 as [|a l1 IH]; simpl; intros H.
  - split; [assumption|]. intros x y [].
  - inversion H as [|? ? Hs Ha]; subst. destruct (IH Hs) as [H2 Hc].
    split; [assumption|]. intros x y [<-|Hx] Hy.
    + rewrite Forall_forall in Ha. apply Ha. apply in_or_app. now right.
    + now apply Hc.
Qed.

Section Frequencies.
Context {impl : Implementation}.

Lemma char_value_inj (a b : ascii) : char_value a = char_value b -> a = b.
Proof.
  unfold char_value. intros H.
  assert (Ha : (0 <= Z.of_N (N_of_ascii a) < 256)%Z).
  { pose proof (N_ascii_bounded a). lia. }
  assert (Hb : (0 <= Z.of_N (N_of_ascii b) < 256)%Z).
  { pose proof (N_ascii_bounded b). lia. }
  assert (E : N_of_ascii a = N_of_ascii b).
  { destruct char_is_signed; simpl in H;
      destruct (128 <=? Z.of_N (N_of_ascii a))%Z eqn:Ea;
      destruct (128 <=? Z.of_N (N_of_ascii b))%Z eqn:Eb; lia. }
  rewrite <- (ascii_N_embedding a), <- (ascii_N_embedding b). now rewrite E.
Qed.

Lemma char_less_swo : strict_weak_order char_less.
Proof.
  unfold strict_weak_order, char_less. repeat split.
  - intros x. apply Z.ltb_irrefl.
  - intros x y z H1 H2. apply Z.ltb_lt in H1, H2. apply Z.ltb_lt. lia.
  - intros x y z H1 H2. apply Z.ltb_ge in H1, H2. apply Z.ltb_ge. lia.
Qed.

Lemma compare_first_swo : strict_weak_order compare_first.
Proof.
  unfold strict_weak_order, compare_first. repeat split.
  - intros x. apply Z.ltb_irrefl.
  - intros x y z H1 H2. apply Z.ltb_lt in H1, H2. apply Z.ltb_lt. lia.
  - intros x y z H1 H2. apply Z.ltb_ge in H1, H2. apply Z.ltb_ge. lia.
Qed.

(** [unique_copy_with_count] on a sequence: one entry per run of equal
    symbols; on a sorted sequence no symbol comes twice. *)
Lemma unique_copy_with_count_spec :
  forall n s, length s <= n ->
    exists fr,
      (forall fuel out, n < fuel ->
         unique_copy_with_count fuel s out = Ret (out ++ fr)) /\
      (forall c, In c (map snd fr) <-> In c s) /\
      Forall (fun e => (1 <= fst e)%Z) fr /\
      (StronglySorted (not_after char_less) s -> NoDup (map snd fr)).
Proof.
  induction n as [|n IH]; intros s Hn.
  - destruct s; [|simpl in Hn; lia]. exists []. split.
    + intros [|fuel] out Hf; [lia|]. simpl. now rewrite app_nil_r.
    + repeat split; try constructor; simpl; tauto.
  - destruct s as [|a s].
    + exists []. split.
      * intros [|fuel] out Hf; [lia|]. simpl. now rewrite app_nil_r.
      * repeat split; try constructor; simpl; tauto.
    + destruct (adjacent_count_spec a s) as (m & r & Ec & Es & Hr).
      assert (Hlen : length r <= n).
      { apply (f_equal (@length ascii)) in Es.
        rewrite length_app, repeat_length in Es. simpl in *. lia. }
      destruct (IH r Hlen) as (fr & Hret & Hin & Hpos & Hnd).
      exists ((Z.of_nat (S m), a) :: fr). split.
      { intros [|fuel] out Hf; [lia|].
        cbn [unique_copy_with_count]. rewrite Ec. cbn [fst snd].
        replace (Z.of_nat (S m) =? 0)%Z with false
          by (symmetry; apply Z.eqb_neq; lia).
        cbn [deref nth_error bind].
        rewrite Hret by lia. now rewrite <- app_assoc. }
      split.
      { intros c. cbn [map snd]. rewrite Es, in_app_iff. split.
        - intros [<-|H]; [left; now left|right; now apply Hin].
        - intros [H|H].
          + left. symmetry. eapply repeat_spec. exact H.
          + right. now apply Hin. }
      split.
      { constructor; [simpl; lia|exact Hpos]. }
      intros Hs. rewrite Es in Hs.
      apply StronglySorted_app_inv in Hs. destruct Hs as [Hsr Hcross].
      cbn [map snd]. constructor; [|now apply Hnd].
      rewrite Hin. intros Har.
      destruct r as [|b r']; [destruct Har|].
      assert (Hb : b <> a) by (eapply Hr; reflexivity).
      assert (Hab : char_less b a = false).
      { apply (Hcross a b); [now left|now left]. }
      assert (Hlt : (char_value a < char_value b)%Z).
      { unfold char_less in Hab. apply Z.ltb_ge in Hab.
        assert (char_value a <> char_value b)
          by (intros E; apply Hb; symmetry; now apply char_value_inj).
        lia. }
      destruct Har as [->|Har]; [lia|].
      inversion Hsr as [|? ? _ Hall]; subst. rewrite Forall_forall in Hall.
      specialize (Hall a Har). unfold not_after, char_less in Hall.
      apply Z.ltb_ge in Hall. lia.
Qed.

(** Lists of distinct characters are short. *)
Lemma NoDup_ascii_length (l : list ascii) : NoDup l -> length l <= 256.
Proof.
  intros H.
  replace 256 with (length (map ascii_of_nat (seq 0 256)))
    by (now rewrite length_map, length_seq).
  apply NoDup_incl_length; [exact H|].
  intros a _. apply in_map_iff. exists (nat_of_ascii a).
  split; [apply ascii_nat_embedding|].
  apply in_seq. pose proof (nat_ascii_bounded a). lia.
Qed.

(** The frequency table of [compress]: one entry for each distinct symbol
    of the input, with a positive count. *)
Lemma frequencies_spec (input : str) :
  exists fr,
    (forall fuel, length input < fuel -> frequencies fuel input = Ret fr) /\
    NoDup (map snd fr) /\
    (forall c, In c (map snd fr) <-> In c input) /\
    Forall (fun e => (1 <= fst e)%Z) fr /\
    length fr = distinct_symbols input.
Proof.
  pose proof (std_sort_perm char_less input) as Hperm.
  pose proof (std_sort_sorted input char_less_swo) as Hsorted.
  destruct (@unique_copy_with_count_spec (length input)
              (std_sort char_less input))
    as (fr & Hret & Hin & Hpos & Hnd).
  { now rewrite (Permutation_length Hperm). }
  exists fr.
  assert (Hin' : forall c, In c (map snd fr) <-> In c input).
  { intros c. rewrite Hin. split; apply Permutation_in;
      [assumption|now apply Permutation_sym]. }
  split.
  { intros fuel Hf. unfold frequencies. now rewrite Hret. }
  split; [now apply Hnd|]. split; [exact Hin'|]. split; [exact Hpos|].
  unfold distinct_symbols. rewrite <- (length_map snd fr).
  apply Permutation_length, NoDup_Permutation.
  - now apply Hnd.
  - apply NoDup_nodup.
  - intros c. rewrite Hin', nodup_In. reflexivity.
Qed.
End Frequencies.

(** * The payload: written with the code table, read back by prefix matching *)

Lemma encode_input_spec (st : code_table) (input res : str) :
  encode_input st input res = res ++ flat_map (st_index st) input.
Proof.
  revert res. induction input as [|c input IH]; intros res; simpl.
  - now rewrite app_nil_r.
  - rewrite IH. now rewrite <- app_assoc.
Qed.

Lemma st_index_in (st : code_table) (s : ascii) (w : str) :
  NoDup (map fst st) -> In (s, w) st -> st_index st s = w.
Proof.
  unfold st_index. induction st as [|[s' w'] st IH]; intros Hnd Hin;
    [destruct Hin|].
  simpl in *. inversion Hnd as [|? ? Hs' Hnd']; subst.
  destruct (char_eqb s' s) eqn:E.
  - apply char_eqb_eq in E. subst s'. destruct Hin as [Hin|Hin].
    + now injection Hin.
    + exfalso. apply Hs'. apply in_map_iff. now exists (s, w).
  - apply char_eqb_neq in E. destruct Hin as [Hin|Hin].
    + injection Hin as -> ->. contradiction.
    + now apply IH.
Qed.

Lemma st_insert_fresh (st : code_table) (k : ascii) (c : str) :
  ~ In k (map fst st) -> st_insert k c st = st ++ [(k, c)].
Proof.
  intros H. unfold st_insert.
  replace (existsb (fun e => char_eqb (fst e) k) st) with false; [reflexivity|].
  symmetry. apply not_true_iff_false. rewrite existsb_exists.
  intros (e & He & Ek). apply char_eqb_eq in Ek. apply H.
  apply in_map_iff. now exists e.
Qed.

(** The table that [st_op] fills from the emitted codes. *)
Lemma run_callback_st_op (rnodes : list node) (out : list (nat * str)) :
  forall st,
    Forall (fun e => fst e < length rnodes) out ->
    NoDup (map fst st ++ map (fun e => symbol rnodes (fst e)) out) ->
    run_callback (st_op (@get_second Z) rnodes) out st
    = Ret (st ++ map (fun e => (symbol rnodes (fst e), snd e)) out).
Proof.
  induction out as [|e out IH]; intros st Hlt Hnd; simpl.
  - now rewrite app_nil_r.
  - inversion Hlt as [|? ? He Hlt']; subst.
    unfold st_op at 1. rewrite (deref_nth _ node_default He). simpl.
    unfold get_second. fold (symbol rnodes (fst e)).
    simpl in Hnd.
    rewrite st_insert_fresh.
    2:{ apply NoDup_remove_2 in Hnd. intros Hin. apply Hnd.
        apply in_or_app. now left. }
    rewrite IH; [now rewrite <- app_assoc|assumption|].
    rewrite map_app. simpl. rewrite <- app_assoc. simpl.
    exact Hnd.
Qed.

Lemma run_callback_prefix_op (out prefixes : list (nat * str)) :
  run_callback prefix_op out prefixes = Ret (prefixes ++ out).
Proof.
  revert prefixes. induction out as [|e out IH]; intros prefixes; simpl.
  - now rewrite app_nil_r.
  - rewrite IH. now rewrite <- app_assoc.
Qed.

Lemma firstn_snoc_nth (A : Type) (l : list A) (j : nat) (d : A) :
  j < length l -> firstn j l ++ [nth j l d] = firstn (S j) l.
Proof.
  revert j. induction l as [|a l IH]; intros [|j] H; simpl in *; try lia.
  - reflexivity.
  - rewrite IH by lia. reflexivity.
Qed.

Section Matching.
Variables pre w rest : str.

(** Reading on inside the code [w] that starts at [length pre]. *)
Lemma read_bits_inside (k j : nat) :
  j + k <= length w ->
  read_bits (pre ++ w ++ rest) k (firstn j w) (length pre + j)
  = Ret (firstn (j + k) w, length pre + (j + k)).
Proof.
  revert j. induction k as [|k IH]; intros j H; simpl.
  - now rewrite !Nat.add_0_r.
  - assert (Ed : deref (pre ++ w ++ rest) (length pre + j)
                 = Ret (nth j w c0)).
    { rewrite deref_app_r, deref_app_l by lia. apply deref_nth. lia. }
    rewrite Ed. simpl. rewrite firstn_snoc_nth by lia.
    replace (S (length pre + j)) with (length pre + S j) by lia.
    rewrite IH by lia. f_equal. f_equal; [f_equal|]; lia.
Qed.

(** The candidates are tried shortest first; the code that is there is the
    one that matches. *)
Lemma match_prefix_found (p : nat) :
  forall cands j,
    In (p, w) cands ->
    shortest_first cands ->
    prefix_free (map snd cands) ->
    j <= length w ->
    Forall (fun e => j <= code_len e) cands ->
    match_prefix (pre ++ w ++ rest) cands (firstn j w) (length pre + j)
    = Ret (Some p, [], length pre + length w).
Proof.
  induction cands as [|[p' c'] cands IH]; intros j Hin Hs Hpf Hj Hlen;
    [destruct Hin|].
  inversion Hs as [|? ? Hs' Hle]; subst.
  inversion Hlen as [|? ? Hj' Hlen']; subst.
  simpl in Hpf. inversion Hpf as [|? ? Hinc Hpf']; subst.
  unfold code_len in Hj'. simpl in Hj'.
  assert (Hc' : length c' <= length w).
  { destruct Hin as [E|Hin'].
    - injection E as -> ->. lia.
    - rewrite Forall_forall in Hle. specialize (Hle _ Hin').
      unfold code_len in Hle. simpl in Hle. exact Hle. }
  cbn [match_prefix snd fst].
  rewrite length_firstn, Nat.min_l by lia.
  rewrite read_bits_inside by lia. cbn [bind].
  replace (j + (length c' - j)) with (length c') by lia.
  destruct (str_eqb (firstn (length c') w) c') eqn:E.
  - apply str_eqb_eq in E.
    assert (Hpre : is_prefix c' w) by (apply is_prefix_firstn; exact E).
    destruct Hin as [Ein|Hin'].
    + injection Ein as -> ->. reflexivity.
    + exfalso. rewrite Forall_forall in Hinc.
      destruct (Hinc w) as [Hn _]; [|contradiction].
      apply in_map_iff. now exists (p, w).
  - destruct Hin as [Ein|Hin'].
    + injection Ein as -> ->. rewrite firstn_all, str_eqb_refl in E.
      discriminate.
    + apply IH; assumption.
Qed.
End Matching.

Lemma decode_loop_eq (fuel : nat) (input : str)
    (rnodes : list dnode) (prefixes : list (nat * str)) (bits_read : str)
    (current : nat) (res : str) :
  decode_loop fuel input rnodes prefixes bits_read current res =
  if current =? length input then Ret res
  else
    match fuel with
    | O => OutOfFuel
    | S fuel' =>
        ' (m, bits_read, current) <-
            match_prefix input prefixes bits_read current ;;
        match m with
        | Some p =>
            vp <- deref rnodes p ;;
            decode_loop fuel' input rnodes prefixes bits_read current
              (res ++ [snd vp])
        | None =>
            decode_loop fuel' input rnodes prefixes bits_read current res
        end
    end.
Proof. destruct fuel; reflexivity. Qed.

Section Decoding.
Variable rnodes : list dnode.
Variable codes : list (nat * str).
Hypothesis Hshort : shortest_first codes.
Hypothesis Hfree : prefix_free (map snd codes).
Hypothesis Hnonempty : Forall (fun e => 1 <= code_len e) codes.
Hypothesis Hrange : Forall (fun e => fst e < length rnodes) codes.

(** The code table of the encoder for these codes. *)
Let table : code_table :=
  map (fun e => (symbol rnodes (fst e), snd e)) codes.

Hypothesis Hdistinct : NoDup (map fst table).

(** The loop of the decoder reads back what [encode_input] wrote. *)
Lemma decode_loop_spec :
  forall input pre res fuel,
    (forall s, In s input -> In s (map fst table)) ->
    length input <= fuel ->
    decode_loop fuel (pre ++ flat_map (st_index table) input) rnodes codes
      [] (length pre) res
    = Ret (res ++ input).
Proof.
  induction input as [|s input IH]; intros pre res fuel Hcov Hfuel.
  - rewrite decode_loop_eq. simpl. rewrite !app_nil_r.
    now rewrite Nat.eqb_refl.
  - destruct fuel as [|fuel]; [simpl in Hfuel; lia|].
    assert (Hs : In s (map fst table)) by (apply Hcov; now left).
    apply in_map_iff in Hs. destruct Hs as ([s' w] & Es & Hin).
    simpl in Es. subst s'.
    pose proof Hin as Hin'. unfold table in Hin'.
    apply in_map_iff in Hin'. destruct Hin' as ([p w'] & Ee & Hcode).
    simpl in Ee. injection Ee as Esym ->.
    assert (Ew : st_index table s = w) by (now apply st_index_in).
    assert (Hw : 1 <= length w).
    { rewrite Forall_forall in Hnonempty. apply (Hnonempty _ Hcode). }
    assert (Hp : p < length rnodes).
    { rewrite Forall_forall in Hrange. apply (Hrange _ Hcode). }
    cbn [flat_map]. rewrite Ew.
    set (rest := flat_map (st_index table) input).
    rewrite decode_loop_eq.
    replace (length pre =? length (pre ++ w ++ rest)) with false
      by (symmetry; apply Nat.eqb_neq; rewrite !length_app; lia).
    pose proof (@match_prefix_found pre w rest p codes 0 Hcode Hshort
                  Hfree ltac:(lia)) as Hm.
    rewrite Nat.add_0_r in Hm. cbn [firstn] in Hm.
    rewrite Hm.
    2:{ apply Forall_forall. intros; lia. }
    cbn [bind]. rewrite (deref_nth _ node_default Hp). cbn [bind].
    fold (symbol rnodes p). rewrite Esym.
    replace (pre ++ w ++ rest) with ((pre ++ w) ++ rest)
      by now rewrite <- app_assoc.
    rewrite <- length_app. unfold rest. rewrite IH.
    + now rewrite <- app_assoc.
    + intros s' Hs'. apply Hcov. now right.
    + simpl in Hfuel. lia.
Qed.
End Decoding.

(** * Encoder and decoder generate the same codes *)

Lemma weight_rev (nodes : list node) (q : nat) :
  q < length nodes ->
  weight (rev nodes) q = weight nodes (length nodes - S q).
Proof. intros H. unfold weight. now rewrite rev_nth. Qed.

Lemma symbol_rev (nodes : list node) (q : nat) :
  q < length nodes ->
  symbol (rev nodes) q = symbol nodes (length nodes - S q).
Proof. intros H. unfold symbol. now rewrite rev_nth. Qed.

Lemma header_pos_rev (dn : list dnode) (q : nat) :
  q < length dn ->
  header_pos (rev dn) q = header_pos dn (length dn - S q).
Proof. intros H. unfold header_pos. now rewrite rev_nth. Qed.

Lemma symbol_firstn (nodes : list node) (k i : nat) :
  i < k -> symbol (firstn k nodes) i = symbol nodes i.
Proof.
  intros H. unfold symbol.
  now rewrite nth_firstn, (proj2 (Nat.ltb_lt _ _) H).
Qed.

(** The leaves, seen through the reverse iterators, from the heaviest. *)
Lemma leaf_symbols_rev (leaves nodes : list node) :
  1 <= length leaves ->
  length nodes = 2 * length leaves - 1 ->
  firstn (length leaves) nodes = leaves ->
  map (symbol (rev nodes)) (seq (length leaves - 1) (length leaves))
  = rev (map snd leaves).
Proof.
  intros Hk Hlen Hfirst.
  apply nth_ext with (d := char_zero) (d' := char_zero).
  - now rewrite length_map, length_seq, length_rev, length_map.
  - intros i Hi. rewrite length_map, length_seq in Hi.
    rewrite (nth_indep _ char_zero (symbol (rev nodes) 0))
      by (now rewrite length_map, length_seq).
    rewrite map_nth, seq_nth by assumption.
    rewrite symbol_rev by lia.
    rewrite rev_nth by (now rewrite length_map).
    rewrite length_map.
    change char_zero with (snd node_default). rewrite map_nth.
    fold (symbol leaves (length leaves - S i)).
    rewrite <- Hfirst at 2. rewrite symbol_firstn by lia. f_equal. lia.
Qed.

Lemma prefix_free_nonempty (l : list str) :
  prefix_free l -> 2 <= length l -> Forall (fun c => 1 <= length c) l.
Proof.
  intros Hpf Hlen.
  assert (Hnil : forall l', prefix_free l' -> In [] l' -> length l' <= 1).
  { clear. induction 1 as [|x l' Hx Hl' IH]; intros Hin; [destruct Hin|].
    destruct l' as [|y l']; [simpl; lia|]. exfalso.
    inversion Hx as [|? ? Hxy _]; subst.
    destruct Hin as [->|Hin].
    - destruct Hxy as [Hn _]. apply Hn. now exists y.
    - specialize (IH Hin). simpl in IH.
      destruct l' as [|z l']; [|simpl in IH; lia].
      destruct Hin as [->|[]]. destruct Hxy as [_ Hn]. apply Hn. now exists x. }
  apply Forall_forall. intros c Hc.
  destruct c as [|a c]; [|simpl; lia].
  specialize (Hnil l Hpf Hc). lia.
Qed.

Lemma std_sort_nil (impl : Implementation) (A : Type) (lt : A -> A -> bool) :
  std_sort lt [] = [].
Proof.
  apply Permutation_nil. apply Permutation_sym. apply std_sort_perm.
Qed.

Section Codes.
Context {impl : Implementation}.
Variables leaves nodes : list node.
Variable consumed : list nat.
Hypothesis Hk2 : 2 <= length leaves.
Hypothesis Hlen : length nodes = 2 * length leaves - 1.
Hypothesis Hsmall : 2 * length leaves - 1 < 2 ^ 16.
Hypothesis Hinv :
  build_inv leaves nodes (length leaves) (2 * length leaves - 2) consumed.
Hypothesis Hnn :
  build_inv_nonneg leaves nodes (length leaves) (2 * length leaves - 2).
Hypothesis Hsorted : StronglySorted (not_after compare_first) leaves.
Hypothesis Hnd : NoDup (map snd leaves).

Lemma encoder_compares :
  compares (rev nodes) (not2 compare_first) (length leaves - 1)
    (rev_compare nodes).
Proof.
  intros q p Hq Hp1 Hp2.
  exists (nth q (rev nodes) node_default), (nth p (rev nodes) node_default).
  split; [apply nth_error_nth'; rewrite length_rev; lia|].
  split; [apply nth_error_nth'; rewrite length_rev; lia|].
  reflexivity.
Qed.

Lemma rev_compare_monotone :
  internal_monotone (length leaves - 1) (rev_compare nodes).
Proof.
  destruct Hnn as (_ & Hint & _).
  intros q q' p Hqq Hq' Hp1 Hp2. unfold rev_compare.
  rewrite !negb_true_iff, !Z.ltb_ge.
  rewrite !weight_rev by lia. intros H.
  specialize (Hint (length nodes - S q') (length nodes - S q)). lia.
Qed.

Lemma rev_compare_ahead :
  internal_ahead (length leaves - 1) (rev_compare nodes).
Proof.
  destruct Hnn as (_ & _ & Hahead & _).
  intros q Hq. unfold rev_compare.
  rewrite negb_true_iff, Z.ltb_ge, !weight_rev by lia.
  specialize (Hahead (length leaves - 2 - q)).
  replace (S (length leaves - 2 - q))
    with (length nodes - S (length leaves - 1 + q)) in Hahead by lia.
  replace (length leaves + (length leaves - 2 - q))
    with (length nodes - S q) in Hahead by lia.
  apply Hahead. lia.
Qed.

Lemma decoder_compares (dn : list dnode) :
  length dn = length nodes ->
  (forall p q, p < length leaves -> length leaves <= q -> q < length nodes ->
     (header_pos dn q <? header_pos dn p)%Z
     = (weight nodes q <? weight nodes p)%Z) ->
  compares (rev dn) decoder_cmp (length leaves - 1) (rev_compare nodes).
Proof.
  intros Hdn Hcross q p Hq Hp1 Hp2.
  exists (nth q (rev dn) node_default), (nth p (rev dn) node_default).
  split; [apply nth_error_nth'; rewrite length_rev; lia|].
  split; [apply nth_error_nth'; rewrite length_rev; lia|].
  change (negb (weight (rev dn) q <? weight (rev dn) p)%Z
          = negb (weight (rev nodes) q <? weight (rev nodes) p)%Z).
  rewrite !weight_rev by lia. rewrite Hdn.
  f_equal. unfold header_pos in Hcross. unfold weight.
  apply Hcross; lia.
Qed.

(** What [generate_codes] emits for the built array, in the encoder and,
    after the header has been read back, in the decoder. *)
Lemma codes_facts :
  exists hdr out,
    (forall fuel, length nodes <= fuel ->
       header compare_first (@converter_bits Z) fuel nodes = Ret hdr) /\
    length hdr = 16 + length nodes + 8 * length leaves /\
    map fst out = seq (length leaves - 1) (length leaves) /\
    shortest_first out /\
    prefix_free (map snd out) /\
    Forall (fun e => 1 <= code_len e) out /\
    map (fun e => symbol (rev nodes) (fst e)) out = rev (map snd leaves) /\
    encoder_codes compare_first (@get_second Z) nodes (length leaves)
    = Ret (map (fun e => (symbol (rev nodes) (fst e), snd e)) out) /\
    forall payload,
      exists dn,
        decoder_prefixes converter_char (hdr ++ payload)
        = Ret (dn, out, length hdr) /\
        length dn = length nodes /\
        Forall (fun e => symbol (rev dn) (fst e) = symbol (rev nodes) (fst e))
          out.
Proof.
  set (k := length leaves) in *. set (m := k - 1).
  assert (HN : length nodes = 2 * m + 1) by (unfold m; lia).
  assert (Hfirst : firstn k nodes = leaves) by (destruct Hinv; assumption).
  (* the codes of the encoder *)
  destruct (@gen_list_leaves _ (rev nodes) (not2 compare_first) m
              (rev_compare nodes) encoder_compares rev_compare_monotone
              rev_compare_ahead (length nodes) HN)
    as (out & Eout & Hfst); [unfold m; lia|].
  replace (m + 1) with k in Hfst by (unfold m; lia).
  destruct (@gen_list_sorted _ _ _ _ _ _ _ _ _ 0 _ (level_queue_root 0) Eout)
    as [Hshort _].
  assert (Hroot : prefix_free (map snd [(0, @nil ascii)]))
    by (repeat constructor).
  destruct (gen_list_prefix_free _ _ _ _ _ _ _ _ Hroot Eout) as [Hfree _].
  assert (Hout_len : length out = k).
  { rewrite <- (length_map fst out), Hfst. apply length_seq. }
  assert (Hne : Forall (fun e => 1 <= code_len e) out).
  { pose proof (@prefix_free_nonempty (map snd out) Hfree) as H.
    rewrite length_map, Hout_len in H. specialize (H Hk2).
    rewrite Forall_map in H. exact H. }
  assert (Hsym : map (fun e => symbol (rev nodes) (fst e)) out
                 = rev (map snd leaves)).
  { rewrite <- (map_map fst (symbol (rev nodes))), Hfst.
    apply leaf_symbols_rev; [lia|exact Hlen|exact Hfirst]. }
  assert (Hrange : Forall (fun e => fst e < length (rev nodes)) out).
  { rewrite length_rev. apply Forall_forall. intros e He.
    assert (Hin : In (fst e) (map fst out)) by now apply in_map.
    rewrite Hfst in Hin. apply in_seq in Hin. unfold m in *. lia. }
  (* the header and the decoder's array *)
  destruct (@header_read_header impl nodes k) as (hdr & Ehdr & Hhdr & Hread);
    try lia.
  { intros p p' Hp Hp'. apply (leaves_weight_sorted Hk2 Hsorted); assumption. }
  { destruct Hnn as (_ & Hint & _). exact Hint. }
  exists hdr, out.
  split; [exact Ehdr|]. split; [exact Hhdr|]. split; [exact Hfst|].
  split; [exact Hshort|]. split; [exact Hfree|]. split; [exact Hne|].
  split; [exact Hsym|].
  split.
  { unfold encoder_codes. rewrite Hlen.
    replace (2 * k - 1 - k) with m by (unfold m; lia).
    rewrite <- Hlen.
    erewrite generate_codes_gen_list; [|exact Eout].
    rewrite run_callback_st_op; [reflexivity|exact Hrange|].
    simpl. rewrite Hsym. apply NoDup_rev. exact Hnd. }
  intros payload.
  destruct (Hread payload) as (dn & Edn & Hdn & Hleaf & Hcross).
  exists dn.
  assert (Hdiv : length dn / 2 + 1 = k).
  { rewrite Hdn, Hlen. replace (2 * k - 1) with (1 + (k - 1) * 2) by lia.
    rewrite Nat.div_add by lia. simpl. lia. }
  split.
  { unfold decoder_prefixes. rewrite Edn. cbn [bind].
    rewrite std_sort_nil, Hdiv.
    replace (length dn <? k) with false
      by (symmetry; apply Nat.ltb_ge; lia).
    replace (length dn - k) with m by (unfold m; lia).
    rewrite Hdn.
    assert (Eout' : gen_list (rev dn) decoder_cmp (length nodes) m
                      (length nodes - 0) m 1 [(0, [])] = Ret out).
    { rewrite <- Eout. symmetry.
      apply (@gen_list_ext _ _ (rev nodes) (not2 compare_first) (rev dn)
               decoder_cmp m (rev_compare nodes) (length nodes) HN
               encoder_compares (@decoder_compares dn Hdn Hcross)).
      unfold cursors_ok, m. lia. }
    erewrite generate_codes_gen_list; [|exact Eout'].
    rewrite run_callback_prefix_op. reflexivity. }
  split; [exact Hdn|].
  apply Forall_forall. intros e He.
  assert (Hin : In (fst e) (map fst out)) by now apply in_map.
  rewrite Hfst in Hin. apply in_seq in Hin.
  rewrite !symbol_rev by (unfold m in *; lia).
  rewrite Hdn. apply Hleaf. unfold m in *. lia.
Qed.
End Codes.

(** * [compress], step by step *)

Lemma prefix_free_nth (l : list str) :
  prefix_free l ->
  forall i j ci cj, i <> j ->
    nth_error l i = Some ci -> nth_error l j = Some cj -> ~ is_prefix ci cj.
Proof.
  induction 1 as [|x l Hx Hl IH]; intros i j ci cj Hij Hi Hj.
  - destruct i; discriminate.
  - rewrite Forall_forall in Hx.
    destruct i as [|i], j as [|j]; simpl in Hi, Hj.
    + contradiction.
    + injection Hi as <-. apply nth_error_In in Hj. apply (Hx cj Hj).
    + injection Hj as <-. apply nth_error_In in Hi. apply (Hx ci Hi).
    + apply (IH i j); auto.
Qed.

(** Everything [compress] computes on an input with at least two distinct
    symbols, and what the decoder rebuilds from its header. *)
Lemma compress_facts (impl : Implementation) (input : str) :
  2 <= distinct_symbols input ->
  exists fr leaves nodes consumed hdr out,
    (forall fuel, length input < fuel -> frequencies fuel input = Ret fr) /\
    leaves = std_sort compare_first fr /\
    NoDup (map snd leaves) /\
    (forall c, In c (map snd leaves) <-> In c input) /\
    length leaves = distinct_symbols input /\
    length leaves <= 256 /\
    StronglySorted (not_after compare_first) leaves /\
    (forall fuel, length leaves <= fuel ->
       build_huffman_array compare_first merge_first_op fuel leaves
       = Ret nodes) /\
    length nodes = 2 * length leaves - 1 /\
    build_inv leaves nodes (length leaves) (2 * length leaves - 2) consumed /\
    (forall fuel, length nodes <= fuel ->
       header compare_first (@converter_bits Z) fuel nodes = Ret hdr) /\
    length hdr = 16 + length nodes + 8 * length leaves /\
    map fst out = seq (length leaves - 1) (length leaves) /\
    shortest_first out /\
    prefix_free (map snd out) /\
    Forall (fun e => 1 <= code_len e) out /\
    map (fun e => symbol (rev nodes) (fst e)) out = rev (map snd leaves) /\
    encoder_codes compare_first (@get_second Z) nodes (length leaves)
    = Ret (map (fun e => (symbol (rev nodes) (fst e), snd e)) out) /\
    (forall fuel, length input + 2 * length leaves <= fuel ->
       compress fuel input
       = Ret (hdr ++
              flat_map
                (st_index
                   (map (fun e => (symbol (rev nodes) (fst e), snd e)) out))
                input)) /\
    forall payload,
      exists dn,
        decoder_prefixes converter_char (hdr ++ payload)
        = Ret (dn, out, length hdr) /\
        length dn = length nodes /\
        Forall (fun e => symbol (rev dn) (fst e) = symbol (rev nodes) (fst e))
          out.
Proof.
  intros H2.
  destruct (@frequencies_spec impl input)
    as (fr & Efr & Hnd & Hin & Hpos & Hlen).
  pose proof (std_sort_perm compare_first fr) as Hperm.
  pose proof (std_sort_sorted fr compare_first_swo) as Hsorted.
  remember (std_sort compare_first fr) as leaves eqn:Eleaves.
  assert (Hk : length leaves = distinct_symbols input)
    by (now rewrite (Permutation_length Hperm)).
  assert (Hnd' : NoDup (map snd leaves)).
  { eapply Permutation_NoDup; [|exact Hnd].
    apply Permutation_map. now apply Permutation_sym. }
  assert (Hin' : forall c, In c (map snd leaves) <-> In c input).
  { intros c. rewrite <- Hin. split; apply Permutation_in;
      apply Permutation_map; [assumption|now apply Permutation_sym]. }
  assert (H256 : length leaves <= 256).
  { rewrite <- (length_map snd leaves). now apply NoDup_ascii_length. }
  assert (Hpos' : Forall (fun x => (0 <= fst x)%Z) leaves).
  { eapply Permutation_Forall; [apply Permutation_sym; exact Hperm|].
    eapply Forall_impl; [|exact Hpos]. simpl. intros; lia. }
  assert (Hk2 : 2 <= length leaves) by lia.
  destruct (@build_huffman_array_returns leaves Hk2 Hsorted)
    as (nodes & consumed & Ebuild & Hnodes & Hinv & Hnn).
  { assert (Hv : vector_max_size = 576460752303423487%Z) by reflexivity.
    rewrite Hv. lia. }
  specialize (Hnn Hpos').
  assert (Hsmall : 2 * length leaves - 1 < 2 ^ 16).
  { assert (E : 512 <= 2 ^ 16) by (apply Nat.leb_le; reflexivity). lia. }
  destruct (@codes_facts impl leaves nodes consumed Hk2 Hnodes Hsmall Hinv
              Hnn Hsorted Hnd')
    as (hdr & out & Ehdr & Hhdr & Hfst & Hshort & Hfree & Hne & Hsym &
        Ecodes & Hdec).
  exists fr, leaves, nodes, consumed, hdr, out.
  repeat (split; [assumption|]).
  split; [|exact Hdec].
  intros fuel Hfuel. unfold compress.
  rewrite Efr by lia. cbn [bind]. rewrite <- Eleaves.
  unfold huffman_encoder.
  rewrite Ebuild by lia. cbn [bind].
  rewrite Ehdr by lia. cbn [bind].
  rewrite Ecodes. cbn [bind].
  now rewrite encode_input_spec.
Qed.

(** * Sorting by code length *)

Lemma insertion_sort_sorted_id (A : Type) (lt : A -> A -> bool) (l : list A) :
  StronglySorted (not_after lt) l -> insertion_sort lt l = l.
Proof.
  induction 1 as [|x l Hs IH Hx]; simpl; [reflexivity|].
  rewrite IH. destruct l as [|y l]; [reflexivity|]. simpl.
  inversion Hx as [|? ? Hxy _]; subst. unfold not_after in Hxy.
  now rewrite Hxy.
Qed.

Lemma shortest_first_not_after (l : list (nat * str)) :
  shortest_first l <-> StronglySorted (not_after shorter_code) l.
Proof.
  unfold shortest_first.
  assert (H : forall x y, code_len x <= code_len y <->
                          not_after shorter_code x y).
  { intros x y. unfold not_after, shorter_code, code_len.
    rewrite Nat.ltb_ge. reflexivity. }
  split; induction 1 as [|x l' Hs IH Hx]; constructor; auto;
    (eapply Forall_impl; [|exact Hx]); intros y; apply H.
Qed.

(** Entries of equal code length keep their order. *)
Lemma sort_by_code_length_stable (n : nat) (l : list (nat * str)) :
  filter (fun e => code_len e =? n) (sort_by_code_length l)
  = filter (fun e => code_len e =? n) l.
Proof.
  unfold sort_by_code_length.
  assert (Hins : forall x s,
            filter (fun e => code_len e =? n) (insert_sorted shorter_code x s)
            = filter (fun e => code_len e =? n) (x :: s)).
  { intros x s. induction s as [|y s IH]; [reflexivity|].
    cbn [insert_sorted]. destruct (shorter_code y x) eqn:E; [|reflexivity].
    cbn [filter] in *. rewrite IH.
    unfold shorter_code in E. apply Nat.ltb_lt in E. fold (code_len y) in E.
    fold (code_len x) in E.
    destruct (Nat.eqb_spec (code_len x) n), (Nat.eqb_spec (code_len y) n);
      try reflexivity. lia. }
  induction l as [|x l IH]; [reflexivity|].
  cbn [insertion_sort]. rewrite Hins. cbn [filter]. now rewrite IH.
Qed.

Lemma sort_by_code_length_sorted (l : list (nat * str)) :
  shortest_first (sort_by_code_length l).
Proof.
  apply shortest_first_not_after. apply insertion_sort_sorted.
  unfold strict_weak_order, shorter_code. repeat split.
  - intros x. apply Nat.ltb_irrefl.
  - intros x y z H1 H2. apply Nat.ltb_lt in H1, H2. apply Nat.ltb_lt. lia.
  - intros x y z H1 H2. apply Nat.ltb_ge in H1, H2. apply Nat.ltb_ge. lia.
Qed.

(** * The properties of the codec *)

(** C1.  Round trip: for every input with at least two distinct symbols
    (such an input is not empty), [compress] returns a bit string and
    [decompress] of that bit string returns the input. *)
Theorem compress_decompress_roundtrip (impl : Implementation) (input : str) :
  2 <= distinct_symbols input ->
  exists bits,
    returns (fun fuel => compress fuel input) bits /\
    returns (fun fuel => decompress fuel bits) input.
Proof.
  intros H2.
  destruct (compress_facts impl input H2)
    as (fr & leaves & nodes & consumed & hdr & out & Efr & Eleaves & Hnd &
        Hin & Hk & H256 & Hsorted & Ebuild & Hnodes & Hinv & Ehdr & Hhdr &
        Hfst & Hshort & Hfree & Hne & Hsym & Ecodes & Ecompress & Hdec).
  set (st := map (fun e => (symbol (rev nodes) (fst e), snd e)) out) in *.
  exists (hdr ++ flat_map (st_index st) input). split.
  - exists (length input + 2 * length leaves). exact Ecompress.
  - destruct (Hdec (flat_map (st_index st) input)) as (dn & Edn & Hdn & Hsame).
    exists (length input). intros fuel Hfuel.
    unfold decompress, huffman_decoder. rewrite Edn. cbn [bind].
    assert (Hst : map (fun e => (symbol (rev dn) (fst e), snd e)) out = st).
    { unfold st. apply map_ext_in. intros e He.
      rewrite Forall_forall in Hsame. now rewrite (Hsame e He). }
    assert (Hkeys : map fst st = rev (map snd leaves)).
    { unfold st. rewrite map_map. simpl. exact Hsym. }
    assert (Hrange : Forall (fun e => fst e < length (rev dn)) out).
    { rewrite length_rev, Hdn. apply Forall_forall. intros e He.
      assert (Hp : In (fst e) (map fst out)) by now apply in_map.
      rewrite Hfst in Hp. apply in_seq in Hp. lia. }
    pose proof (@decode_loop_spec (rev dn) out Hshort Hfree Hne Hrange) as Hd.
    cbv zeta in Hd. rewrite Hst in Hd.
    apply (Hd ltac:(rewrite Hkeys; apply NoDup_rev; exact Hnd)
              input hdr [] fuel); [|exact Hfuel].
    intros s Hs. rewrite Hkeys, <- in_rev. now apply Hin.
Qed.

(** C2.  The encoder's table and the decoder's candidates agree: for every
    input with at least two distinct symbols, the table [st] that the
    encoder fills by [generate_codes] over the built array (with
    [std::not2(cmp)]) lists, entry by entry, the symbols and codes of the
    (leaf, code) pairs that the decoder generates from the header of the
    compressed stream.  Both come from the one [generate_codes], which
    appends '1' for the first child it picks and '0' for the second. *)
Theorem encoder_decoder_same_codes (impl : Implementation) (input : str) :
  2 <= distinct_symbols input ->
  exists fr nodes bits st dn prefixes current,
    returns (fun fuel => frequencies fuel input) fr /\
    returns (fun fuel =>
               build_huffman_array compare_first merge_first_op fuel
                 (std_sort compare_first fr)) nodes /\
    returns (fun fuel => compress fuel input) bits /\
    encoder_codes compare_first (@get_second Z) nodes (length fr) = Ret st /\
    decoder_prefixes converter_char bits = Ret (dn, prefixes, current) /\
    st = map (fun e => (symbol (rev dn) (fst e), snd e)) prefixes.
Proof.
  intros H2.
  destruct (compress_facts impl input H2)
    as (fr & leaves & nodes & consumed & hdr & out & Efr & Eleaves & Hnd &
        Hin & Hk & H256 & Hsorted & Ebuild & Hnodes & Hinv & Ehdr & Hhdr &
        Hfst & Hshort & Hfree & Hne & Hsym & Ecodes & Ecompress & Hdec).
  set (st := map (fun e => (symbol (rev nodes) (fst e), snd e)) out) in *.
  destruct (Hdec (flat_map (st_index st) input)) as (dn & Edn & Hdn & Hsame).
  assert (Hlen : length leaves = length fr).
  { rewrite Eleaves. apply Permutation_length, std_sort_perm. }
  exists fr, nodes, (hdr ++ flat_map (st_index st) input), st, dn, out,
    (length hdr).
  split; [exists (S (length input)); intros; apply Efr; lia|].
  split; [exists (length leaves); rewrite <- Eleaves; exact Ebuild|].
  split; [exists (length input + 2 * length leaves); exact Ecompress|].
  split; [rewrite <- Hlen; exact Ecodes|].
  split; [exact Edn|].
  unfold st. apply map_ext_in. intros e He.
  rewrite Forall_forall in Hsame. now rewrite (Hsame e He).
Qed.

(** C3.  The merge array: from [k >= 2] leaves sorted by weight,
    [build_huffman_array] returns an array of [2k - 1] nodes whose first
    [k] are the leaves as given; the others were appended one at a time,
    each the combination of the two smallest nodes not consumed before
    ([merge_array]); every node but the last is consumed, and the last,
    the root, weighs as much as all the leaves together.  The array must
    fit a vector, and the weights must be small enough for their sums to
    be sums of [ptrdiff_t]: their absolute values add up to at most
    [ptrdiff_max].  Then every weight of the array is in the range of
    [ptrdiff_t], so that no addition overflowed. *)
Theorem build_huffman_array_merge_array (leaves : list node) :
  2 <= length leaves ->
  (Z.of_nat (2 * length leaves - 1) <= vector_max_size)%Z ->
  (abs_weight leaves <= ptrdiff_max)%Z ->
  StronglySorted (not_after compare_first) leaves ->
  exists nodes consumed,
    returns (fun fuel =>
               build_huffman_array compare_first merge_first_op fuel leaves)
      nodes /\
    length nodes = 2 * length leaves - 1 /\
    firstn (length leaves) nodes = leaves /\
    merge_array leaves nodes consumed /\
    (forall z, In z consumed <-> z < 2 * length leaves - 2) /\
    weight nodes (2 * length leaves - 2) = zsum (map fst leaves) /\
    Forall (fun x => in_ptrdiff (fst x)) nodes.
Proof.
  intros Hk Hmax Hfit Hsorted.
  destruct (build_huffman_array_returns Hk Hsorted Hmax)
    as (nodes & consumed & Ebuild & Hlen & Hinv & _).
  pose proof Hinv as (Hfirst & _ & _ & _ & _ & _ & Hcons & Hma & _).
  assert (Hall : forall z, In z consumed <-> z < 2 * length leaves - 2).
  { intros z. rewrite Hcons. lia. }
  exists nodes, consumed.
  split; [exists (length leaves); exact Ebuild|].
  split; [exact Hlen|]. split; [exact Hfirst|]. split; [exact Hma|].
  split; [exact Hall|].
  split; [apply (merge_array_root_weight Hma); [lia|exact Hall]|].
  exact (merge_array_in_ptrdiff Hma Hfit).
Qed.

(** C4.  The code table is prefix-free: for every input with at least two
    distinct symbols, no code of the table that [generate_codes] fills is
    a prefix of the code at another entry, and the table has exactly one
    entry for each leaf. *)
Theorem generated_codes_prefix_free (impl : Implementation) (input : str) :
  2 <= distinct_symbols input ->
  exists fr nodes st,
    returns (fun fuel => frequencies fuel input) fr /\
    returns (fun fuel =>
               build_huffman_array compare_first merge_first_op fuel
                 (std_sort compare_first fr)) nodes /\
    encoder_codes compare_first (@get_second Z) nodes (length fr) = Ret st /\
    (forall i j ci cj, i <> j ->
       nth_error (map snd st) i = Some ci ->
       nth_error (map snd st) j = Some cj ->
       ~ is_prefix ci cj) /\
    NoDup (map fst st) /\
    Permutation (map fst st) (map snd fr).
Proof.
  intros H2.
  destruct (compress_facts impl input H2)
    as (fr & leaves & nodes & consumed & hdr & out & Efr & Eleaves & Hnd &
        Hin & Hk & H256 & Hsorted & Ebuild & Hnodes & Hinv & Ehdr & Hhdr &
        Hfst & Hshort & Hfree & Hne & Hsym & Ecodes & Ecompress & Hdec).
  set (st := map (fun e => (symbol (rev nodes) (fst e), snd e)) out) in *.
  assert (Hperm : Permutation leaves fr)
    by (rewrite Eleaves; apply std_sort_perm).
  assert (Hkeys : map fst st = rev (map snd leaves)).
  { unfold st. rewrite map_map. simpl. exact Hsym. }
  assert (Hcodes : map snd st = map snd out).
  { unfold st. rewrite map_map. reflexivity. }
  exists fr, nodes, st.
  split; [exists (S (length input)); intros; apply Efr; lia|].
  split; [exists (length leaves); rewrite <- Eleaves; exact Ebuild|].
  split; [rewrite <- (Permutation_length Hperm); exact Ecodes|].
  split; [rewrite Hcodes; now apply prefix_free_nth|].
  split; [rewrite Hkeys; now apply NoDup_rev|].
  rewrite Hkeys. rewrite <- Permutation_rev. now apply Permutation_map.
Qed.

(** C5.  Header size law: for every input with [k >= 2] distinct symbols
    the output of [compress] is the header followed by the encoded input,
    and the header has [16 + (2k - 1) + 8k] characters: 16 for the node
    count, one shape bit for each of the [2k - 1] nodes, 8 for the symbol
    of each leaf. *)
Theorem header_size_law (impl : Implementation) (input : str) :
  2 <= distinct_symbols input ->
  exists fr nodes hdr st bits,
    returns (fun fuel => frequencies fuel input) fr /\
    returns (fun fuel =>
               build_huffman_array compare_first merge_first_op fuel
                 (std_sort compare_first fr)) nodes /\
    returns (fun fuel =>
               header compare_first (@converter_bits Z) fuel nodes) hdr /\
    encoder_codes compare_first (@get_second Z) nodes (length fr) = Ret st /\
    returns (fun fuel => compress fuel input) bits /\
    bits = hdr ++ flat_map (st_index st) input /\
    length nodes = 2 * distinct_symbols input - 1 /\
    length hdr
    = 16 + (2 * distinct_symbols input - 1) + 8 * distinct_symbols input.
Proof.
  intros H2.
  destruct (compress_facts impl input H2)
    as (fr & leaves & nodes & consumed & hdr & out & Efr & Eleaves & Hnd &
        Hin & Hk & H256 & Hsorted & Ebuild & Hnodes & Hinv & Ehdr & Hhdr &
        Hfst & Hshort & Hfree & Hne & Hsym & Ecodes & Ecompress & Hdec).
  set (st := map (fun e => (symbol (rev nodes) (fst e), snd e)) out) in *.
  assert (Hlen : length leaves = length fr).
  { rewrite Eleaves. apply Permutation_length, std_sort_perm. }
  exists fr, nodes, hdr, st, (hdr ++ flat_map (st_index st) input).
  split; [exists (S (length input)); intros; apply Efr; lia|].
  split; [exists (length leaves); rewrite <- Eleaves; exact Ebuild|].
  split; [exists (length nodes); exact Ehdr|].
  split; [rewrite <- Hlen; exact Ecodes|].
  split; [exists (length input + 2 * length leaves); exact Ecompress|].
  split; [reflexivity|].
  rewrite Hhdr, Hnodes, Hk. split; reflexivity.
Qed.

(** C6.  Tie-break of [next_node] in tree construction: when both
    frontiers are non-empty, the internal-node frontier [f1] is taken
    exactly when its head is strictly lighter than the head of the leaf
    frontier [f0]; in particular the leaf is taken when the weights are
    equal. *)
Theorem next_node_tie_prefers_leaf (nodes : list node)
    (f0 l0 f1 l1 : nat) (a0 a1 : node) :
  f0 <> l0 -> f1 <> l1 ->
  nth_error nodes f0 = Some a0 -> nth_error nodes f1 = Some a1 ->
  (fst a1 = fst a0 ->
   next_node nodes compare_first f0 l0 f1 l1 = Ret (f0, S f0, f1)) /\
  (next_node nodes compare_first f0 l0 f1 l1 = Ret (f1, f0, S f1)
   <-> (fst a1 < fst a0)%Z) /\
  (next_node nodes compare_first f0 l0 f1 l1 = Ret (f0, S f0, f1)
   <-> (fst a0 <= fst a1)%Z).
Proof.
  intros H0 H1 E0 E1.
  rewrite (@next_node_both _ nodes compare_first f0 l0 f1 l1 a0 a1 H0 H1 E0 E1).
  unfold compare_first.
  destruct (Z.ltb_spec (fst a1) (fst a0)) as [Hlt|Hge].
  - split; [intros; lia|]. split.
    + split; [intros _; exact Hlt|reflexivity].
    + split; [|intros; lia]. intros H. injection H as ? ? ?. lia.
  - split; [reflexivity|]. split.
    + split; [|intros; lia]. intros H. injection H as ? ? ?. lia.
    + split; [intros _; exact Hge|reflexivity].
Qed.

(** C7.  When matching begins the candidates are in ascending order of
    code length, equal lengths in generation order: the list [prefixes]
    that [decoder_prefixes] hands to the matching loop is the generated
    list sorted stably by code length.  ([std::sort] runs before
    [generate_codes] fills the list, on the empty list; the order comes
    from [generate_codes] itself.) *)
Theorem decoder_candidates_shortest_first (impl : Implementation)
    (input : str) (dn : list dnode) (prefixes : list (nat * str))
    (current : nat) :
  decoder_prefixes converter_char input = Ret (dn, prefixes, current) ->
  exists generated,
    generate_codes (rev dn) decoder_cmp (length dn)
      (length dn - (length dn / 2 + 1)) prefix_op
      (length dn - (length dn / 2 + 1)) 0 [] = Ret generated /\
    prefixes = sort_by_code_length generated /\
    shortest_first prefixes.
Proof.
  unfold decoder_prefixes. intros H.
  inv_bind H. destruct r as [dn' cur]. cbn zeta in Hb.
  rewrite std_sort_nil in Hb.
  destruct (length dn' <? length dn' / 2 + 1); [discriminate|].
  inv_bind Hb. injection Hbb as <- <- <-.
  pose proof (generate_codes_prefix_op _ _ _ _ _ _ Hba) as Hgen.
  destruct (gen_list_sorted _ _ _ _ _ _ _ (level_queue_root 0) Hgen)
    as [Hshort _].
  exists r. split; [exact Hba|]. split; [|exact Hshort].
  unfold sort_by_code_length. symmetry. apply insertion_sort_sorted_id.
  now apply shortest_first_not_after.
Qed.

(** C10.  [generate_codes] calls its callback on codes of non-decreasing
    length: the entries it emits, collected in order by [prefix_op], are
    in ascending order of code length, and with any callback [f] it calls
    [f] on exactly these entries in this order. *)
Theorem generate_codes_emits_shortest_first (T : Type) (v : list T)
    (cmp : T -> T -> bool) (l0 l1 f0 f1 : nat) (out : list (nat * str)) :
  generate_codes v cmp l0 l1 prefix_op f0 f1 [] = Ret out ->
  shortest_first out /\
  forall (St : Type) (f : nat * str -> St -> result St) (s : St),
    generate_codes v cmp l0 l1 f f0 f1 s = run_callback f out s.
Proof.
  intros H. apply generate_codes_prefix_op in H. split.
  - now destruct (gen_list_sorted _ _ _ _ _ _ _ (level_queue_root f1) H).
  - intros St f s. now apply generate_codes_gen_list.
Qed.

(** * Where the code has no error path *)

(** C8.  Fewer than two distinct symbols: [compress] has no
    [InsufficientAlphabet] error.  On the empty input
    [nodes.reserve(size * 2 - 1)] is asked for [2^64 - 1] elements and
    throws [std::length_error]; on an input with one distinct symbol, such
    as "aaaa", [build_huffman_array] reads [nodes[1]] of a one-element
    vector, which is undefined behaviour. *)
Theorem compress_insufficient_alphabet (impl : Implementation) (input : str) :
  distinct_symbols input < 2 ->
  forall fuel, length input < fuel ->
    (input = [] /\ compress fuel input = Throw length_error) \/
    (input <> [] /\ compress fuel input = Undefined).
Proof.
  intros Hlt fuel Hfuel.
  destruct (@frequencies_spec impl input)
    as (fr & Efr & Hnd & Hin & Hpos & Hlen).
  pose proof (std_sort_perm compare_first fr) as Hperm.
  unfold compress. rewrite Efr by lia. cbn [bind].
  destruct fr as [|x [|y fr]].
  - left. split.
    + destruct input as [|c input]; [reflexivity|].
      exfalso. apply (proj2 (Hin c)). now left.
    + rewrite std_sort_nil. reflexivity.
  - right. split.
    + intros ->. apply (proj1 (Hin (snd x))). now left.
    + apply Permutation_sym, Permutation_length_1_inv in Hperm.
      rewrite Hperm. reflexivity.
  - simpl in Hlen. lia.
Qed.

Lemma read_header_abc (impl : Implementation) (payload : str) :
  read_header converter_char (header_abc ++ payload)
  = Ret ([(0%Z, "a"%char); (1%Z, "b"%char); (2%Z, "c"%char);
          (3%Z, uninit 3); (4%Z, uninit 4)], 45).
Proof. reflexivity. Qed.

Lemma decoder_prefixes_abc (impl : Implementation) (payload : str) :
  decoder_prefixes converter_char (header_abc ++ payload)
  = Ret ([(0%Z, "a"%char); (1%Z, "b"%char); (2%Z, "c"%char);
          (3%Z, uninit 3); (4%Z, uninit 4)],
         [(2, [c0]); (3, [c1; c1]); (4, [c1; c0])], 45).
Proof.
  unfold decoder_prefixes. rewrite read_header_abc. cbn [bind].
  rewrite std_sort_nil. reflexivity.
Qed.

(** The state the decoder cannot leave: two characters read, no candidate
    matches them, one character left. *)
Lemma decode_loop_stuck (rnodes : list dnode) :
  forall fuel,
    decode_loop fuel unmatched_stream rnodes
      [(2, [c0]); (3, [c1; c1]); (4, [c1; c0])]
      ["2"%char; "2"%char] 47 []
    = OutOfFuel.
Proof.
  induction fuel as [|fuel IH]; [reflexivity|].
  rewrite decode_loop_eq.
  change (47 =? length unmatched_stream) with false. cbv iota.
  change (match_prefix unmatched_stream
            [(2, [c0]); (3, [c1; c1]); (4, [c1; c0])]
            ["2"%char; "2"%char] 47)
    with (@Ret (option nat * str * nat) (None, ["2"%char; "2"%char], 47)).
  cbn [bind]. exact IH.
Qed.

(** C9.  A payload that matches no candidate: [decompress] has no
    [MalformedPayload] error.  When the payload stops inside a code the
    loop reads [*current] at [input.end()], which is undefined behaviour;
    when its characters match no code and some are left, the loop goes
    round for ever without reading on; when none is left, the loop ends
    and the unmatched characters are dropped without a word. *)
Theorem decompress_malformed_payload (impl : Implementation) :
  (forall fuel, decompress (S fuel) truncated_stream = Undefined) /\
  diverges (fun fuel => decompress fuel unmatched_stream) /\
  (forall fuel, decompress (S fuel) dropped_stream = Ret []).
Proof.
  split; [|split].
  - intros fuel. unfold decompress, huffman_decoder, truncated_stream.
    rewrite decoder_prefixes_abc. reflexivity.
  - intros fuel. unfold decompress, huffman_decoder.
    unfold unmatched_stream at 1. rewrite decoder_prefixes_abc. cbn [bind].
    destruct fuel as [|fuel]; [reflexivity|].
    rewrite decode_loop_eq.
    change (45 =? length unmatched_stream) with false. cbv iota.
    change (match_prefix unmatched_stream
              [(2, [c0]); (3, [c1; c1]); (4, [c1; c0])] [] 45)
      with (@Ret (option nat * str * nat) (None, ["2"%char; "2"%char], 47)).
    cbn [bind]. apply decode_loop_stuck.
  - intros fuel. unfold decompress, huffman_decoder, dropped_stream.
    rewrite decoder_prefixes_abc. cbn [bind].
    rewrite decode_loop_eq.
    change (45 =? length (header_abc ++ ["2"%char; "2"%char])) with false.
    cbv iota.
    change (match_prefix (header_abc ++ ["2"%char; "2"%char])
              [(2, [c0]); (3, [c1; c1]); (4, [c1; c0])] [] 45)
      with (@Ret (option nat * str * nat) (None, ["2"%char; "2"%char], 47)).
    cbn [bind]. rewrite decode_loop_eq. reflexivity.
Qed.

(** * The properties at sample inputs *)

(** [header_abc] is the header of the compressed "abc". *)
Example compress_abc :
  @compress reference_implementation 10 abc
  = Ret (header_abc ++ [c1; c0; c1; c1; c0]).
Proof. reflexivity. Qed.

Lemma compress_decompress_roundtrip_witness :
  2 <= distinct_symbols abc /\
  exists bits,
    returns (fun fuel => @compress reference_implementation fuel abc) bits /\
    returns (fun fuel => @decompress reference_implementation fuel bits) abc.
Proof.
  split; [vm_compute; lia|].
  apply (@compress_decompress_roundtrip reference_implementation abc).
  vm_compute; lia.
Defined.

Lemma encoder_decoder_same_codes_witness :
  2 <= distinct_symbols abc /\
  exists fr nodes bits st dn prefixes current,
    returns (fun fuel => @frequencies reference_implementation fuel abc) fr /\
    returns (fun fuel =>
               build_huffman_array compare_first merge_first_op fuel
                 (insertion_sort compare_first fr)) nodes /\
    returns (fun fuel => @compress reference_implementation fuel abc) bits /\
    encoder_codes compare_first (@get_second Z) nodes (length fr) = Ret st /\
    @decoder_prefixes reference_implementation converter_char bits
    = Ret (dn, prefixes, current) /\
    st = map (fun e => (symbol (rev dn) (fst e), snd e)) prefixes.
Proof.
  split; [vm_compute; lia|].
  apply (@encoder_decoder_same_codes reference_implementation abc).
  vm_compute; lia.
Defined.

Lemma build_huffman_array_merge_array_witness :
  2 <= length sample_leaves /\
  exists nodes consumed,
    returns (fun fuel =>
               build_huffman_array compare_first merge_first_op fuel
                 sample_leaves) nodes /\
    length nodes = 2 * length sample_leaves - 1 /\
    firstn (length sample_leaves) nodes = sample_leaves /\
    merge_array sample_leaves nodes consumed /\
    (forall z, In z consumed <-> z < 2 * length sample_leaves - 2) /\
    weight nodes (2 * length sample_leaves - 2)
    = zsum (map fst sample_leaves) /\
    Forall (fun x => in_ptrdiff (fst x)) nodes.
Proof.
  split; [simpl; lia|].
  apply (@build_huffman_array_merge_array sample_leaves).
  - simpl; lia.
  - vm_compute. discriminate.
  - vm_compute. discriminate.
  - repeat constructor.
Defined.

Lemma generated_codes_prefix_free_witness :
  2 <= distinct_symbols abc /\
  exists fr nodes st,
    returns (fun fuel => @frequencies reference_implementation fuel abc) fr /\
    returns (fun fuel =>
               build_huffman_array compare_first merge_first_op fuel
                 (insertion_sort compare_first fr)) nodes /\
    encoder_codes compare_first (@get_second Z) nodes (length fr) = Ret st /\
    (forall i j ci cj, i <> j ->
       nth_error (map snd st) i = Some ci ->
       nth_error (map snd st) j = Some cj ->
       ~ is_prefix ci cj) /\
    NoDup (map fst st) /\
    Permutation (map fst st) (map snd fr).
Proof.
  split; [vm_compute; lia|].
  apply (@generated_codes_prefix_free reference_implementation abc).
  vm_compute; lia.
Defined.

Lemma header_size_law_witness :
  2 <= distinct_symbols abc /\
  exists fr nodes hdr st bits,
    returns (fun fuel => @frequencies reference_implementation fuel abc) fr /\
    returns (fun fuel =>
               build_huffman_array compare_first merge_first_op fuel
                 (insertion_sort compare_first fr)) nodes /\
    returns (fun fuel =>
               header compare_first (@converter_bits Z) fuel nodes) hdr /\
    encoder_codes compare_first (@get_second Z) nodes (length fr) = Ret st /\
    returns (fun fuel => @compress reference_implementation fuel abc) bits /\
    bits = hdr ++ flat_map (st_index st) abc /\
    length nodes = 2 * distinct_symbols abc - 1 /\
    length hdr = 16 + (2 * distinct_symbols abc - 1) + 8 * distinct_symbols abc.
Proof.
  split; [vm_compute; lia|].
  apply (@header_size_law reference_implementation abc).
  vm_compute; lia.
Defined.

Lemma next_node_tie_prefers_leaf_witness :
  next_node tie_nodes compare_first 2 3 3 4 = Ret (2, 3, 3).
Proof.
  apply (@next_node_tie_prefers_leaf tie_nodes 2 3 3 4
           (2%Z, "c"%char) (2%Z, char_zero));
    [lia|lia|reflexivity|reflexivity|reflexivity].
Defined.

Lemma decoder_candidates_shortest_first_witness :
  exists generated,
    generate_codes (rev abc_dnodes) decoder_cmp (length abc_dnodes)
      (length abc_dnodes - (length abc_dnodes / 2 + 1)) prefix_op
      (length abc_dnodes - (length abc_dnodes / 2 + 1)) 0 [] = Ret generated /\
    abc_prefixes = sort_by_code_length generated /\
    shortest_first abc_prefixes.
Proof.
  apply (@decoder_candidates_shortest_first reference_implementation
           (header_abc ++ [c1; c0; c1; c1; c0]) abc_dnodes abc_prefixes 45).
  reflexivity.
Defined.

Lemma generate_codes_emits_shortest_first_witness :
  shortest_first abc_prefixes /\
  forall (St : Type) (f : nat * str -> St -> result St) (s : St),
    generate_codes (rev abc_dnodes) decoder_cmp 5 2 f 2 0 s
    = run_callback f abc_prefixes s.
Proof.
  apply (@generate_codes_emits_shortest_first _ (rev abc_dnodes) decoder_cmp
           5 2 2 0 abc_prefixes).
  reflexivity.
Defined.

Lemma compress_insufficient_alphabet_witness :
  (aaaa = [] /\
   @compress reference_implementation 5 aaaa = Throw length_error) \/
  (aaaa <> [] /\ @compress reference_implementation 5 aaaa = Undefined).
Proof.
  apply (@compress_insufficient_alphabet reference_implementation aaaa);
    [vm_compute; lia|simpl; lia].
Defined.

(** * More of the program: counting, converting, merging *)

(** ** Run lengths and the frequency table *)

(** X1.  [adjacent_count] returns the length of the longest run of equal
    elements that starts at [first], and the position after that run: the
    count is zero exactly on the empty range; otherwise the range is the
    first element repeated count times followed by the returned rest, and
    the rest does not start with that element. *)
Theorem adjacent_count_run (s : str) :
  exists n r,
    adjacent_count s = (Z.of_nat n, r) /\
    (n = 0 <-> s = []) /\
    forall a, hd_error s = Some a ->
      s = repeat a n ++ r /\ hd_error r <> Some a.
Proof.
  destruct s as [|a s].
  - exists 0, []. split; [reflexivity|]. split; [tauto|]. discriminate.
  - destruct (adjacent_count_spec a s) as (m & r & Ec & Es & Hr).
    exists (S m), r. split; [exact Ec|]. split.
    + split; [lia|discriminate].
    + intros a' Ha. injection Ha as <-. split; [exact Es|].
      destruct r as [|b r']; [discriminate|].
      simpl. intros E. injection E as ->. now apply (Hr a r').
Qed.

(** [unique_copy_with_count] writes one entry for each run. *)
Lemma unique_copy_with_count_runs :
  forall n s, length s <= n ->
    exists fr,
      (forall fuel out, n < fuel ->
         unique_copy_with_count fuel s out = Ret (out ++ fr)) /\
      expand fr = s /\
      Forall (fun e => (1 <= fst e)%Z) fr /\
      (forall e, hd_error fr = Some e -> hd_error s = Some (snd e)) /\
      (forall i a b,
         nth_error (map snd fr) i = Some a ->
         nth_error (map snd fr) (S i) = Some b -> a <> b).
Proof.
  induction n as [|n IH]; intros s Hn.
  - destruct s; [|simpl in Hn; lia]. exists []. split.
    + intros [|fuel] out Hf; [lia|]. simpl. now rewrite app_nil_r.
    + split; [reflexivity|]. split; [constructor|].
      split; [discriminate|]. intros [|i]; discriminate.
  - destruct s as [|a s].
    + exists []. split.
      * intros [|fuel] out Hf; [lia|]. simpl. now rewrite app_nil_r.
      * split; [reflexivity|]. split; [constructor|].
        split; [discriminate|]. intros [|i]; discriminate.
    + destruct (adjacent_count_spec a s) as (m & r & Ec & Es & Hr).
      assert (Hlen : length r <= n).
      { apply (f_equal (@length ascii)) in Es.
        rewrite length_app, repeat_length in Es. simpl in *. lia. }
      destruct (IH r Hlen) as (fr & Hret & Hexp & Hpos & Hhd & Hadj).
      exists ((Z.of_nat (S m), a) :: fr). split.
      { intros [|fuel] out Hf; [lia|].
        cbn [unique_copy_with_count]. rewrite Ec. cbn [fst snd].
        replace (Z.of_nat (S m) =? 0)%Z with false
          by (symmetry; apply Z.eqb_neq; lia).
        cbn [deref nth_error bind].
        rewrite Hret by lia. now rewrite <- app_assoc. }
      split.
      { unfold expand in *. cbn [flat_map fst snd].
        rewrite Nat2Z.id, Hexp. symmetry. exact Es. }
      split; [constructor; [simpl; lia|exact Hpos]|].
      split; [intros e He; injection He as <-; reflexivity|].
      intros [|i] x y Hx Hy.
      * cbn [map snd nth_error] in Hx, Hy. injection Hx as <-.
        destruct fr as [|e fr']; [discriminate|].
        cbn [map nth_error] in Hy. injection Hy as <-.
        specialize (Hhd e eq_refl).
        destruct r as [|b r']; [discriminate|].
        injection Hhd as Hb. rewrite <- Hb. intros E.
        apply (Hr b r' eq_refl). now symmetry.
      * cbn [map nth_error] in Hx, Hy. now apply (Hadj i).
Qed.

(** X2.  [unique_copy_with_count] run-length encodes any sequence, sorted
    or not: it returns, what it appends to the output expands back to the
    sequence, every count is positive, and neighbouring entries carry
    different symbols. *)
Theorem unique_copy_with_count_expand (s : str) (out : list node) :
  exists fr,
    returns (fun fuel => unique_copy_with_count fuel s out) (out ++ fr) /\
    expand fr = s /\
    Forall (fun e => (1 <= fst e)%Z) fr /\
    forall i a b,
      nth_error (map snd fr) i = Some a ->
      nth_error (map snd fr) (S i) = Some b -> a <> b.
Proof.
  destruct (@unique_copy_with_count_runs (length s) s (le_n _))
    as (fr & Hret & Hexp & Hpos & _ & Hadj).
  exists fr. split.
  - exists (S (length s)). intros fuel Hf. apply Hret. lia.
  - repeat split; assumption.
Qed.

Lemma expand_cons (n : Z) (c : ascii) (fr : list node) :
  expand ((n, c) :: fr) = repeat c (Z.to_nat n) ++ expand fr.
Proof. reflexivity. Qed.

Lemma In_expand (fr : list node) (c : ascii) :
  Forall (fun e => (1 <= fst e)%Z) fr ->
  (In c (expand fr) <-> In c (map snd fr)).
Proof.
  induction 1 as [|[n a] fr Hn Hfr IH].
  - simpl. tauto.
  - rewrite expand_cons, in_app_iff, IH. cbn [map snd fst] in *. split.
    + intros [H|H]; [left; symmetry; eapply repeat_spec; exact H|now right].
    + intros [<-|H]; [left|now right].
      destruct (Z.to_nat n) as [|k] eqn:E; [lia|]. now left.
Qed.

Lemma length_expand (fr : list node) :
  Forall (fun e => (1 <= fst e)%Z) fr ->
  Z.of_nat (length (expand fr)) = zsum (map fst fr).
Proof.
  induction 1 as [|[n a] fr Hn Hfr IH]; [reflexivity|].
  rewrite expand_cons, length_app, repeat_length. cbn [map fst zsum fold_right].
  fold (zsum (map fst fr)). simpl in Hn. lia.
Qed.

Lemma count_occ_repeat_eq (c : ascii) (n : nat) :
  count_occ ascii_dec (repeat c n) c = n.
Proof.
  induction n as [|n IH]; [reflexivity|].
  simpl. destruct (ascii_dec c c); [now rewrite IH|contradiction].
Qed.

Lemma count_occ_repeat_neq (a c : ascii) (n : nat) :
  a <> c -> count_occ ascii_dec (repeat a n) c = 0.
Proof.
  intros H. induction n as [|n IH]; [reflexivity|].
  simpl. destruct (ascii_dec a c); [contradiction|exact IH].
Qed.

Lemma count_occ_expand (fr : list node) (n : Z) (c : ascii) :
  NoDup (map snd fr) -> Forall (fun e => (1 <= fst e)%Z) fr ->
  In (n, c) fr -> Z.of_nat (count_occ ascii_dec (expand fr) c) = n.
Proof.
  induction fr as [|[n' a] fr IH]; intros Hnd Hpos Hin; [destruct Hin|].
  cbn [map snd] in Hnd. inversion Hnd as [|? ? Ha Hnd']; subst.
  inversion Hpos as [|? ? Hn' Hpos']; subst. cbn [fst] in Hn'.
  rewrite expand_cons, count_occ_app. destruct Hin as [E|Hin].
  - injection E as -> ->. rewrite count_occ_repeat_eq.
    replace (count_occ ascii_dec (expand fr) c) with 0; [lia|].
    symmetry. apply count_occ_not_In. now rewrite In_expand.
  - rewrite count_occ_repeat_neq.
    + now apply IH.
    + intros ->. apply Ha. apply in_map_iff. now exists (n, c).
Qed.

Section FrequencyTable.
Context {impl : Implementation}.

(** The runs of a sorted sequence come in strictly ascending order of
    their symbols. *)
Lemma expand_sorted_strict (fr : list node) :
  Forall (fun e => (1 <= fst e)%Z) fr ->
  (forall i a b,
     nth_error (map snd fr) i = Some a ->
     nth_error (map snd fr) (S i) = Some b -> a <> b) ->
  StronglySorted (not_after char_less) (expand fr) ->
  StronglySorted
    (fun x y => (char_value (snd x) < char_value (snd y))%Z) fr.
Proof.
  induction 1 as [|[n a] fr Hn Hfr IH]; intros Hadj Hs; [constructor|].
  rewrite expand_cons in Hs. apply StronglySorted_app_inv in Hs.
  destruct Hs as [Hs Hcross].
  assert (IH' : StronglySorted
                  (fun x y => (char_value (snd x) < char_value (snd y))%Z) fr).
  { apply IH; [|exact Hs]. intros i x y Hx Hy. now apply (Hadj (S i)). }
  constructor; [exact IH'|].
  destruct fr as [|[n1 a1] fr']; [constructor|].
  assert (Ha : In a (repeat a (Z.to_nat n))).
  { cbn [fst] in Hn. destruct (Z.to_nat n) as [|k] eqn:E; [lia|]. now left. }
  assert (H1 : (char_value a < char_value a1)%Z).
  { assert (Hne : a <> a1) by (apply (Hadj 0); reflexivity).
    assert (Hle : not_after char_less a a1).
    { apply Hcross; [exact Ha|]. apply In_expand; [exact Hfr|now left]. }
    unfold not_after, char_less in Hle. apply Z.ltb_ge in Hle.
    assert (char_value a <> char_value a1)
      by (intros E; apply Hne; now apply char_value_inj).
    lia. }
  constructor; [exact H1|].
  inversion IH' as [|? ? _ Hall]; subst.
  eapply Forall_impl; [|exact Hall]. cbn [snd]. intros e He. lia.
Qed.

Lemma strict_NoDup (fr : list node) :
  StronglySorted
    (fun x y => (char_value (snd x) < char_value (snd y))%Z) fr ->
  NoDup (map snd fr).
Proof.
  induction 1 as [|e fr Hs IH Hall]; [constructor|].
  cbn [map]. constructor; [|exact IH].
  intros Hin. apply in_map_iff in Hin. destruct Hin as (e' & E & He').
  rewrite Forall_forall in Hall. specialize (Hall e' He'). rewrite E in Hall.
  lia.
Qed.

(** The frequency table as [compress] computes it. *)
Lemma frequencies_table (input : str) :
  exists fr,
    (forall fuel, length input < fuel -> frequencies fuel input = Ret fr) /\
    Permutation (expand fr) input /\
    Forall (fun e => (1 <= fst e)%Z) fr /\
    (forall n c, In (n, c) fr <->
       In c input /\ n = Z.of_nat (count_occ ascii_dec input c)) /\
    StronglySorted
      (fun x y => (char_value (snd x) < char_value (snd y))%Z) fr /\
    zsum (map fst fr) = Z.of_nat (length input).
Proof.
  pose proof (std_sort_perm char_less input) as Hperm.
  pose proof (std_sort_sorted input char_less_swo) as Hsorted.
  destruct (@unique_copy_with_count_runs (length input)
              (std_sort char_less input))
    as (fr & Hret & Hexp & Hpos & _ & Hadj).
  { now rewrite (Permutation_length Hperm). }
  assert (Hstrict : StronglySorted
            (fun x y => (char_value (snd x) < char_value (snd y))%Z) fr).
  { apply expand_sorted_strict; [exact Hpos|exact Hadj|].
    rewrite Hexp. exact Hsorted. }
  pose proof (strict_NoDup Hstrict) as Hnd.
  assert (Hcount : forall c,
            count_occ ascii_dec (expand fr) c = count_occ ascii_dec input c).
  { intros c. rewrite Hexp. revert c. apply Permutation_count_occ.
    exact Hperm. }
  exists fr. split.
  { intros fuel Hf. unfold frequencies. now rewrite Hret. }
  split; [rewrite Hexp; exact Hperm|]. split; [exact Hpos|].
  split; [|split; [exact Hstrict|]].
  - intros n c. split.
    + intros Hin. split.
      * apply (Permutation_in _ Hperm). rewrite <- Hexp.
        apply In_expand; [exact Hpos|]. apply in_map_iff. now exists (n, c).
      * rewrite <- Hcount. symmetry. now apply (@count_occ_expand fr n c).
    + intros [Hin ->].
      assert (Hc : In c (map snd fr)).
      { apply In_expand; [exact Hpos|]. rewrite Hexp.
        apply (Permutation_in _ (Permutation_sym Hperm)). exact Hin. }
      apply in_map_iff in Hc. destruct Hc as ([n' c'] & E & Hin').
      simpl in E. subst c'.
      rewrite <- Hcount, (@count_occ_expand fr n' c Hnd Hpos Hin'). exact Hin'.
  - rewrite <- (length_expand Hpos), Hexp.
    now rewrite (Permutation_length Hperm).
Qed.
End FrequencyTable.

(** X3.  The frequency table of [compress]: written out, it is a
    permutation of the input; it holds the pair (count, symbol) exactly
    for the symbols of the input, each with its number of occurrences; the
    entries come in strictly ascending order of the symbol as [char]
    compares; the counts add up to the input length. *)
Theorem frequencies_count_occ (impl : Implementation) (input : str) :
  exists fr,
    returns (fun fuel => frequencies fuel input) fr /\
    Permutation (expand fr) input /\
    (forall n c, In (n, c) fr <->
       In c input /\ n = Z.of_nat (count_occ ascii_dec input c)) /\
    StronglySorted
      (fun x y => (char_value (snd x) < char_value (snd y))%Z) fr /\
    zsum (map fst fr) = Z.of_nat (length input).
Proof.
  destruct (@frequencies_table impl input)
    as (fr & Efr & Hperm & _ & Hin & Hs & Hsum).
  exists fr. split; [|auto].
  exists (S (length input)). intros fuel Hf. apply Efr. lia.
Qed.

(** ** The converter of symbols *)

Lemma to_bits_binary (w : nat) (v : Z) : Forall binary (to_bits w v).
Proof.
  unfold to_bits. apply Forall_forall. intros c Hc.
  apply in_map_iff in Hc. destruct Hc as (i & <- & _).
  destruct (Z.testbit v (Z.of_nat i)); [now right|now left].
Qed.

(** X4.  [binary_converter] is a bijection between characters and strings
    of eight binary digits: the pair overload writes eight characters,
    each '0' or '1', and the string overload reads them back as the same
    character, whatever its value; and every string of eight binary
    digits is read as a character that the pair overload writes as that
    string. *)
Theorem binary_converter_roundtrip :
  (forall x : Z * ascii,
     length (converter_bits x) = 8 /\
     Forall binary (converter_bits x) /\
     converter_char (converter_bits x) = Ret (snd x)) /\
  (forall s : str,
     length s = 8 -> Forall binary s ->
     exists c, converter_char s = Ret c /\ converter_bits (0%Z, c) = s).
Proof.
  split.
  - intros x. split; [apply converter_bits_length|].
    split; [apply to_bits_binary|apply converter_roundtrip].
  - intros s Hlen Hb.
    destruct s as [|b7 [|b6 [|b5 [|b4 [|b3 [|b2 [|b1 [|b0 [|? ?]]]]]]]]];
      try discriminate.
    repeat match goal with
           | H : Forall binary (_ :: _) |- _ =>
               let E := fresh "E" in
               inversion H as [|? ? [E|E] ?]; subst; clear H
           end;
      (eexists; split; [vm_compute; reflexivity|reflexivity]).
Qed.

(** ** [next_node] on two sorted frontiers *)

(** X5.  On a leaf frontier and an internal-node frontier that are each in
    ascending order of weight and not both exhausted, [next_node] returns
    a position of one of the frontiers whose node is a lightest of all
    the nodes left in both, and advances the cursor of that frontier
    alone, by one. *)
Theorem next_node_lightest (nodes : list node) (k f0 f1 : nat) :
  f0 <= k -> k <= f1 -> f1 <= length nodes -> k <= length nodes ->
  f0 < k \/ f1 < length nodes ->
  (forall p p', f0 <= p -> p <= p' -> p' < k ->
     (weight nodes p <= weight nodes p')%Z) ->
  (forall q q', f1 <= q -> q <= q' -> q' < length nodes ->
     (weight nodes q <= weight nodes q')%Z) ->
  exists x f0' f1',
    next_node nodes compare_first f0 k f1 (length nodes) = Ret (x, f0', f1') /\
    ((x = f0 /\ f0' = S f0 /\ f1' = f1 /\ f0 < k) \/
     (x = f1 /\ f0' = f0 /\ f1' = S f1 /\ f1 < length nodes)) /\
    (forall z, (f0 <= z /\ z < k) \/ (f1 <= z /\ z < length nodes) ->
       (weight nodes x <= weight nodes z)%Z).
Proof. apply next_node_min. Qed.

(** ** The internal nodes of the merge array *)

Lemma merge_array_internal (leaves nodes : list node) (consumed : list nat) :
  merge_array leaves nodes consumed ->
  exists internal,
    nodes = leaves ++ internal /\
    Forall (fun x => snd x = char_zero) internal.
Proof.
  induction 1 as [|nodes consumed x y _ (internal & -> & Hi) _].
  - exists []. split; [now rewrite app_nil_r|constructor].
  - exists (internal ++ [merge_first_op
                           (nth x (leaves ++ internal) node_default)
                           (nth y (leaves ++ internal) node_default)]).
    split; [now rewrite app_assoc|].
    apply Forall_app. split; [exact Hi|]. repeat constructor.
Qed.

(** X6.  The internal nodes that [build_huffman_array] appends to [k >= 2]
    sorted leaves of non-negative weight that sum to at most
    [ptrdiff_max]: they come in ascending order of weight, the [j]-th of
    them is at least as heavy as leaf [j + 1], and each carries the
    value-initialised symbol.  Every weight of the array is in the range
    of [ptrdiff_t]: no addition overflowed. *)
Theorem build_huffman_array_internal_nodes (leaves : list node) :
  2 <= length leaves ->
  (Z.of_nat (2 * length leaves - 1) <= vector_max_size)%Z ->
  StronglySorted (not_after compare_first) leaves ->
  Forall (fun x => (0 <= fst x)%Z) leaves ->
  (zsum (map fst leaves) <= ptrdiff_max)%Z ->
  exists nodes,
    returns (fun fuel =>
               build_huffman_array compare_first merge_first_op fuel leaves)
      nodes /\
    (forall q q', length leaves <= q -> q <= q' -> q' < length nodes ->
       (weight nodes q <= weight nodes q')%Z) /\
    (forall j, length leaves + j < length nodes ->
       (weight nodes (S j) <= weight nodes (length leaves + j))%Z) /\
    (forall q, length leaves <= q -> q < length nodes ->
       symbol nodes q = char_zero) /\
    Forall (fun x => in_ptrdiff (fst x)) nodes.
Proof.
  intros Hk Hmax Hsorted Hpos Hfit.
  destruct (build_huffman_array_returns Hk Hsorted Hmax)
    as (nodes & consumed & Ebuild & Hlen & Hinv & Hnn).
  destruct (Hnn Hpos) as (_ & Hint & Hahead & _).
  pose proof Hinv as (_ & _ & _ & _ & _ & _ & _ & Hma & _).
  exists nodes. split; [exists (length leaves); exact Ebuild|].
  split; [exact Hint|]. split; [exact Hahead|].
  split.
  - intros q Hq1 Hq2.
    destruct (merge_array_internal Hma) as (internal & -> & Hi).
    unfold symbol. rewrite app_nth2 by lia.
    rewrite length_app in Hq2. rewrite Forall_forall in Hi.
    apply Hi. apply nth_In. lia.
  - apply (merge_array_in_ptrdiff Hma).
    now rewrite abs_weight_nonneg.
Qed.

Lemma zsum_perm (l l' : list Z) : Permutation l l' -> zsum l = zsum l'.
Proof.
  unfold zsum. induction 1; simpl; lia.
Qed.

(** X7.  The array that [compress] builds: for an input with at least two
    distinct symbols, its leaves are the frequency table sorted by count,
    it has at most 511 nodes, so that their number fits the 16 bits it is
    given in the header, and its last node, the root, weighs exactly the
    length of the input. *)
Theorem compress_root_weight (impl : Implementation) (input : str) :
  2 <= distinct_symbols input ->
  exists fr nodes,
    returns (fun fuel => frequencies fuel input) fr /\
    returns (fun fuel =>
               build_huffman_array compare_first merge_first_op fuel
                 (std_sort compare_first fr)) nodes /\
    firstn (length fr) nodes = std_sort compare_first fr /\
    length nodes = 2 * distinct_symbols input - 1 /\
    length nodes <= 511 /\
    weight nodes (length nodes - 1) = Z.of_nat (length input).
Proof.
  intros H2.
  destruct (compress_facts impl input H2)
    as (fr & leaves & nodes & consumed & hdr & out & Efr & Eleaves & Hnd &
        Hin & Hk & H256 & Hsorted & Ebuild & Hnodes & Hinv & _).
  destruct (@frequencies_table impl input)
    as (fr' & Efr' & _ & _ & _ & _ & Hsum).
  assert (E : fr' = fr).
  { specialize (Efr (S (length input)) (Nat.lt_succ_diag_r _)).
    specialize (Efr' (S (length input)) (Nat.lt_succ_diag_r _)).
    rewrite Efr in Efr'. now injection Efr'. }
  subst fr'.
  assert (Hperm : Permutation leaves fr)
    by (rewrite Eleaves; apply std_sort_perm).
  pose proof Hinv as (Hfirst & _ & _ & _ & _ & _ & Hcons & Hma & _).
  exists fr, nodes.
  split; [exists (S (length input)); intros; apply Efr; lia|].
  split; [exists (length leaves); rewrite <- Eleaves; exact Ebuild|].
  split; [rewrite <- (Permutation_length Hperm), <- Eleaves; exact Hfirst|].
  split; [rewrite Hnodes, Hk; reflexivity|].
  split; [lia|].
  rewrite Hnodes. replace (2 * length leaves - 1 - 1)
    with (2 * length leaves - 2) by lia.
  rewrite (merge_array_root_weight Hma); [|lia|intros z; rewrite Hcons; lia].
  rewrite <- Hsum. apply zsum_perm. now apply Permutation_map.
Qed.

(** ** The header, written and read back *)

(** X8.  [read_header] undoes [header]: for an array of [k] leaves and
    [k - 1] internal nodes, fewer than [2^16] altogether, each kind in
    ascending order of weight, [header] returns a string of
    [16 + (2k - 1) + 8k] characters, and [read_header], on that string
    followed by any payload, returns the position of the payload and an
    array of the same length that has the symbols of the leaves at the
    places of the leaves, and whose header positions order an internal
    node and a leaf as their weights do. *)
Theorem header_read_back (impl : Implementation) (nodes : list node)
    (k : nat) :
  1 <= k -> length nodes = 2 * k - 1 -> 2 * k - 1 < 2 ^ 16 ->
  (forall p p', p <= p' -> p' < k ->
     (weight nodes p <= weight nodes p')%Z) ->
  (forall q q', k <= q -> q <= q' -> q' < length nodes ->
     (weight nodes q <= weight nodes q')%Z) ->
  exists hdr,
    returns (fun fuel => header compare_first (@converter_bits Z) fuel nodes)
      hdr /\
    length hdr = 16 + length nodes + 8 * k /\
    forall payload,
      exists dn,
        read_header converter_char (hdr ++ payload) = Ret (dn, length hdr) /\
        length dn = length nodes /\
        (forall p, p < k -> symbol dn p = symbol nodes p) /\
        (forall p q, p < k -> k <= q -> q < length nodes ->
           (header_pos dn q <? header_pos dn p)%Z
           = (weight nodes q <? weight nodes p)%Z).
Proof.
  intros Hk Hlen Hsmall Hleaves Hinternal.
  destruct (@header_read_header impl nodes k Hk Hlen Hsmall Hleaves Hinternal)
    as (hdr & Ehdr & Hhdr & Hread).
  exists hdr. split; [exists (length nodes); exact Ehdr|].
  split; [exact Hhdr|exact Hread].
Qed.

(** * More of the program: the streams of the codec *)

(** ** Streams that [decompress] cannot read *)

Lemma bitset_of_string_bad (s : str) (c : ascii) :
  In c s -> ~ binary c ->
  forall acc, bitset_of_string acc s = Throw invalid_argument.
Proof.
  intros Hin Hc. induction s as [|a s IH]; intros acc; [destruct Hin|].
  simpl. destruct (char_eqb a c0) eqn:E0.
  - apply char_eqb_eq in E0. subst a. apply IH.
    destruct Hin as [<-|Hin]; [|exact Hin]. exfalso. apply Hc. now left.
  - destruct (char_eqb a c1) eqn:E1; [|reflexivity].
    apply char_eqb_eq in E1. subst a. apply IH.
    destruct Hin as [<-|Hin]; [|exact Hin]. exfalso. apply Hc. now right.
Qed.

(** X9.  A stream whose node count (its first 16 characters, or all of it
    when it is shorter) holds a character other than '0' and '1':
    [decompress] throws [std::invalid_argument], from the constructor of
    [std::bitset], before it reads anything else. *)
Theorem decompress_bad_count (impl : Implementation) (input : str)
    (c : ascii) :
  In c (firstn 16 input) -> ~ binary c ->
  forall fuel, decompress fuel input = Throw invalid_argument.
Proof.
  intros Hin Hc fuel.
  unfold decompress, huffman_decoder, decoder_prefixes, read_header, substr.
  cbn [Nat.ltb Nat.leb skipn bind].
  now rewrite (bitset_of_string_bad _ Hin Hc).
Qed.

Lemma bitset_of_string_positive (s : str) :
  Forall binary s ->
  forall acc, (0 <= acc)%Z -> (0 < acc)%Z \/ In c1 s ->
    exists v, bitset_of_string acc s = Ret v /\ (0 < v)%Z.
Proof.
  induction 1 as [|a s [->| ->] _ IH]; intros acc Hacc Hone.
  - destruct Hone as [Hone|[]]. exists acc. now split.
  - cbn [bitset_of_string]. rewrite char_eqb_refl.
    apply IH; [lia|]. destruct Hone as [Hone|[Hone|Hone]].
    + left. lia.
    + discriminate.
    + now right.
  - cbn [bitset_of_string]. rewrite char_eqb_refl.
    replace (char_eqb c1 c0) with false by reflexivity.
    apply IH; [lia|]. left. lia.
Qed.

(** X10.  A stream of at most 16 binary digits of which one is '1' has no
    defined decompression: the node count that it gives is not zero, and
    [read_header] reads [*first] at or beyond the end of the input. *)
Theorem decompress_short_stream (impl : Implementation) (input : str) :
  length input <= 16 -> Forall binary input -> In c1 input ->
  forall fuel, decompress fuel input = Undefined.
Proof.
  intros Hlen Hb Hone fuel.
  unfold decompress, huffman_decoder, decoder_prefixes, read_header, substr.
  cbn [Nat.ltb Nat.leb skipn bind].
  rewrite firstn_all2 by exact Hlen.
  destruct (@bitset_of_string_positive input Hb 0%Z (Z.le_refl 0)
              (or_intror Hone)) as (v & -> & Hv).
  cbn [bind]. rewrite repeat_length.
  destruct (Z.to_nat v) as [|n] eqn:E; [lia|].
  cbn [read_header_loop].
  rewrite deref_out by exact Hlen. reflexivity.
Qed.

(** ** The code table of [compress] *)

Lemma decoder_prefixes_gen_list (impl : Implementation) (input : str)
    (dn : list dnode) (out : list (nat * str)) (cur : nat) :
  decoder_prefixes converter_char input = Ret (dn, out, cur) ->
  gen_list (rev dn) decoder_cmp (length dn)
    (length dn - (length dn / 2 + 1)) (length dn)
    (length dn - (length dn / 2 + 1)) 1 [(0, [])] = Ret out.
Proof.
  unfold decoder_prefixes. intros H.
  inv_bind H. destruct r as [dn' cur']. cbn zeta in Hb.
  rewrite std_sort_nil in Hb.
  destruct (length dn' <? length dn' / 2 + 1); [discriminate|].
  inv_bind Hb. injection Hbb as <- <- <-.
  apply generate_codes_prefix_op in Hba.
  now rewrite Nat.sub_0_r in Hba.
Qed.

(** Everything the properties below need to know about one run of
    [compress]. *)
Lemma compress_stages_facts (impl : Implementation) (input : str) :
  2 <= distinct_symbols input ->
  exists fr leaves nodes hdr out st bits,
    compress_stages input fr nodes hdr st bits /\
    leaves = std_sort compare_first fr /\
    Permutation (expand fr) input /\
    Forall (fun e => (1 <= fst e)%Z) fr /\
    NoDup (map snd leaves) /\
    (forall c, In c (map snd leaves) <-> In c input) /\
    length leaves = distinct_symbols input /\
    StronglySorted (not_after compare_first) leaves /\
    length nodes = 2 * length leaves - 1 /\
    length hdr = 16 + length nodes + 8 * length leaves /\
    st = map (fun e => (symbol (rev nodes) (fst e), snd e)) out /\
    map fst st = rev (map snd leaves) /\
    length out = length leaves /\
    shortest_first out /\
    prefix_free (map snd out) /\
    Forall (fun e => 1 <= code_len e) out /\
    forall payload,
      exists dn,
        decoder_prefixes converter_char (hdr ++ payload)
        = Ret (dn, out, length hdr) /\
        length dn = length nodes /\
        st = map (fun e => (symbol (rev dn) (fst e), snd e)) out /\
        Forall (fun e => fst e < length (rev dn)) out.
Proof.
  intros H2.
  destruct (compress_facts impl input H2)
    as (fr & leaves & nodes & consumed & hdr & out & Efr & Eleaves & Hnd &
        Hin & Hk & H256 & Hsorted & Ebuild & Hnodes & Hinv & Ehdr & Hhdr &
        Hfst & Hshort & Hfree & Hne & Hsym & Ecodes & Ecompress & Hdec).
  destruct (@frequencies_table impl input)
    as (fr' & Efr' & Hexp & Hpos & _).
  assert (E : fr' = fr).
  { specialize (Efr (S (length input)) (Nat.lt_succ_diag_r _)).
    specialize (Efr' (S (length input)) (Nat.lt_succ_diag_r _)).
    rewrite Efr in Efr'. now injection Efr'. }
  subst fr'.
  assert (Hlen : length leaves = length fr).
  { rewrite Eleaves. apply Permutation_length, std_sort_perm. }
  remember (map (fun e => (symbol (rev nodes) (fst e), snd e)) out)
    as st eqn:Est.
  assert (Hkeys : map fst st = rev (map snd leaves)).
  { rewrite Est, map_map. simpl. exact Hsym. }
  exists fr, leaves, nodes, hdr, out, st,
    (hdr ++ flat_map (st_index st) input).
  split.
  { unfold compress_stages.
    split; [exists (S (length input)); intros; apply Efr; lia|].
    split; [exists (length leaves); rewrite <- Eleaves; exact Ebuild|].
    split; [exists (length nodes); exact Ehdr|].
    split; [rewrite <- Hlen; exact Ecodes|].
    split; [exists (length input + 2 * length leaves); exact Ecompress|].
    reflexivity. }
  repeat (split; [first [assumption|reflexivity]|]).
  split.
  { rewrite <- (length_map fst out), Hfst. apply length_seq. }
  repeat (split; [assumption|]).
  intros payload. destruct (Hdec payload) as (dn & Edn & Hdn & Hsame).
  exists dn. split; [exact Edn|]. split; [exact Hdn|]. split.
  - rewrite Est. apply map_ext_in. intros e He.
    rewrite Forall_forall in Hsame. now rewrite (Hsame e He).
  - rewrite length_rev, Hdn. apply Forall_forall. intros e He.
    assert (Hp : In (fst e) (map fst out)) by now apply in_map.
    rewrite Hfst in Hp. apply in_seq in Hp. lia.
Qed.

(** The code of the [i]-th leaf is the code generated at place
    [k - 1 - i]: the heaviest leaf is emitted first. *)
Lemma table_code (leaves nodes : list node) (out : list (nat * str))
    (i : nat) :
  NoDup (map snd leaves) ->
  map (fun e => symbol (rev nodes) (fst e)) out = rev (map snd leaves) ->
  i < length leaves ->
  st_index (map (fun e => (symbol (rev nodes) (fst e), snd e)) out)
    (symbol leaves i)
  = snd (nth (length leaves - S i) out (0, [])).
Proof.
  intros Hnd Hsym Hi.
  assert (Hlen : length out = length leaves).
  { apply (f_equal (@length ascii)) in Hsym.
    now rewrite length_map, length_rev, length_map in Hsym. }
  set (j := length leaves - S i).
  assert (Hj : j < length out) by (unfold j; lia).
  apply st_index_in.
  - rewrite map_map. simpl. rewrite Hsym. now apply NoDup_rev.
  - apply in_map_iff. exists (nth j out (0, @nil ascii)). split; [|now apply nth_In].
    f_equal.
    assert (E : symbol (rev nodes) (fst (nth j out (0, @nil ascii)))
                = nth j (map (fun e => symbol (rev nodes) (fst e)) out)
                    char_zero).
    { rewrite (nth_indep _ char_zero
                 ((fun e => symbol (rev nodes) (fst e)) (0, @nil ascii)))
        by (now rewrite length_map).
      exact (eq_sym (map_nth (fun e => symbol (rev nodes) (fst e)) out
                       (0, @nil ascii) j)). }
    rewrite E, Hsym.
    rewrite rev_nth by (rewrite length_map; unfold j; lia).
    rewrite length_map. unfold symbol.
    change char_zero with (snd node_default).
    rewrite map_nth. do 2 f_equal. unfold j. lia.
Qed.

(** ** What [decompress] accepts *)

(** X11.  The decoder reads any message written with the table of a
    stream, not only the message the table was made for: for an input
    with at least two distinct symbols and any message [w] over the
    symbols of the input (the empty message among them), [decompress]
    of the header of [compress] followed by the codes of [w] returns
    [w]. *)
Theorem decompress_any_message (impl : Implementation) (input w : str) :
  2 <= distinct_symbols input ->
  (forall c, In c w -> In c input) ->
  exists fr nodes hdr st bits,
    compress_stages input fr nodes hdr st bits /\
    returns (fun fuel => decompress fuel (hdr ++ flat_map (st_index st) w))
      w.
Proof.
  intros H2 Hw.
  destruct (compress_stages_facts impl input H2)
    as (fr & leaves & nodes & hdr & out & st & bits & Hst & Eleaves & Hexp &
        Hpos & Hnd & Hin & Hk & Hsorted & Hnodes & Hhdr & Est & Hkeys &
        Hout & Hshort & Hfree & Hne & Hdec).
  exists fr, nodes, hdr, st, bits. split; [exact Hst|].
  destruct (Hdec (flat_map (st_index st) w)) as (dn & Edn & Hdn & Est' & Hr).
  exists (length w). intros fuel Hfuel.
  unfold decompress, huffman_decoder. rewrite Edn. cbn [bind].
  pose proof (@decode_loop_spec (rev dn) out Hshort Hfree Hne Hr) as Hd.
  cbv zeta in Hd. rewrite <- Est' in Hd.
  apply (Hd ltac:(rewrite Hkeys; apply NoDup_rev; exact Hnd)
            w hdr [] fuel); [|exact Hfuel].
  intros s Hs. rewrite Hkeys, <- in_rev. apply Hin. now apply Hw.
Qed.

(** ** Binary payloads: the code is complete *)

Section GenListComplete.
Variable T : Type.
Variable v : list T.
Variable cmp : T -> T -> bool.
Variables l0 l1 : nat.

(** When [generate_codes] processes every entry it has queued, each long
    enough string of binary digits that starts with a queued code starts
    with an emitted code: an entry that is not emitted is replaced by its
    two children, one for each digit. *)
Lemma gen_list_complete :
  forall n f0 f1 (pending out : list (nat * str)) D (b : str),
    gen_list v cmp l0 l1 n f0 f1 pending = Ret out ->
    length pending + n = 2 * length out ->
    Forall (fun e => code_len e <= D) pending ->
    D + n <= length b ->
    Forall binary b ->
    Exists (fun e => is_prefix (snd e) b) pending ->
    Exists (fun e => is_prefix (snd e) b) out.
Proof.
  induction n as [|n IH]; intros f0 f1 pending out D b H Hcount Hp HD Hbin He;
    simpl in H.
  - injection H as <-. simpl in Hcount.
    destruct pending; [inversion He|simpl in Hcount; lia].
  - destruct pending as [|cur rest]; [discriminate|].
    inversion Hp as [|? ? Hcur Hrest]; subst.
    destruct (l1 <=? fst cur).
    + inv_bind H. injection Hb as <-. cbn [length] in Hcount.
      inversion He as [? ? Hc|? ? Hr]; subst.
      * now constructor 1.
      * constructor 2.
        apply (IH _ _ _ _ D b Ha); try assumption; lia.
    + inv_bind H. destruct r as [[x f0'] f1'].
      inv_bind Hb. destruct r as [[y f0''] f1''].
      cbn [length] in Hcount.
      apply (IH _ _ _ _ (S D) b Hbb).
      * rewrite length_app. cbn [length]. lia.
      * apply Forall_app. split.
        -- eapply Forall_impl; [|exact Hrest]. cbn beta. intros e Hle. lia.
        -- unfold code_len in *.
           constructor; [|constructor; [|constructor]]; cbn [snd];
             rewrite length_app; cbn [length]; lia.
      * lia.
      * exact Hbin.
      * apply Exists_app.
        inversion He as [? ? Hc|? ? Hr]; subst; [right|now left].
        destruct Hc as [t Et]. destruct t as [|c t].
        { exfalso. rewrite app_nil_r in Et. subst b.
          unfold code_len in Hcur. lia. }
        assert (Hc : binary c).
        { rewrite Et in Hbin. apply Forall_app in Hbin.
          destruct Hbin as [_ Hbin]. now inversion Hbin. }
        destruct Hc as [-> | ->].
        -- constructor 2. constructor 1. cbn [snd]. exists t.
           now rewrite <- app_assoc.
        -- constructor 1. cbn [snd]. exists t. now rewrite <- app_assoc.
Qed.
End GenListComplete.

Lemma prefix_free_in (l : list str) (a b : str) :
  prefix_free l -> In a l -> In b l -> length a <> length b ->
  incomparable a b.
Proof.
  induction 1 as [|x l Hx Hl IH]; intros Ha Hb Hne; [destruct Ha|].
  rewrite Forall_forall in Hx.
  destruct Ha as [->|Ha], Hb as [->|Hb].
  - contradiction.
  - now apply Hx.
  - apply incomparable_sym. now apply Hx.
  - now apply IH.
Qed.

Section Truncated.
Variables pre r : str.

(** Reading on beyond the end of the input. *)
Lemma read_bits_overrun (k j : nat) :
  j <= length r -> length r < j + k ->
  read_bits (pre ++ r) k (firstn j r) (length pre + j) = Undefined.
Proof.
  revert j. induction k as [|k IH]; intros j Hj Hk; [lia|].
  cbn [read_bits].
  destruct (Nat.eq_dec j (length r)) as [->|Hne].
  - rewrite deref_out by (rewrite length_app; lia). reflexivity.
  - assert (Ed : deref (pre ++ r) (length pre + j) = Ret (nth j r c0)).
    { rewrite deref_app_r by lia. apply deref_nth. lia. }
    rewrite Ed. cbn [bind]. rewrite firstn_snoc_nth by lia.
    replace (S (length pre + j)) with (length pre + S j) by lia.
    apply IH; lia.
Qed.

Lemma read_bits_within (k j : nat) :
  j + k <= length r ->
  read_bits (pre ++ r) k (firstn j r) (length pre + j)
  = Ret (firstn (j + k) r, length pre + (j + k)).
Proof.
  intros H. pose proof (@read_bits_inside pre r [] k j H) as E.
  now rewrite app_nil_r in E.
Qed.

(** The input ends inside the code [c], and no candidate is a prefix of
    what is left of it: the matching loop reads past the end. *)
Lemma match_prefix_truncated (c : str) :
  forall cands j,
    In c (map snd cands) -> length r < length c ->
    (forall e, In e cands -> ~ is_prefix (snd e) r) ->
    shortest_first cands ->
    j <= length r ->
    Forall (fun e => j <= code_len e) cands ->
    match_prefix (pre ++ r) cands (firstn j r) (length pre + j) = Undefined.
Proof.
  induction cands as [|[p' c'] cands IH]; intros j Hin Hlt Hno Hs Hj Hlen;
    [destruct Hin|].
  inversion Hs as [|? ? Hs' Hle]; subst.
  inversion Hlen as [|? ? Hj' Hlen']; subst.
  unfold code_len in Hj'. cbn [snd] in Hj'.
  cbn [match_prefix snd fst].
  rewrite length_firstn, Nat.min_l by lia.
  destruct (Nat.le_gt_cases (length c') (length r)) as [Hc'|Hc'].
  - rewrite read_bits_within by lia. cbn [bind].
    replace (j + (length c' - j)) with (length c') by lia.
    destruct (str_eqb (firstn (length c') r) c') eqn:E.
    + exfalso. apply str_eqb_eq in E.
      apply (Hno (p', c')); [now left|]. cbn [snd].
      now apply is_prefix_firstn.
    + apply IH; try assumption.
      * cbn [map snd] in Hin. destruct Hin as [->|Hin]; [lia|exact Hin].
      * intros e He. apply Hno. now right.
  - rewrite read_bits_overrun by lia. reflexivity.
Qed.
End Truncated.

Section DecodingBinary.
Variable rnodes : list dnode.
Variable codes : list (nat * str).
Hypothesis Hshort : shortest_first codes.
Hypothesis Hfree : prefix_free (map snd codes).
Hypothesis Hnonempty : Forall (fun e => 1 <= code_len e) codes.
Hypothesis Hrange : Forall (fun e => fst e < length rnodes) codes.

(** The code table of the encoder for these codes. *)
Let table : code_table :=
  map (fun e => (symbol rnodes (fst e), snd e)) codes.

Hypothesis Hdistinct : NoDup (map fst table).

Variable L : nat.
Hypothesis Hcomplete :
  forall b, Forall binary b -> L <= length b ->
    Exists (fun e => is_prefix (snd e) b) codes.

(** On binary digits the loop of the decoder either reads a whole
    message or runs off the end of the input inside a code. *)
Lemma decode_binary :
  forall m r, length r <= m -> Forall binary r ->
    (exists w,
       r = flat_map (st_index table) w /\
       (forall s, In s w -> In s (map fst table)) /\
       forall pre res fuel, m <= fuel ->
         decode_loop fuel (pre ++ r) rnodes codes [] (length pre) res
         = Ret (res ++ w)) \/
    (exists w t e,
       r = flat_map (st_index table) w ++ t /\
       (forall s, In s w -> In s (map fst table)) /\
       In e codes /\ is_prefix t (snd e) /\ 1 <= length t < code_len e /\
       forall pre res fuel, m <= fuel ->
         decode_loop fuel (pre ++ r) rnodes codes [] (length pre) res
         = Undefined).
Proof.
  assert (Hempty : forall pre res fuel,
            decode_loop fuel (pre ++ []) rnodes codes [] (length pre) res
            = Ret (res ++ [])).
  { intros pre res fuel. rewrite decode_loop_eq, !app_nil_r.
    now rewrite Nat.eqb_refl. }
  induction m as [|m IH]; intros r Hlen Hb.
  - destruct r; [|simpl in Hlen; lia].
    left. exists []. split; [reflexivity|]. split; [intros s []|].
    intros pre res fuel _. apply Hempty.
  - destruct (Nat.eq_dec (length r) 0) as [E0|Hr].
    { destruct r; [|discriminate].
      left. exists []. split; [reflexivity|]. split; [intros s []|].
      intros pre res fuel _. apply Hempty. }
    set (b := r ++ repeat c0 L).
    assert (Hbb : Forall binary b).
    { apply Forall_app. split; [exact Hb|].
      apply Forall_forall. intros x Hx. apply repeat_spec in Hx. now left. }
    assert (HbL : L <= length b)
      by (unfold b; rewrite length_app, repeat_length; lia).
    pose proof (Hcomplete Hbb HbL) as Hex.
    apply Exists_exists in Hex. destruct Hex as ([p c] & Hin & Hpre).
    cbn [snd] in Hpre.
    assert (Hc1 : 1 <= length c).
    { rewrite Forall_forall in Hnonempty. apply (Hnonempty _ Hin). }
    assert (Hp : p < length rnodes).
    { rewrite Forall_forall in Hrange. apply (Hrange _ Hin). }
    destruct (Nat.le_gt_cases (length c) (length r)) as [Hcr|Hcr].
    + (* a whole code is there *)
      assert (Ec : firstn (length c) r = c).
      { apply is_prefix_firstn in Hpre. unfold b in Hpre.
        rewrite firstn_app in Hpre.
        replace (length c - length r) with 0 in Hpre by lia.
        cbn [firstn] in Hpre. now rewrite app_nil_r in Hpre. }
      set (rest := skipn (length c) r).
      assert (Er : r = c ++ rest).
      { unfold rest. rewrite <- Ec at 1. symmetry. apply firstn_skipn. }
      assert (Hrest : length rest <= m).
      { apply (f_equal (@length ascii)) in Er. rewrite length_app in Er. lia. }
      assert (Hbrest : Forall binary rest).
      { rewrite Er in Hb. apply Forall_app in Hb. tauto. }
      assert (Ew : st_index table (symbol rnodes p) = c).
      { apply st_index_in; [exact Hdistinct|].
        unfold table. apply in_map_iff. now exists (p, c). }
      assert (Hstep : forall pre res fuel,
                decode_loop (S fuel) (pre ++ r) rnodes codes [] (length pre) res
                = decode_loop fuel ((pre ++ c) ++ rest) rnodes codes []
                    (length (pre ++ c)) (res ++ [symbol rnodes p])).
      { intros pre res fuel. rewrite Er, decode_loop_eq.
        replace (length pre =? length (pre ++ c ++ rest)) with false
          by (symmetry; apply Nat.eqb_neq; rewrite !length_app; lia).
        pose proof (@match_prefix_found pre c rest p codes 0 Hin Hshort
                      Hfree ltac:(lia)) as Hm.
        rewrite Nat.add_0_r in Hm. cbn [firstn] in Hm.
        rewrite Hm.
        2:{ apply Forall_forall. intros; lia. }
        cbn [bind]. rewrite (deref_nth _ node_default Hp). cbn [bind].
        fold (symbol rnodes p).
        rewrite <- length_app. now rewrite <- app_assoc. }
      assert (Hsym : In (symbol rnodes p) (map fst table)).
      { unfold table. rewrite map_map. cbn [fst].
        apply in_map_iff. now exists (p, c). }
      destruct (IH rest Hrest Hbrest)
        as [(w & Erest & Hw & Hrun)|
            (w & t & e & Erest & Hw & He & Hte & Hlt & Hrun)].
      * left. exists (symbol rnodes p :: w). split; [|split].
        -- cbn [flat_map]. now rewrite Ew, <- Erest.
        -- intros s [<-|Hs]; [exact Hsym|now apply Hw].
        -- intros pre res fuel Hf. destruct fuel as [|fuel]; [lia|].
           rewrite Hstep, Hrun by lia. now rewrite <- app_assoc.
      * right. exists (symbol rnodes p :: w), t, e.
        split; [cbn [flat_map]; now rewrite Ew, <- app_assoc, <- Erest|].
        split; [intros s [<-|Hs]; [exact Hsym|now apply Hw]|].
        split; [exact He|]. split; [exact Hte|]. split; [exact Hlt|].
        intros pre res fuel Hf. destruct fuel as [|fuel]; [lia|].
        rewrite Hstep. apply Hrun. lia.
    + (* the input ends inside the code *)
      right. exists [], r, (p, c).
      split; [reflexivity|]. split; [intros s []|]. split; [exact Hin|].
      split.
      { cbn [snd]. exists (skipn (length r) c).
        destruct Hpre as [u Eu]. unfold b in Eu.
        apply (f_equal (firstn (length r))) in Eu.
        rewrite !firstn_app, firstn_all, Nat.sub_diag in Eu.
        replace (length r - length c) with 0 in Eu by lia.
        cbn [firstn] in Eu. rewrite !app_nil_r in Eu.
        rewrite Eu at 1. symmetry. apply firstn_skipn. }
      split; [unfold code_len; cbn [snd]; lia|].
      intros pre res fuel Hf. destruct fuel as [|fuel]; [lia|].
      rewrite decode_loop_eq.
      replace (length pre =? length (pre ++ r)) with false
        by (symmetry; apply Nat.eqb_neq; rewrite length_app; lia).
      pose proof (@match_prefix_truncated pre r c codes 0) as Hm.
      rewrite Nat.add_0_r in Hm. cbn [firstn] in Hm.
      rewrite Hm; [reflexivity| | | | | | ].
      * apply in_map_iff. now exists (p, c).
      * exact Hcr.
      * intros e He Hpe.
        assert (Hpb : is_prefix (snd e) b).
        { eapply is_prefix_trans; [exact Hpe|]. apply is_prefix_app. }
        assert (Hinc : incomparable (snd e) c).
        { apply (@prefix_free_in (map snd codes)); [exact Hfree| | |].
          - now apply in_map.
          - apply in_map_iff. now exists (p, c).
          - apply is_prefix_length in Hpe. lia. }
        destruct Hinc as [H1 H2].
        destruct (is_prefix_comparable Hpb Hpre); contradiction.
      * exact Hshort.
      * lia.
      * apply Forall_forall. intros; lia.
Qed.
End DecodingBinary.

(** X18.  Any payload of binary digits after the header of an input with
    at least two distinct symbols is read in one of two ways.  Either it
    is the codes of a message over the symbols of the input, and
    [decompress] returns that message.  Or it is the codes of a message
    followed by the beginning of a code, at least one digit of it but not
    the whole: then [decompress], after the message, reads [*current] at
    the end of the input, which is undefined behaviour. *)
Theorem decompress_binary_payload (impl : Implementation)
    (input payload : str) :
  2 <= distinct_symbols input ->
  Forall binary payload ->
  exists fr nodes hdr st bits,
    compress_stages input fr nodes hdr st bits /\
    ((exists w,
        payload = flat_map (st_index st) w /\
        (forall c, In c w -> In c input) /\
        returns (fun fuel => decompress fuel (hdr ++ payload)) w) \/
     (exists w t a,
        payload = flat_map (st_index st) w ++ t /\
        (forall c, In c w -> In c input) /\
        In a input /\
        is_prefix t (st_index st a) /\
        1 <= length t < length (st_index st a) /\
        forall fuel, length payload <= fuel ->
          decompress fuel (hdr ++ payload) = Undefined)).
Proof.
  intros H2 Hbin.
  destruct (compress_stages_facts impl input H2)
    as (fr & leaves & nodes & hdr & out & st & bits & Hst & Eleaves & Hexp &
        Hpos & Hnd & Hin & Hk & Hsorted & Hnodes & Hhdr & Est & Hkeys &
        Hout & Hshort & Hfree & Hne & Hdec).
  exists fr, nodes, hdr, st, bits. split; [exact Hst|].
  destruct (Hdec payload) as (dn & Edn & Hdn & Est' & Hr).
  pose proof (decoder_prefixes_gen_list _ _ Edn) as Egen.
  assert (Hcomplete : forall b, Forall binary b -> length dn <= length b ->
            Exists (fun e => is_prefix (snd e) b) out).
  { intros b Hb HL.
    apply (@gen_list_complete _ _ _ _ _ _ _ _ _ _ 0 b Egen).
    - cbn [length]. lia.
    - repeat constructor.
    - lia.
    - exact Hb.
    - constructor 1. cbn [snd]. now exists b. }
  assert (Hdistinct : NoDup (map fst
            (map (fun e => (symbol (rev dn) (fst e), snd e)) out))).
  { rewrite <- Est', Hkeys. now apply NoDup_rev. }
  assert (Hsyms : forall c, In c (map fst st) -> In c input).
  { intros c Hc. apply Hin. now rewrite in_rev, <- Hkeys. }
  destruct (@decode_binary (rev dn) out Hshort Hfree Hne Hr Hdistinct
              (length dn) Hcomplete (length payload) payload (le_n _) Hbin)
    as [(w & Ew & Hw & Hrun)|(w & t & e & Ew & Hw & He & Hte & Hlt & Hrun)];
    rewrite <- Est' in *.
  - left. exists w. split; [exact Ew|]. split.
    + intros c Hc. apply Hsyms. now apply Hw.
    + exists (length payload). intros fuel Hf.
      unfold decompress, huffman_decoder. rewrite Edn. cbn [bind].
      apply (Hrun hdr [] fuel Hf).
  - right.
    assert (Hentry : In (symbol (rev dn) (fst e), snd e) st).
    { rewrite Est'. apply in_map_iff. now exists e. }
    assert (Ecode : st_index st (symbol (rev dn) (fst e)) = snd e).
    { apply st_index_in; [exact Hdistinct|exact Hentry]. }
    exists w, t, (symbol (rev dn) (fst e)).
    split; [exact Ew|].
    split; [intros c Hc; apply Hsyms; now apply Hw|].
    split.
    { apply Hsyms. apply in_map_iff.
      now exists (symbol (rev dn) (fst e), snd e). }
    rewrite Ecode.
    split; [exact Hte|]. split; [exact Hlt|].
    intros fuel Hf.
    unfold decompress, huffman_decoder. rewrite Edn. cbn [bind].
    apply (Hrun hdr [] fuel Hf).
Qed.

(** ** The characters and the size of the output *)

Lemma header_loop_binary (T : Type) (cmp : T -> T -> bool)
    (converter : T -> str) :
  (forall x, Forall binary (converter x)) ->
  forall fuel nodes l0 f0 f1 res out,
    header_loop cmp converter fuel nodes l0 f0 f1 res = Ret out ->
    Forall binary res -> Forall binary out.
Proof.
  intros Hc. induction fuel as [|fuel IH]; intros nodes l0 f0 f1 res out H Hr;
    simpl in H; destruct ((f0 =? l0) && (f1 =? length nodes));
    try discriminate; try (injection H as <-; exact Hr).
  inv_bind H. destruct r as [[x f0'] f1']. cbn zeta in Hb.
  destruct (x <? l0).
  - inv_bind Hb. apply (IH _ _ _ _ _ _ Hbb).
    apply Forall_app. split; [exact Hr|].
    constructor; [now right|apply Hc].
  - apply (IH _ _ _ _ _ _ Hb).
    apply Forall_app. split; [exact Hr|]. constructor; [now left|constructor].
Qed.

Section GenListCodes.
Variable T : Type.
Variable v : list T.
Variable cmp : T -> T -> bool.
Variables l0 l1 : nat.

(** The codes are made of '1' and '0'. *)
Lemma gen_list_binary :
  forall n f0 f1 (pending out : list (nat * str)),
    Forall (fun e => Forall binary (snd e)) pending ->
    gen_list v cmp l0 l1 n f0 f1 pending = Ret out ->
    Forall (fun e => Forall binary (snd e)) out.
Proof.
  induction n as [|n IH]; intros f0 f1 pending out Hp H; simpl in H.
  - injection H as <-. constructor.
  - destruct pending as [|cur rest]; [discriminate|].
    inversion Hp as [|? ? Hcur Hrest]; subst.
    destruct (l1 <=? fst cur).
    + inv_bind H. injection Hb as <-.
      constructor; [exact Hcur|]. now apply (IH _ _ _ _ Hrest Ha).
    + inv_bind H. destruct r as [[x f0'] f1'].
      inv_bind Hb. destruct r as [[y f0''] f1''].
      refine (IH _ _ _ _ _ Hbb).
      apply Forall_app. split; [exact Hrest|].
      constructor; [|constructor; [|constructor]]; cbn [snd];
        (apply Forall_app; split; [exact Hcur|]);
        (constructor; [|constructor]); [now right|now left].
Qed.

(** Every expansion makes the codes one character longer, and each of the
    [n] iterations either expands an entry or emits one. *)
Lemma gen_list_code_len :
  forall n f0 f1 pending D out,
    Forall (fun e => code_len e <= D) pending ->
    gen_list v cmp l0 l1 n f0 f1 pending = Ret out ->
    length out <= n /\
    Forall (fun e => code_len e + length out <= D + n) out.
Proof.
  induction n as [|n IH]; intros f0 f1 pending D out Hp H; simpl in H.
  - injection H as <-. split; [apply Nat.le_refl|constructor].
  - destruct pending as [|cur rest]; [discriminate|].
    inversion Hp as [|? ? Hcur Hrest]; subst.
    destruct (l1 <=? fst cur).
    + inv_bind H. injection Hb as <-.
      destruct (IH _ _ _ _ _ Hrest Ha) as [Hn Hall].
      cbn [length]. split; [lia|].
      constructor; [lia|].
      eapply Forall_impl; [|exact Hall]. cbn beta. intros e He. lia.
    + inv_bind H. destruct r as [[x f0'] f1'].
      inv_bind Hb. destruct r as [[y f0''] f1''].
      assert (Hp' : Forall (fun e => code_len e <= S D)
                      (rest ++ [(x, snd cur ++ [c1]); (y, snd cur ++ [c0])])).
      { apply Forall_app. split.
        - eapply Forall_impl; [|exact Hrest]. cbn beta. intros e He. lia.
        - unfold code_len in *.
          constructor; [|constructor; [|constructor]]; cbn [snd];
            rewrite length_app; cbn [length]; lia. }
      destruct (IH _ _ _ _ _ Hp' Hbb) as [Hn Hall].
      split; [lia|].
      eapply Forall_impl; [|exact Hall]. cbn beta. intros e He. lia.
Qed.
End GenListCodes.

Lemma st_index_cases (st : code_table) (c : ascii) :
  (has_code st c = true /\ In (c, st_index st c) st) \/
  (has_code st c = false /\ st_index st c = []).
Proof.
  unfold has_code, st_index. induction st as [|[k w] st IH]; [now right|].
  cbn [existsb find fst]. destruct (char_eqb k c) eqn:E.
  - left. apply char_eqb_eq in E. subst k. split; [reflexivity|now left].
  - destruct IH as [[H1 H2]|[H1 H2]].
    + left. split; [exact H1|now right].
    + right. split; [exact H1|exact H2].
Qed.

(** X12.  The output of [compress] is a string of binary digits: on an
    input with at least two distinct symbols it returns a string that
    holds no character but '0' and '1'. *)
Theorem compress_output_binary (impl : Implementation) (input : str) :
  2 <= distinct_symbols input ->
  exists bits,
    returns (fun fuel => compress fuel input) bits /\
    Forall binary bits.
Proof.
  intros H2.
  destruct (compress_stages_facts impl input H2)
    as (fr & leaves & nodes & hdr & out & st & bits & Hst & Eleaves & Hexp &
        Hpos & Hnd & Hin & Hk & Hsorted & Hnodes & Hhdr & Est & Hkeys &
        Hout & Hshort & Hfree & Hne & Hdec).
  destruct Hst as (_ & _ & [fuel0 Ehdr] & _ & Ebits & ->).
  exists (hdr ++ flat_map (st_index st) input). split; [exact Ebits|].
  apply Forall_app. split.
  - specialize (Ehdr fuel0 (Nat.le_refl _)). unfold header in Ehdr.
    eapply header_loop_binary; [|exact Ehdr|apply to_bits_binary].
    intros x. apply to_bits_binary.
  - destruct (Hdec []) as (dn & Edn & _).
    apply decoder_prefixes_gen_list in Edn.
    assert (Hroot : Forall (fun e : nat * str => Forall binary (snd e))
                      [(0, [])]) by (repeat constructor).
    pose proof (@gen_list_binary _ _ _ _ _ _ _ _ _ _ Hroot Edn) as Hb.
    rewrite Forall_forall in Hb.
    apply Forall_forall. intros c Hc. apply in_flat_map in Hc.
    destruct Hc as (s & _ & Hc).
    destruct (st_index_cases st s) as [[_ Hs]|[_ Hs]].
    + assert (Hmap : forall p, In p st ->
                exists e, In e out /\ snd e = snd p).
      { intros p Hp. rewrite Est in Hp. apply in_map_iff in Hp.
        destruct Hp as (e & <- & He). now exists e. }
      destruct (Hmap _ Hs) as (e & He & Ee). cbn [snd] in Ee.
      specialize (Hb e He). cbn beta in Hb. rewrite <- Ee in Hc.
      rewrite Forall_forall in Hb. exact (Hb c Hc).
    + rewrite Hs in Hc. destruct Hc.
Qed.

(** X13.  The more frequent symbol never has the longer code: for two
    entries of the frequency table of an input with at least two distinct
    symbols, the symbol with the strictly larger count has a code that is
    at most as long as the code of the other. *)
Theorem frequent_symbols_shorter_codes (impl : Implementation)
    (input : str) :
  2 <= distinct_symbols input ->
  exists fr nodes hdr st bits,
    compress_stages input fr nodes hdr st bits /\
    forall na a nb b,
      In (na, a) fr -> In (nb, b) fr -> (na < nb)%Z ->
      length (st_index st b) <= length (st_index st a).
Proof.
  intros H2.
  destruct (compress_stages_facts impl input H2)
    as (fr & leaves & nodes & hdr & out & st & bits & Hst & Eleaves & Hexp &
        Hpos & Hnd & Hin & Hk & Hsorted & Hnodes & Hhdr & Est & Hkeys &
        Hout & Hshort & Hfree & Hne & Hdec).
  exists fr, nodes, hdr, st, bits. split; [exact Hst|].
  intros na a nb b Ha Hb Hlt.
  assert (Hperm : Permutation fr leaves)
    by (rewrite Eleaves; apply Permutation_sym, std_sort_perm).
  apply (Permutation_in _ Hperm) in Ha, Hb.
  apply (In_nth _ _ node_default) in Ha, Hb.
  destruct Ha as (i & Hi & Ea). destruct Hb as (j & Hj & Eb).
  assert (Hij : i < j).
  { destruct (Nat.lt_ge_cases i j) as [H|H]; [exact H|]. exfalso.
    destruct (Nat.eq_dec j i) as [->|Hne'].
    - rewrite Ea in Eb. injection Eb as E _. lia.
    - pose proof (@StronglySorted_nth _ _ leaves node_default Hsorted j i
                    ltac:(lia) Hi) as Hs.
      unfold not_after, compare_first in Hs. rewrite Ea, Eb in Hs.
      cbn [fst] in Hs. apply Z.ltb_ge in Hs. lia. }
  assert (Hsym : map (fun e => symbol (rev nodes) (fst e)) out
                 = rev (map snd leaves)).
  { rewrite <- Hkeys, Est, map_map. reflexivity. }
  pose proof (@table_code leaves nodes out i Hnd Hsym Hi) as Ca.
  pose proof (@table_code leaves nodes out j Hnd Hsym Hj) as Cb.
  assert (Sa : symbol leaves i = a) by (unfold symbol; now rewrite Ea).
  assert (Sb : symbol leaves j = b) by (unfold symbol; now rewrite Eb).
  rewrite Sa in Ca. rewrite Sb in Cb.
  rewrite <- Est in Ca, Cb. rewrite Ca, Cb.
  apply (@StronglySorted_nth _ _ out (0, @nil ascii) Hshort
           (length leaves - S j) (length leaves - S i)); lia.
Qed.

Lemma length_flat_map_bounds (g : ascii -> str) (lo hi : nat) (w : str) :
  (forall c, In c w -> lo <= length (g c) <= hi) ->
  lo * length w <= length (flat_map g w) <= hi * length w.
Proof.
  induction w as [|c w IH]; intros H; simpl; [lia|].
  rewrite length_app.
  assert (Hc : lo <= length (g c) <= hi) by (apply H; now left).
  assert (Hw : lo * length w <= length (flat_map g w) <= hi * length w)
    by (apply IH; intros; apply H; now right).
  rewrite !Nat.mul_succ_r. lia.
Qed.

(** X14.  The size of the codes and of the output: for an input with
    [k >= 2] distinct symbols, every code of the table has at least one
    and at most [k - 1] characters, so the output has at least one and at
    most [k - 1] characters for each character of the input, after the
    header. *)
Theorem code_length_bounds (impl : Implementation) (input : str) :
  2 <= distinct_symbols input ->
  exists fr nodes hdr st bits,
    compress_stages input fr nodes hdr st bits /\
    Forall (fun e => 1 <= length (snd e) <= distinct_symbols input - 1) st /\
    length hdr + length input <= length bits /\
    length bits
    <= length hdr + (distinct_symbols input - 1) * length input.
Proof.
  intros H2.
  destruct (compress_stages_facts impl input H2)
    as (fr & leaves & nodes & hdr & out & st & bits & Hst & Eleaves & Hexp &
        Hpos & Hnd & Hin & Hk & Hsorted & Hnodes & Hhdr & Est & Hkeys &
        Hout & Hshort & Hfree & Hne & Hdec).
  exists fr, nodes, hdr, st, bits. split; [exact Hst|].
  destruct (Hdec []) as (dn & Edn & Hdn & _).
  apply decoder_prefixes_gen_list in Edn.
  assert (Hroot : Forall (fun e : nat * str => code_len e <= 0) [(0, [])])
    by (repeat constructor).
  destruct (@gen_list_code_len _ _ _ _ _ _ _ _ _ _ _ Hroot Edn) as [_ Hlen].
  assert (Hcodes : Forall
            (fun e => 1 <= length (snd e) <= distinct_symbols input - 1) st).
  { rewrite Est. apply Forall_forall. intros e He.
    apply in_map_iff in He. destruct He as (o & <- & Ho). cbn [snd].
    rewrite Forall_forall in Hne, Hlen.
    specialize (Hne o Ho). specialize (Hlen o Ho).
    unfold code_len in *. lia. }
  split; [exact Hcodes|].
  destruct Hst as (_ & _ & _ & _ & _ & ->). rewrite length_app.
  assert (Hb : 1 * length input
               <= length (flat_map (st_index st) input)
               <= (distinct_symbols input - 1) * length input).
  { apply length_flat_map_bounds. intros c Hc.
    destruct (st_index_cases st c) as [[_ Hs]|[Hs _]].
    - rewrite Forall_forall in Hcodes. apply (Hcodes _ Hs).
    - exfalso. apply Hin in Hc. rewrite in_rev, <- Hkeys in Hc.
      apply in_map_iff in Hc. destruct Hc as (e & Ee & He).
      apply not_true_iff_false in Hs. apply Hs.
      unfold has_code. apply existsb_exists. exists e.
      split; [exact He|]. now apply char_eqb_eq. }
  lia.
Qed.

Lemma length_flat_map_repeat (g : ascii -> str) (c : ascii) (m : nat) :
  length (flat_map g (repeat c m)) = m * length (g c).
Proof.
  induction m as [|m IH]; [reflexivity|].
  cbn [repeat flat_map]. rewrite length_app, IH. lia.
Qed.

Lemma length_flat_map_expand (g : ascii -> str) (fr : list node) :
  Forall (fun e => (1 <= fst e)%Z) fr ->
  Z.of_nat (length (flat_map g (expand fr)))
  = zsum (map (fun e => (fst e * Z.of_nat (length (g (snd e))))%Z) fr).
Proof.
  induction 1 as [|[n c] fr Hn Hfr IH]; [reflexivity|].
  rewrite expand_cons, flat_map_app, length_app, length_flat_map_repeat.
  cbn [map zsum fold_right fst snd] in *.
  fold (zsum (map (fun e => (fst e * Z.of_nat (length (g (snd e))))%Z) fr)).
  rewrite <- IH, Nat2Z.inj_add, Nat2Z.inj_mul, Z2Nat.id by lia.
  reflexivity.
Qed.

(** X15.  The size of the output of [compress]: the length of the header
    plus, for each entry of the frequency table, the count of the symbol
    times the length of its code. *)
Theorem compress_output_size (impl : Implementation) (input : str) :
  2 <= distinct_symbols input ->
  exists fr nodes hdr st bits,
    compress_stages input fr nodes hdr st bits /\
    Z.of_nat (length bits)
    = (Z.of_nat (length hdr)
       + zsum (map (fun e =>
                      (fst e * Z.of_nat (length (st_index st (snd e))))%Z)
                 fr))%Z.
Proof.
  intros H2.
  destruct (compress_stages_facts impl input H2)
    as (fr & leaves & nodes & hdr & out & st & bits & Hst & Eleaves & Hexp &
        Hpos & _).
  exists fr, nodes, hdr, st, bits. split; [exact Hst|].
  destruct Hst as (_ & _ & _ & _ & _ & ->).
  rewrite length_app, Nat2Z.inj_add. f_equal.
  rewrite <- (length_flat_map_expand _ Hpos).
  f_equal. apply Permutation_length, Permutation_flat_map.
  now apply Permutation_sym.
Qed.

(** X16.  A symbol without a code is passed over: in the loop that
    encodes the input, [st[*first]] of a symbol that has no entry in the
    table is the empty string, so the result is what the loop makes of
    the input without such symbols. *)
Theorem encode_input_missing_symbols (st : code_table) (input res : str) :
  encode_input st input res
  = encode_input st (filter (has_code st) input) res.
Proof.
  rewrite !encode_input_spec. f_equal.
  induction input as [|c input IH]; [reflexivity|].
  cbn [flat_map filter].
  destruct (st_index_cases st c) as [[Hc _]|[Hc Hs]]; rewrite Hc.
  - cbn [flat_map]. now rewrite IH.
  - now rewrite Hs, IH.
Qed.

(** ** The tree that [generate_codes] walks is the tree that was built *)

Lemma sorted_perm_eq (l l' : list Z) :
  StronglySorted Z.le l -> StronglySorted Z.le l' -> Permutation l l' ->
  l = l'.
Proof.
  revert l'. induction l as [|a l IH]; intros l' Hs Hs' Hp.
  - apply Permutation_nil in Hp. now subst.
  - destruct l' as [|b l'].
    { apply Permutation_sym, Permutation_nil in Hp. discriminate. }
    inversion Hs as [|? ? Hsl Ha]; subst.
    inversion Hs' as [|? ? Hsl' Hb]; subst.
    rewrite Forall_forall in Ha, Hb.
    assert (E : a = b).
    { assert (Hab : (a <= b)%Z).
      { assert (Hin : In b (a :: l))
          by (apply (Permutation_in _ (Permutation_sym Hp)); now left).
        destruct Hin as [->|Hin]; [lia|now apply Ha]. }
      assert (Hba : (b <= a)%Z).
      { assert (Hin : In a (b :: l'))
          by (apply (Permutation_in _ Hp); now left).
        destruct Hin as [->|Hin]; [lia|now apply Hb]. }
      lia. }
    subst b. f_equal. apply IH; try assumption.
    now apply Permutation_cons_inv in Hp.
Qed.

Lemma sorted_app (l l' : list Z) :
  StronglySorted Z.le l -> StronglySorted Z.le l' ->
  (forall a b, In a l -> In b l' -> (a <= b)%Z) ->
  StronglySorted Z.le (l ++ l').
Proof.
  induction 1 as [|a l Hs IH Ha]; intros Hs' Hc; [exact Hs'|].
  simpl. constructor.
  - apply IH; [exact Hs'|]. intros x y Hx Hy. apply Hc; [now right|exact Hy].
  - apply Forall_app. split; [exact Ha|].
    apply Forall_forall. intros y Hy. apply Hc; [now left|exact Hy].
Qed.

Lemma sorted_rev (l : list Z) :
  StronglySorted Z.ge l -> StronglySorted Z.le (rev l).
Proof.
  induction 1 as [|a l Hs IH Ha]; [constructor|].
  simpl. apply sorted_app; [exact IH|repeat constructor|].
  intros x y Hx [<-|[]]. apply in_rev in Hx.
  rewrite Forall_forall in Ha. specialize (Ha x Hx). lia.
Qed.

(** *** The order of the picks while the array is built *)

(** The weights of the nodes that the steps of [merge_array] consumed, in
    the order in which they were consumed. *)
Lemma merge_array_picks (leaves nodes : list node) (consumed : list nat) :
  merge_array leaves nodes consumed ->
  Forall (fun x => (0 <= fst x)%Z) leaves ->
  NoDup consumed /\
  length leaves <= length nodes /\
  length consumed = 2 * (length nodes - length leaves) /\
  (forall i, i < length nodes -> (0 <= weight nodes i)%Z) /\
  StronglySorted Z.le (map (weight nodes) (rev consumed)) /\
  (forall z c, z < length nodes -> ~ In z consumed -> In c consumed ->
     (weight nodes c <= weight nodes z)%Z) /\
  (forall j, length leaves + j < length nodes ->
     weight nodes (length leaves + j)
     = (nth (2 * j) (map (weight nodes) (rev consumed)) 0
        + nth (2 * j + 1) (map (weight nodes) (rev consumed)) 0)%Z).
Proof.
  intros Hma Hpos.
  induction Hma as [|nodes consumed x y Hma IH Hxy].
  - split; [constructor|]. split; [lia|]. split; [simpl; lia|].
    split.
    { intros i Hi. unfold weight. rewrite Forall_forall in Hpos.
      apply Hpos. now apply nth_In. }
    split; [constructor|]. split; [intros z c _ _ []|].
    intros j Hj. lia.
  - destruct IH as (Hnd & Hlen & Hcl & Hnn & Hs & Hlive & Hsum).
    destruct Hxy as (Hx & Hy & Hne & Hle & Hmin).
    pose proof (merge_array_consumed_lt Hma) as Hlt.
    apply In_live in Hx, Hy.
    destruct Hx as [Hxl Hxc], Hy as [Hyl Hyc].
    set (new := merge_first_op (nth x nodes node_default)
                  (nth y nodes node_default)).
    assert (Hold : forall i, i < length nodes ->
              weight (nodes ++ [new]) i = weight nodes i)
      by (intros; now apply weight_app_l).
    assert (Hnew : weight (nodes ++ [new]) (length nodes)
                   = (weight nodes x + weight nodes y)%Z)
      by (rewrite weight_app_r; reflexivity).
    assert (Hmap : map (weight (nodes ++ [new])) (rev (y :: x :: consumed))
                   = map (weight nodes) (rev consumed)
                     ++ [weight nodes x; weight nodes y]).
    { cbn [rev]. rewrite <- app_assoc, map_app. cbn [app map].
      rewrite !Hold by assumption. f_equal.
      apply map_ext_in. intros c Hc. apply Hold, Hlt. now apply in_rev. }
    rewrite length_app. cbn [length].
    split.
    { constructor; [intros [E|Hin]; [now apply Hne|contradiction]|].
      constructor; assumption. }
    split; [lia|]. split; [lia|].
    split.
    { intros i Hi. destruct (Nat.eq_dec i (length nodes)) as [->|Hne'].
      - rewrite Hnew. pose proof (Hnn x Hxl). pose proof (Hnn y Hyl). lia.
      - rewrite Hold by lia. apply Hnn. lia. }
    split.
    { rewrite Hmap. apply sorted_app; [exact Hs| |].
      - constructor; [repeat constructor|]. constructor; [exact Hle|constructor].
      - intros a b Ha Hb. apply in_map_iff in Ha.
        destruct Ha as (c & <- & Hc). apply in_rev in Hc.
        assert (Hcx : (weight nodes c <= weight nodes x)%Z)
          by (now apply Hlive).
        destruct Hb as [<-|[<-|[]]]; lia. }
    split.
    { intros z c Hz Hzc Hc.
      assert (Hzy : z <> y) by (intros ->; apply Hzc; now left).
      assert (Hzx : z <> x) by (intros ->; apply Hzc; right; now left).
      assert (Hzc' : ~ In z consumed)
        by (intros H; apply Hzc; right; now right).
      assert (Hcl' : c < length nodes).
      { destruct Hc as [<-|[<-|Hc]]; [assumption|assumption|now apply Hlt]. }
      rewrite (Hold c Hcl').
      assert (Hcy : (weight nodes c <= weight nodes y)%Z).
      { destruct Hc as [<-|[<-|Hc]]; [lia|exact Hle|now apply Hlive]. }
      destruct (Nat.eq_dec z (length nodes)) as [->|Hne'].
      - rewrite Hnew. pose proof (Hnn x Hxl). lia.
      - rewrite Hold by lia.
        assert (Hyz : (weight nodes y <= weight nodes z)%Z).
        { apply Hmin; [|assumption|assumption].
          apply In_live. split; [lia|assumption]. }
        lia. }
    intros j Hj. rewrite Hmap.
    assert (Hl : length (map (weight nodes) (rev consumed))
                 = 2 * (length nodes - length leaves))
      by (now rewrite length_map, length_rev).
    destruct (Nat.eq_dec (length leaves + j) (length nodes)) as [E|Hne'].
    + rewrite E, Hnew.
      rewrite !app_nth2 by lia. rewrite Hl.
      replace (2 * j - 2 * (length nodes - length leaves)) with 0 by lia.
      replace (2 * j + 1 - 2 * (length nodes - length leaves)) with 1 by lia.
      reflexivity.
    + rewrite Hold by lia. rewrite !app_nth1 by lia. apply Hsum. lia.
Qed.

(** *** The order of the picks while the codes are generated *)

Section MergeOrder.
Variable v : list node.
Variables N m : nat.
Hypothesis Hlen : length v = N.
Hypothesis Hm : m <= N.
Hypothesis Hleaves : forall p p', m <= p -> p <= p' -> p' < N ->
  (weight v p' <= weight v p)%Z.
Hypothesis Hinternal : forall q q', q <= q' -> q' < m ->
  (weight v q' <= weight v q)%Z.

(** Through the reverse iterators [next_node] hands out a heaviest of the
    nodes that are left. *)
Lemma next_node_heaviest (f0 f1 : nat) :
  m <= f0 -> f0 <= N -> f1 <= m -> f0 < N \/ f1 < m ->
  exists x f0' f1',
    next_node v (not2 compare_first) f0 N f1 m = Ret (x, f0', f1') /\
    ((x = f0 /\ f0' = S f0 /\ f1' = f1 /\ f0 < N) \/
     (x = f1 /\ f0' = f0 /\ f1' = S f1 /\ f1 < m)) /\
    (forall z, (f0 <= z /\ z < N) \/ (f1 <= z /\ z < m) ->
       (weight v z <= weight v x)%Z).
Proof.
  intros H0 H0N H1 Hne.
  destruct (Nat.eq_dec f1 m) as [E1|E1].
  - exists f0, (S f0), f1. unfold next_node.
    rewrite (proj2 (Nat.eqb_eq _ _) E1).
    split; [reflexivity|]. split; [left; lia|].
    intros z [Hz|Hz]; [|lia]. apply Hleaves; lia.
  - destruct (Nat.eq_dec f0 N) as [E0|E0].
    + exists f1, f0, (S f1). unfold next_node.
      rewrite (proj2 (Nat.eqb_neq _ _) E1), (proj2 (Nat.eqb_eq _ _) E0).
      split; [reflexivity|]. split; [right; lia|].
      intros z [Hz|Hz]; [lia|]. apply Hinternal; lia.
    + rewrite (@next_node_both _ v (not2 compare_first) f0 N f1 m
                 (nth f0 v node_default) (nth f1 v node_default));
        try assumption; try (apply nth_error_nth'; lia).
      unfold not2, compare_first.
      fold (weight v f1). fold (weight v f0).
      destruct (Z.ltb_spec (weight v f1) (weight v f0)) as [Hlt|Hge];
        cbn [negb].
      * exists f0, (S f0), f1. split; [reflexivity|]. split; [left; lia|].
        intros z [Hz|Hz].
        -- apply Hleaves; lia.
        -- pose proof (@Hinternal f1 z). lia.
      * exists f1, f0, (S f1). split; [reflexivity|]. split; [right; lia|].
        intros z [Hz|Hz].
        -- pose proof (@Hleaves f0 z). lia.
        -- apply Hinternal; lia.
Qed.

Lemma merge_order_desc :
  forall n f0 f1,
    m <= f0 -> f0 <= N -> f1 <= m -> (N - f0) + (m - f1) = n ->
    exists G,
      merge_order v (not2 compare_first) N m n f0 f1 = Ret G /\
      StronglySorted Z.ge (map (weight v) G) /\
      Permutation G (seq f0 (N - f0) ++ seq f1 (m - f1)).
Proof.
  induction n as [|n IH]; intros f0 f1 H0 H0N H1 Hn.
  - exists []. split; [reflexivity|]. split; [constructor|].
    replace (N - f0) with 0 by lia. replace (m - f1) with 0 by lia.
    constructor.
  - destruct (@next_node_heaviest f0 f1) as (x & f0' & f1' & Ex & Hx & Hmax);
      try assumption; [lia|].
    assert (Hst : m <= f0' /\ f0' <= N /\ f1' <= m /\
                  (N - f0') + (m - f1') = n)
      by (destruct Hx as [(-> & -> & -> & ?)|(-> & -> & -> & ?)]; lia).
    destruct Hst as (H0' & H0N' & H1' & Hn').
    destruct (IH f0' f1' H0' H0N' H1' Hn') as (G & EG & Hs & Hp).
    exists (x :: G). cbn [merge_order]. rewrite Ex. cbn [bind].
    rewrite EG. cbn [bind]. split; [reflexivity|].
    assert (Hsub : forall g, In g G ->
              (f0 <= g /\ g < N) \/ (f1 <= g /\ g < m)).
    { intros g Hg. apply (Permutation_in _ Hp) in Hg.
      apply in_app_or in Hg. rewrite !in_seq in Hg.
      destruct Hx as [(-> & -> & -> & ?)|(-> & -> & -> & ?)]; lia. }
    split.
    + cbn [map]. constructor; [exact Hs|].
      apply Forall_forall. intros w Hw. apply in_map_iff in Hw.
      destruct Hw as (g & <- & Hg). specialize (Hmax g (Hsub g Hg)). lia.
    + destruct Hx as [(-> & -> & -> & Hlt)|(-> & -> & -> & Hlt)].
      * replace (N - f0) with (S (N - S f0)) by lia. cbn [seq app].
        now constructor.
      * replace (m - f1) with (S (m - S f1)) by lia. cbn [seq].
        apply Permutation_cons_app. exact Hp.
Qed.
End MergeOrder.

(** *** The cost of the codes *)

Lemma code_cost_cons (wt : nat -> Z) (e : nat * str) (l : list (nat * str)) :
  code_cost wt (e :: l)
  = (wt (fst e) * Z.of_nat (length (snd e)) + code_cost wt l)%Z.
Proof. reflexivity. Qed.

Lemma code_cost_app (wt : nat -> Z) (l l' : list (nat * str)) :
  code_cost wt (l ++ l') = (code_cost wt l + code_cost wt l')%Z.
Proof. unfold code_cost. now rewrite map_app, zsum_app. Qed.

Section GenCost.
Variable T : Type.
Variable v : list T.
Variable cmp : T -> T -> bool.
Variable m : nat.
Variable c : nat -> nat -> bool.
Hypothesis Hcmp : compares v cmp m c.
Hypothesis Hmono : internal_monotone m c.
Hypothesis Hahead : internal_ahead m c.
Variable N : nat.
Hypothesis HN : N = 2 * m + 1.
Variable wt : nat -> Z.

Lemma queue_inv_done (f0 f1 : nat) (pending : list (nat * str)) :
  queue_inv m c m (m + 1) f0 f1 pending -> pending = [].
Proof.
  intros (Hi & Hl & HI & Hf1 & HL & Hf0 & H1 & Hx).
  destruct pending as [|e rest]; [reflexivity|]. exfalso.
  replace (f1 - m) with 0 in Hi by lia.
  replace (f0 - (m + (m + 1))) with 0 in Hl by lia.
  cbn [map filter seq] in Hi, Hl.
  destruct (Nat.ltb_spec (fst e) m) as [Hlt|Hge]; [discriminate|].
  replace (m <=? fst e) with true in Hl
    by (symmetry; apply Nat.leb_le; lia).
  discriminate.
Qed.

(** Each expansion replaces a queued internal node by its two children,
    one character deeper: if every internal node weighs what the two
    nodes handed out for it weigh, the emitted codes cost the weights of
    the internal nodes still to be expanded more than the queued codes. *)
Lemma gen_list_cost_from :
  forall n I L f0 f1 (pending : list (nat * str)) G,
    queue_inv m c I L f0 f1 pending ->
    (f1 - 1) + (f0 - m) = 2 * I ->
    I + L + n = 2 * m + 1 ->
    merge_order v cmp N m (2 * (m - I)) f0 f1 = Ret G ->
    (forall t, t < m - I ->
       wt (I + t)
       = (wt (nth (2 * t) G 0%nat) + wt (nth (2 * t + 1) G 0%nat))%Z) ->
    exists out,
      gen_list v cmp N m n f0 f1 pending = Ret out /\
      code_cost wt out
      = (code_cost wt pending + zsum (map wt (seq I (m - I))))%Z.
Proof.
  induction n as [|n IH]; intros I L f0 f1 pending G Hq Hp Hn HG Hw; simpl.
  - exists []. split; [reflexivity|].
    assert (E : I = m /\ L = m + 1).
    { destruct Hq as (_ & _ & HI & Hf1 & HL & Hf0 & _). lia. }
    destruct E as [-> ->]. rewrite (queue_inv_done Hq).
    rewrite Nat.sub_diag. reflexivity.
  - destruct pending as [|cur rest].
    + exfalso.
      destruct Hq as (Hi & Hl & HI & Hf1 & HL & Hf0 & H1 & Hx). simpl in *.
      symmetry in Hi, Hl. apply seq_nil_inv in Hi, Hl.
      assert (Ef1 : f1 = I) by lia. assert (Ef0 : f0 = m + L) by lia.
      assert (EL : L = S I) by lia. assert (HIm : I < m) by lia.
      specialize (Hx (m + I) I). rewrite Hahead in Hx by lia.
      assert (true = false) by (apply Hx; lia). discriminate.
    + destruct (Nat.leb_spec m (fst cur)) as [Hleaf|Hint].
      * destruct Hq as (Hi & Hl & HI & Hf1 & HL & Hf0 & H1 & Hx).
        simpl in Hi, Hl.
        replace (fst cur <? m) with false in Hi
          by (symmetry; apply Nat.ltb_ge; lia).
        replace (m <=? fst cur) with true in Hl
          by (symmetry; apply Nat.leb_le; lia).
        symmetry in Hl. apply seq_cons_inv in Hl.
        destruct Hl as (Ecur & Hl & Hpos).
        destruct (IH I (S L) f0 f1 rest G) as (out & Hout & Hcost);
          try assumption; try lia.
        { unfold queue_inv. rewrite Hi, Hl.
          repeat split; try lia; [|exact Hx]. f_equal; lia. }
        exists (cur :: out). rewrite Hout. simpl. split; [reflexivity|].
        rewrite !code_cost_cons, Hcost. lia.
      * destruct Hq as (Hi & Hl & HI & Hf1 & HL & Hf0 & H1 & Hx).
        simpl in Hi, Hl.
        replace (fst cur <? m) with true in Hi
          by (symmetry; apply Nat.ltb_lt; lia).
        replace (m <=? fst cur) with false in Hl
          by (symmetry; apply Nat.leb_gt; lia).
        symmetry in Hi. apply seq_cons_inv in Hi.
        destruct Hi as (Ecur & Hi & Hpos).
        assert (Hrest : queue_inv m c (S I) L f0 f1 rest).
        { unfold queue_inv. rewrite Hi, Hl.
          repeat split; try lia; [|exact Hx]. f_equal; lia. }
        destruct (queue_inv_pick Hcmp Hmono HN (snd cur ++ [c1]) Hrest)
          as (x & f0' & f1' & Ex & Hq' & Hp'); [lia|].
        destruct (queue_inv_pick Hcmp Hmono HN (snd cur ++ [c0]) Hq')
          as (y & f0'' & f1'' & Ey & Hq'' & Hp''); [lia|].
        rewrite Ex. simpl. rewrite Ey. simpl.
        rewrite <- app_assoc in Hq''. simpl in Hq''.
        assert (HIm : I < m) by lia.
        replace (2 * (m - I)) with (S (S (2 * (m - S I)))) in HG by lia.
        cbn [merge_order] in HG. rewrite Ex in HG. cbn [bind] in HG.
        rewrite Ey in HG. cbn [bind] in HG.
        destruct (merge_order v cmp N m (2 * (m - S I)) f0'' f1'')
          as [G'| | |] eqn:EG'; try discriminate.
        cbn [bind] in HG. injection HG as <-.
        assert (Hsum : wt I = (wt x + wt y)%Z).
        { specialize (Hw 0 ltac:(lia)).
          rewrite Nat.add_0_r in Hw. exact Hw. }
        destruct (IH (S I) L f0'' f1'' _ G' Hq'') as (out & Hout & Hcost);
          try lia; [exact EG'| |].
        { intros t Ht. specialize (Hw (S t) ltac:(lia)).
          replace (I + S t) with (S I + t) in Hw by lia.
          replace (2 * S t) with (S (S (2 * t))) in Hw by lia.
          cbn [nth Nat.add] in Hw. exact Hw. }
        exists out. split; [exact Hout|].
        rewrite Hcost, code_cost_app, !code_cost_cons. cbn [fst snd].
        unfold code_cost at 2. cbn [map zsum fold_right].
        rewrite !length_app. cbn [length].
        replace (m - I) with (S (m - S I)) by lia. cbn [seq map].
        cbn [zsum fold_right]. fold (zsum (map wt (seq (S I) (m - S I)))).
        rewrite Ecur, Hsum, !Nat2Z.inj_add. cbn [Z.of_nat Pos.of_succ_nat].
        ring.
Qed.
End GenCost.

(** *** The two orders are one order *)

Lemma rev_seq (n : nat) : rev (seq 0 n) = map (fun j => n - S j) (seq 0 n).
Proof.
  apply nth_error_ext. intros i.
  destruct (Nat.lt_ge_cases i n) as [Hi|Hi].
  - rewrite nth_error_rev by (now rewrite length_seq).
    rewrite length_seq. rewrite nth_error_map.
    rewrite !nth_error_seq.
    replace (n - S i <? n) with true by (symmetry; apply Nat.ltb_lt; lia).
    replace (i <? n) with true by (symmetry; apply Nat.ltb_lt; lia).
    reflexivity.
  - rewrite (proj2 (nth_error_None _ _))
      by (now rewrite length_rev, length_seq).
    rewrite (proj2 (nth_error_None _ _))
      by (now rewrite length_map, length_seq).
    reflexivity.
Qed.

Lemma zsum_rev_seq (g : nat -> Z) (n : nat) :
  zsum (map g (seq 0 n)) = zsum (map (fun j => g (n - S j)) (seq 0 n)).
Proof.
  rewrite <- (map_map (fun j => n - S j) g), <- rev_seq.
  apply zsum_perm, Permutation_map, Permutation_rev.
Qed.

Section TreeIdentity.
Variables leaves nodes : list node.
Variable consumed : list nat.
Hypothesis Hk2 : 2 <= length leaves.
Hypothesis Hlen : length nodes = 2 * length leaves - 1.
Hypothesis Hinv :
  build_inv leaves nodes (length leaves) (2 * length leaves - 2) consumed.
Hypothesis Hnn :
  build_inv_nonneg leaves nodes (length leaves) (2 * length leaves - 2).
Hypothesis Hsorted : StronglySorted (not_after compare_first) leaves.
Hypothesis Hpos : Forall (fun x => (0 <= fst x)%Z) leaves.

(** Seen through the reverse iterators, [generate_codes] hands the nodes
    out from the heaviest to the lightest, [build_huffman_array] consumed
    them from the lightest to the heaviest, two for each internal node:
    each internal node weighs what its two children weigh. *)
Lemma children_weights :
  exists G,
    merge_order (rev nodes) (not2 compare_first) (length nodes)
      (length leaves - 1) (2 * (length leaves - 1)) (length leaves - 1) 1
    = Ret G /\
    forall t, t < length leaves - 1 ->
      weight (rev nodes) t
      = (weight (rev nodes) (nth (2 * t) G 0%nat)
         + weight (rev nodes) (nth (2 * t + 1) G 0%nat))%Z.
Proof.
  pose proof Hinv as (Hfirst & _ & _ & _ & _ & _ & Hcons & Hma & _).
  pose proof Hnn as (_ & Hint & Hahead & _).
  cbv zeta in Hfirst, Hcons, Hint, Hahead.
  set (k := length leaves) in *. set (m := k - 1).
  set (N := length nodes) in *.
  assert (HN : N = 2 * m + 1) by (unfold m; lia).
  assert (Hleaf : forall p p', p <= p' -> p' < k ->
            (weight nodes p <= weight nodes p')%Z).
  { intros p p' H1 H2. now apply (leaves_weight_sorted Hk2 Hsorted). }
  (* the order of generation *)
  destruct (@merge_order_desc (rev nodes) N m) with (n := 2 * m) (f0 := m)
    (f1 := 1) as (G & EG & HsG & HpG); try lia.
  { apply length_rev. }
  { intros p p' H1 H2 H3. rewrite !weight_rev by (fold N; lia).
    fold N. apply Hleaf; lia. }
  { intros q q' H1 H2. rewrite !weight_rev by (fold N; lia).
    fold N. apply Hint; fold N; lia. }
  exists G. split; [exact EG|].
  assert (HlG : length G = 2 * m).
  { rewrite (Permutation_length HpG), length_app, !length_seq. lia. }
  (* descending: the root first *)
  set (D := map (weight (rev nodes)) (0 :: G)).
  assert (HsD : StronglySorted Z.ge D).
  { unfold D. cbn [map]. constructor; [exact HsG|].
    apply Forall_forall. intros w Hw. apply in_map_iff in Hw.
    destruct Hw as (g & <- & Hg). apply (Permutation_in _ HpG) in Hg.
    apply in_app_or in Hg. rewrite !in_seq in Hg.
    rewrite !weight_rev by (fold N; lia). fold N.
    destruct Hg as [Hg|Hg].
    - assert (H1 : (weight nodes (N - S g) <= weight nodes m)%Z)
        by (apply Hleaf; lia).
      pose proof (Hahead (m - 1)) as H2.
      replace (S (m - 1)) with m in H2 by lia.
      replace (k + (m - 1)) with (N - 1) in H2 by lia.
      specialize (H2 ltac:(lia)). lia.
    - assert (H1 : (weight nodes (N - S g) <= weight nodes (N - 1))%Z)
        by (apply Hint; fold N; lia).
      lia. }
  (* ascending: the root last *)
  destruct (merge_array_picks Hma Hpos)
    as (Hnd & _ & Hcl & _ & HsA & Hlive & Hsum).
  set (A := map (weight nodes) (rev consumed ++ [N - 1])).
  assert (Hroot : ~ In (N - 1) consumed) by (rewrite Hcons; lia).
  assert (HsA' : StronglySorted Z.le A).
  { unfold A. rewrite map_app. apply sorted_app; [exact HsA| |].
    - repeat constructor.
    - intros a b Ha [<-|[]]. apply in_map_iff in Ha.
      destruct Ha as (c & <- & Hc). apply in_rev in Hc.
      apply Hlive; [fold N; lia|exact Hroot|exact Hc]. }
  assert (HpA : Permutation (rev consumed ++ [N - 1]) (seq 0 N)).
  { apply NoDup_Permutation_bis.
    - apply NoDup_app; [now apply NoDup_rev|repeat constructor; intros []|].
      intros z Hz [<-|[]]. apply Hroot. now apply in_rev.
    - rewrite length_app, length_rev, length_seq, Hcl. cbn [length].
      fold N k. lia.
    - intros z Hz. apply in_seq. apply in_app_or in Hz.
      destruct Hz as [Hz|[<-|[]]]; [|lia].
      apply in_rev in Hz. apply Hcons in Hz. lia. }
  assert (Hp0 : Permutation (0 :: G) (seq 0 N)).
  { assert (Hseq : seq 0 N = 0 :: seq 1 (m - 1) ++ seq m (N - m)).
    { replace N with (S ((m - 1) + (N - m))) at 1 by lia.
      cbn [seq]. f_equal. rewrite seq_app. do 2 f_equal. lia. }
    rewrite Hseq. constructor.
    eapply Permutation_trans; [exact HpG|]. apply Permutation_app_comm. }
  assert (HAD : A = rev D).
  { apply sorted_perm_eq; [exact HsA'|now apply sorted_rev|].
    eapply Permutation_trans; [|apply Permutation_rev].
    unfold A, D.
    eapply Permutation_trans; [apply Permutation_map; exact HpA|].
    eapply Permutation_trans;
      [|apply Permutation_map, Permutation_sym; exact Hp0].
    unfold N. rewrite map_weight_seq.
    rewrite <- (length_rev nodes), map_weight_seq, map_rev.
    apply Permutation_rev. }
  assert (HlD : length D = N)
    by (unfold D; rewrite length_map; cbn [length]; lia).
  assert (HnD : forall i, i < 2 * m ->
            nth (S i) D 0%Z = weight (rev nodes) (nth i G 0%nat)).
  { intros i Hi. unfold D. cbn [map nth].
    rewrite (nth_indep _ 0%Z (weight (rev nodes) 0%nat))
      by (rewrite length_map; lia).
    apply map_nth. }
  assert (HnA : forall i, i < 2 * m ->
            nth i (map (weight nodes) (rev consumed)) 0%Z
            = nth (N - S i) D 0%Z).
  { intros i Hi.
    replace (N - S i) with (length D - S i) by (now rewrite HlD).
    rewrite <- (rev_nth D 0%Z) by (rewrite HlD; lia).
    rewrite <- HAD. unfold A. rewrite map_app, app_nth1; [reflexivity|].
    rewrite length_map, length_rev, Hcl. fold N k. lia. }
  intros t Ht.
  rewrite (weight_rev nodes) by (fold N; lia). fold N.
  replace (N - S t) with (k + (m - 1 - t)) by lia.
  rewrite Hsum by (fold N; lia).
  rewrite !HnA by lia.
  replace (N - S (2 * (m - 1 - t))) with (S (2 * t + 1)) by lia.
  replace (N - S (2 * (m - 1 - t) + 1)) with (S (2 * t)) by lia.
  rewrite !HnD by lia. lia.
Qed.
End TreeIdentity.

Lemma list_as_seq (A : Type) (l : list A) (d : A) :
  l = map (fun i => nth i l d) (seq 0 (length l)).
Proof.
  apply nth_error_ext. intros i.
  rewrite nth_error_map, nth_error_seq.
  destruct (Nat.ltb_spec i (length l)) as [Hi|Hi]; cbn [option_map Nat.add].
  - now apply nth_error_nth'.
  - now apply nth_error_None.
Qed.

Section CodeCost.
Variables leaves nodes : list node.
Variable consumed : list nat.
Hypothesis Hk2 : 2 <= length leaves.
Hypothesis Hlen : length nodes = 2 * length leaves - 1.
Hypothesis Hsmall : 2 * length leaves - 1 < 2 ^ 16.
Hypothesis Hinv :
  build_inv leaves nodes (length leaves) (2 * length leaves - 2) consumed.
Hypothesis Hnn :
  build_inv_nonneg leaves nodes (length leaves) (2 * length leaves - 2).
Hypothesis Hsorted : StronglySorted (not_after compare_first) leaves.
Hypothesis Hpos : Forall (fun x => (0 <= fst x)%Z) leaves.
Hypothesis Hnd : NoDup (map snd leaves).

(** The codes of the encoder take, for all the leaves together, as many
    characters as the internal nodes weigh. *)
Lemma encoder_codes_cost :
  exists st,
    encoder_codes compare_first (@get_second Z) nodes (length leaves)
    = Ret st /\
    zsum (map (fun e =>
                 (fst e * Z.of_nat (length (st_index st (snd e))))%Z) leaves)
    = zsum (map fst (skipn (length leaves) nodes)).
Proof.
  pose proof Hinv as (Hfirst & _).
  set (k := length leaves) in *. set (m := k - 1).
  assert (HN : length nodes = 2 * m + 1) by (unfold m; lia).
  pose proof (@encoder_compares leaves nodes Hk2 Hlen Hsmall) as Hc.
  pose proof (@rev_compare_monotone leaves nodes Hk2 Hlen Hsmall Hnn)
    as Hmono.
  pose proof (@rev_compare_ahead leaves nodes Hk2 Hlen Hsmall Hnn) as Hahead.
  fold k m in Hc, Hmono, Hahead.
  destruct (children_weights Hk2 Hlen Hinv Hnn Hsorted Hpos)
    as (G & EG & Hw).
  fold k m in EG, Hw.
  assert (Hq : queue_inv m (rev_compare nodes) 0 0 m 1 [(0, [])]).
  { unfold queue_inv. cbn [map filter fst].
    replace (0 <? m) with true by (symmetry; apply Nat.ltb_lt; unfold m; lia).
    replace (m <=? 0) with false
      by (symmetry; apply Nat.leb_gt; unfold m; lia).
    replace (m - (m + 0)) with 0 by lia.
    split; [reflexivity|]. split; [reflexivity|].
    repeat split; lia. }
  destruct (@gen_list_cost_from _ _ _ _ _ Hc Hmono Hahead _ HN
              (weight (rev nodes)) (length nodes) 0 0 m 1 [(0, [])] G Hq)
    as (out & Eout & Hcost); try lia.
  { now rewrite Nat.sub_0_r. }
  { intros t Ht. rewrite Nat.sub_0_r in Ht. apply Hw. exact Ht. }
  destruct (gen_list_leaves Hc Hmono Hahead HN) as (out' & Eout' & Hfst);
    [unfold m; lia|].
  rewrite Nat.sub_0_r, Eout in Eout'. injection Eout' as <-.
  replace (m + 1) with k in Hfst by (unfold m; lia).
  rewrite Nat.sub_0_r in Hcost.
  assert (Hol : length out = k).
  { rewrite <- (length_map fst out), Hfst. apply length_seq. }
  assert (Hsym : map (fun e => symbol (rev nodes) (fst e)) out
                 = rev (map snd leaves)).
  { rewrite <- (map_map fst (symbol (rev nodes))), Hfst.
    apply leaf_symbols_rev; [fold k; lia|exact Hlen|exact Hfirst]. }
  assert (Hrange : Forall (fun e => fst e < length (rev nodes)) out).
  { rewrite length_rev. apply Forall_forall. intros e He.
    assert (Hin : In (fst e) (map fst out)) by now apply in_map.
    rewrite Hfst in Hin. apply in_seq in Hin. unfold m in *. lia. }
  set (st := map (fun e => (symbol (rev nodes) (fst e), snd e)) out).
  exists st. split.
  { unfold encoder_codes. fold k. rewrite HN.
    replace (2 * m + 1 - k) with m by (unfold m; lia).
    rewrite <- HN.
    erewrite generate_codes_gen_list;
      [|rewrite Nat.sub_0_r; exact Eout].
    rewrite run_callback_st_op; [reflexivity|exact Hrange|].
    simpl. rewrite Hsym. apply NoDup_rev. exact Hnd. }
  (* the leaves, by their place in the array *)
  set (d := (0, @nil ascii)).
  assert (Hfe : forall j, j < k -> fst (nth j out d) = m + j).
  { intros j Hj.
    change (fst (nth j out d)) with (fst (nth j out (0, @nil ascii))).
    rewrite <- (map_nth fst out (0, @nil ascii) j). rewrite Hfst.
    apply seq_nth. exact Hj. }
  rewrite (list_as_seq leaves node_default) at 1. fold k.
  rewrite map_map.
  rewrite (map_ext_in _
             (fun i => (weight nodes i
                        * Z.of_nat (length (snd (nth (k - S i) out d))))%Z)).
  2:{ intros i Hi. apply in_seq in Hi.
      fold (symbol leaves i). fold (weight leaves i).
      unfold st. rewrite (@table_code leaves nodes out i Hnd Hsym) by (fold k; lia).
      fold k d. rewrite <- Hfirst at 1.
      rewrite weight_firstn by (fold k; lia). reflexivity. }
  rewrite (zsum_rev_seq
             (fun i => (weight nodes i
                        * Z.of_nat (length (snd (nth (k - S i) out d))))%Z)).
  rewrite (map_ext_in _
             (fun j => (weight (rev nodes) (fst (nth j out d))
                        * Z.of_nat (length (snd (nth j out d))))%Z)).
  2:{ intros j Hj. apply in_seq in Hj.
      rewrite (Hfe j) by lia. rewrite weight_rev by (unfold m in *; lia).
      replace (k - S (k - S j)) with j by lia.
      do 2 f_equal. unfold m. lia. }
  rewrite <- (map_map (fun j => nth j out d)
                (fun e => (weight (rev nodes) (fst e)
                           * Z.of_nat (length (snd e)))%Z)).
  replace (seq 0 k) with (seq 0 (length out)) by (now rewrite Hol).
  rewrite <- (list_as_seq out d).
  match goal with
  | |- zsum (map ?f out) = _ =>
      change (zsum (map f out)) with (code_cost (weight (rev nodes)) out)
  end.
  rewrite Hcost. unfold code_cost.
  cbn [map zsum fold_right length snd]. rewrite Z.mul_0_r.
  cbn [Z.add].
  (* the internal nodes, by their place in the array *)
  rewrite (list_as_seq (skipn k nodes) node_default).
  rewrite length_skipn, map_map.
  replace (length nodes - k) with m by (unfold m; lia).
  rewrite (map_ext_in (fun i => fst (nth i (skipn k nodes) node_default))
             (fun i => weight nodes (k + i))).
  2:{ intros i _. rewrite nth_skipn. reflexivity. }
  rewrite (zsum_rev_seq (fun i => weight nodes (k + i))).
  f_equal. apply map_ext_in. intros t Ht. apply in_seq in Ht.
  rewrite weight_rev by (unfold m in *; lia). f_equal. unfold m in *. lia.
Qed.
End CodeCost.

(** One run of [compress], with the cost of its codes. *)
Lemma compress_cost_facts (impl : Implementation) (input : str) :
  2 <= distinct_symbols input ->
  exists fr leaves nodes consumed hdr st bits,
    compress_stages input fr nodes hdr st bits /\
    Permutation leaves fr /\
    Permutation (expand fr) input /\
    Forall (fun e => (1 <= fst e)%Z) fr /\
    NoDup (map snd leaves) /\
    (forall c, In c (map snd leaves) <-> In c input) /\
    merge_array leaves nodes consumed /\
    zsum (map (fun e =>
                 (fst e * Z.of_nat (length (st_index st (snd e))))%Z) leaves)
    = zsum (map fst (skipn (length leaves) nodes)).
Proof.
  intros H2.
  destruct (@frequencies_table impl input)
    as (fr & Efr & Hexp & Hpos1 & Hin & Hstrict & _).
  pose proof (strict_NoDup Hstrict) as Hnd.
  pose proof (std_sort_perm compare_first fr) as Hperm.
  pose proof (std_sort_sorted fr compare_first_swo) as Hsorted.
  remember (std_sort compare_first fr) as leaves eqn:Eleaves.
  assert (Hlf : length leaves = length fr)
    by (now apply Permutation_length).
  assert (Hsyms : forall c, In c (map snd fr) <-> In c input).
  { intros c. split.
    - intros Hc. apply in_map_iff in Hc. destruct Hc as ([n c'] & <- & He).
      now apply Hin in He.
    - intros Hc. apply in_map_iff.
      exists (Z.of_nat (count_occ ascii_dec input c), c).
      split; [reflexivity|]. apply Hin. auto. }
  assert (Hk : length fr = distinct_symbols input).
  { unfold distinct_symbols. rewrite <- (length_map snd fr).
    apply Permutation_length, NoDup_Permutation.
    - exact Hnd.
    - apply NoDup_nodup.
    - intros c. rewrite nodup_In. apply Hsyms. }
  assert (Hnd' : NoDup (map snd leaves)).
  { eapply Permutation_NoDup; [|exact Hnd].
    apply Permutation_map. now apply Permutation_sym. }
  assert (Hin' : forall c, In c (map snd leaves) <-> In c input).
  { intros c. rewrite <- Hsyms. split; apply Permutation_in;
      apply Permutation_map; [assumption|now apply Permutation_sym]. }
  assert (H256 : length leaves <= 256).
  { rewrite <- (length_map snd leaves). now apply NoDup_ascii_length. }
  assert (Hpos' : Forall (fun x => (0 <= fst x)%Z) leaves).
  { eapply Permutation_Forall; [apply Permutation_sym; exact Hperm|].
    eapply Forall_impl; [|exact Hpos1]. simpl. intros; lia. }
  assert (Hk2 : 2 <= length leaves) by lia.
  destruct (@build_huffman_array_returns leaves Hk2 Hsorted)
    as (nodes & consumed & Ebuild & Hnodes & Hinv & Hnn).
  { assert (Hv : vector_max_size = 576460752303423487%Z) by reflexivity.
    rewrite Hv. lia. }
  specialize (Hnn Hpos').
  assert (Hsmall : 2 * length leaves - 1 < 2 ^ 16).
  { assert (E : 512 <= 2 ^ 16) by (apply Nat.leb_le; reflexivity). lia. }
  destruct (@header_read_header impl nodes (length leaves))
    as (hdr & Ehdr & _); try lia.
  { intros p p' Hp Hp'. destruct Hinv as (Hfirst & _).
    apply (leaves_weight_sorted Hk2 Hsorted); assumption. }
  { destruct Hnn as (_ & Hint & _). exact Hint. }
  destruct (encoder_codes_cost Hk2 Hnodes Hsmall Hinv Hnn Hsorted Hpos' Hnd')
    as (st & Ecodes & Hcost).
  assert (Ecompress : forall fuel, length input + 2 * length leaves <= fuel ->
            compress fuel input
            = Ret (hdr ++ flat_map (st_index st) input)).
  { intros fuel Hfuel. unfold compress.
    rewrite Efr by lia. cbn [bind]. rewrite <- Eleaves.
    unfold huffman_encoder.
    rewrite Ebuild by lia. cbn [bind].
    rewrite Ehdr by lia. cbn [bind].
    rewrite Ecodes. cbn [bind].
    now rewrite encode_input_spec. }
  pose proof Hinv as (_ & _ & _ & _ & _ & _ & _ & Hma & _).
  exists fr, leaves, nodes, consumed, hdr, st,
    (hdr ++ flat_map (st_index st) input).
  split.
  { unfold compress_stages.
    split; [exists (S (length input)); intros; apply Efr; lia|].
    split; [exists (length leaves); rewrite <- Eleaves; exact Ebuild|].
    split; [exists (length nodes); exact Ehdr|].
    split; [rewrite <- Hlf; exact Ecodes|].
    split; [exists (length input + 2 * length leaves); exact Ecompress|].
    reflexivity. }
  split; [exact Hperm|]. split; [exact Hexp|]. split; [exact Hpos1|].
  split; [exact Hnd'|]. split; [exact Hin'|]. split; [exact Hma|].
  exact Hcost.
Qed.

(** The number of characters that a table of codes takes for the input,
    counted over the frequency table. *)
Lemma length_encoded (g : ascii -> str) (fr leaves : list node)
    (input : str) :
  Permutation leaves fr -> Permutation (expand fr) input ->
  Forall (fun e => (1 <= fst e)%Z) fr ->
  Z.of_nat (length (flat_map g input))
  = zsum (map (fun e => (fst e * Z.of_nat (length (g (snd e))))%Z) leaves).
Proof.
  intros Hperm Hexp Hpos.
  rewrite (zsum_perm
             (Permutation_map
                (fun e => (fst e * Z.of_nat (length (g (snd e))))%Z) Hperm)).
  rewrite <- (length_flat_map_expand _ Hpos).
  f_equal. apply Permutation_length, Permutation_flat_map.
  now apply Permutation_sym.
Qed.

(** X21.  The codes are the codes of the tree that was built: for an
    input with at least two distinct symbols the output of [compress]
    has, after the header, exactly as many characters as the internal
    nodes of the merge array weigh together.  (Each internal node weighs
    what the two nodes weigh that [generate_codes] makes its children, so
    a symbol is written once for every internal node above its leaf.) *)
Theorem compress_payload_internal_weight (impl : Implementation)
    (input : str) :
  2 <= distinct_symbols input ->
  exists fr nodes hdr st bits,
    compress_stages input fr nodes hdr st bits /\
    Z.of_nat (length bits)
    = (Z.of_nat (length hdr) + zsum (map fst (skipn (length fr) nodes)))%Z.
Proof.
  intros H2.
  destruct (compress_cost_facts impl input H2)
    as (fr & leaves & nodes & consumed & hdr & st & bits & Hst & Hperm &
        Hexp & Hpos & _ & _ & _ & Hcost).
  exists fr, nodes, hdr, st, bits. split; [exact Hst|].
  destruct Hst as (_ & _ & _ & _ & _ & ->).
  rewrite length_app, Nat2Z.inj_add. f_equal.
  rewrite <- (Permutation_length Hperm), <- Hcost.
  now apply (@length_encoded (st_index st) fr leaves input).
Qed.

(** ** No prefix code is shorter *)

(** *** Sums over lists without repetition *)

Lemma zsum_update (ps : list nat) (a : nat) (f f' : nat -> Z) :
  NoDup ps -> In a ps ->
  (forall z, In z ps -> z <> a -> f' z = f z) ->
  zsum (map f' ps) = (zsum (map f ps) - f a + f' a)%Z.
Proof.
  induction 1 as [|b ps Hb Hnd IH]; intros Ha Hf; [destruct Ha|].
  cbn [map zsum fold_right]. fold (zsum (map f' ps)). fold (zsum (map f ps)).
  destruct Ha as [->|Ha].
  - assert (E : map f' ps = map f ps).
    { apply map_ext_in. intros z Hz. apply Hf; [now right|].
      intros ->. contradiction. }
    rewrite E. lia.
  - rewrite IH; [|exact Ha|intros z Hz Hne; apply Hf; [now right|exact Hne]].
    rewrite (Hf b); [lia|now left|]. intros ->. contradiction.
Qed.

Lemma zsum_update2 (ps : list nat) (a b : nat) (f f' : nat -> Z) :
  NoDup ps -> In a ps -> In b ps -> a <> b ->
  (forall z, In z ps -> z <> a -> z <> b -> f' z = f z) ->
  zsum (map f' ps) = (zsum (map f ps) - f a - f b + f' a + f' b)%Z.
Proof.
  intros Hnd Ha Hb Hab Hf.
  set (g := fun z => if z =? a then f' a else f z).
  assert (Hg : zsum (map g ps) = (zsum (map f ps) - f a + g a)%Z).
  { apply zsum_update; try assumption. intros z Hz Hne. unfold g.
    now rewrite (proj2 (Nat.eqb_neq z a)). }
  assert (Hf' : zsum (map f' ps) = (zsum (map g ps) - g b + f' b)%Z).
  { apply zsum_update; try assumption. intros z Hz Hne. unfold g.
    destruct (Nat.eqb_spec z a) as [->|Hza]; [reflexivity|].
    now apply Hf. }
  rewrite Hf', Hg. unfold g. rewrite Nat.eqb_refl.
  rewrite (proj2 (Nat.eqb_neq b a)) by auto. lia.
Qed.

Lemma zsum_nonneg (l : list Z) :
  Forall (fun x => (0 <= x)%Z) l -> (0 <= zsum l)%Z.
Proof.
  induction 1 as [|x l Hx Hl IH]; cbn [zsum fold_right]; [lia|].
  fold (zsum l). lia.
Qed.

Lemma zsum_scale (A : Type) (h : A -> Z) (D : Z) (l : list A) :
  zsum (map (fun z => (D * h z)%Z) l) = (D * zsum (map h l))%Z.
Proof.
  induction l as [|a l IH]; cbn [map zsum fold_right]; [lia|].
  fold (zsum (map (fun z => (D * h z)%Z) l)). fold (zsum (map h l)).
  rewrite IH. lia.
Qed.

Lemma pow2_pos (n : nat) : (0 < 2 ^ Z.of_nat n)%Z.
Proof. apply Z.pow_pos_nonneg; lia. Qed.

Lemma pow2_split (a b : nat) :
  (2 ^ Z.of_nat (a + b) = 2 ^ Z.of_nat a * 2 ^ Z.of_nat b)%Z.
Proof. rewrite Nat2Z.inj_add. apply Z.pow_add_r; lia. Qed.

(** *** Longest codes *)

Lemma longest (len : nat -> nat) (ps : list nat) :
  ps <> [] -> exists p, In p ps /\ forall z, In z ps -> len z <= len p.
Proof.
  induction ps as [|a ps IH]; intros Hne; [contradiction|].
  destruct ps as [|b ps].
  - exists a. split; [now left|]. intros z [<-|[]]. lia.
  - destruct IH as (p & Hp & Hmax); [discriminate|].
    destruct (Nat.le_gt_cases (len a) (len p)) as [H|H].
    + exists p. split; [now right|]. intros z [<-|Hz]; [exact H|now apply Hmax].
    + exists a. split; [now left|]. intros z [<-|Hz]; [lia|].
      specialize (Hmax z Hz). lia.
Qed.

Lemma longest_but (len : nat -> nat) (ps : list nat) (p y : nat) :
  In y ps -> y <> p ->
  exists q, In q ps /\ q <> p /\
    forall z, In z ps -> z <> p -> len z <= len q.
Proof.
  intros Hy Hyp.
  destruct (@longest len (filter (fun z => negb (z =? p)) ps))
    as (q & Hq & Hmax).
  { intros E. assert (Hin : In y (filter (fun z => negb (z =? p)) ps)).
    { apply filter_In. split; [exact Hy|].
      apply negb_true_iff, Nat.eqb_neq. exact Hyp. }
    rewrite E in Hin. destruct Hin. }
  apply filter_In in Hq. destruct Hq as [Hq Hqp].
  apply negb_true_iff, Nat.eqb_neq in Hqp.
  exists q. split; [exact Hq|]. split; [exact Hqp|].
  intros z Hz Hzp. apply Hmax. apply filter_In. split; [exact Hz|].
  apply negb_true_iff, Nat.eqb_neq. exact Hzp.
Qed.

Section Exchange.
Variable w : nat -> Z.
Variable M : nat.
Variable ps : list nat.
Hypothesis Hnd : NoDup ps.
Hypothesis Hw : forall z, In z ps -> (0 <= w z)%Z.

(** Exchanging the lengths of two codes keeps Kraft's sum, and lowers
    the cost when the longer code goes to the lighter node. *)
Lemma swap_lengths_ok (len : nat -> nat) (a b : nat) :
  In a ps -> In b ps -> a <> b ->
  kraft_ok M len ps ->
  (w a <= w b)%Z -> len a <= len b ->
  kraft_ok M (swap_lengths len a b) ps /\
  (lengths_cost w (swap_lengths len a b) ps <= lengths_cost w len ps)%Z.
Proof.
  intros Ha Hb Hab [Hle Hk] Hwab Hlab.
  assert (Hsa : swap_lengths len a b a = len b)
    by (unfold swap_lengths; now rewrite Nat.eqb_refl).
  assert (Hsb : swap_lengths len a b b = len a).
  { unfold swap_lengths. rewrite (proj2 (Nat.eqb_neq b a)) by auto.
    now rewrite Nat.eqb_refl. }
  assert (Hso : forall z, z <> a -> z <> b -> swap_lengths len a b z = len z).
  { intros z Hza Hzb. unfold swap_lengths.
    now rewrite (proj2 (Nat.eqb_neq z a)), (proj2 (Nat.eqb_neq z b)). }
  split; [split|].
  - intros z Hz. destruct (Nat.eq_dec z a) as [->|Hza];
      [rewrite Hsa; now apply Hle|].
    destruct (Nat.eq_dec z b) as [->|Hzb]; [rewrite Hsb; now apply Hle|].
    rewrite Hso by assumption. now apply Hle.
  - unfold kraft_sum in *.
    rewrite (@zsum_update2 ps a b
               (fun z => (2 ^ Z.of_nat (M - len z))%Z)
               (fun z => (2 ^ Z.of_nat (M - swap_lengths len a b z))%Z));
      try assumption.
    + rewrite Hsa, Hsb. lia.
    + intros z _ Hza Hzb. now rewrite Hso.
  - unfold lengths_cost.
    rewrite (@zsum_update2 ps a b
               (fun z => (w z * Z.of_nat (len z))%Z)
               (fun z => (w z * Z.of_nat (swap_lengths len a b z))%Z));
      try assumption.
    + rewrite Hsa, Hsb.
      assert (H : (0 <= (w b - w a) * (Z.of_nat (len b) - Z.of_nat (len a)))%Z)
        by (apply Z.mul_nonneg_nonneg; lia).
      lia.
    + intros z _ Hza Hzb. now rewrite Hso.
Qed.

(** When one code is longer than all the others it can be cut down to
    the length of the longest of the others. *)
Lemma shorten_longest (len : nat -> nat) (p q : nat) :
  In p ps -> In q ps -> q <> p ->
  kraft_ok M len ps ->
  (forall z, In z ps -> z <> p -> len z <= len q) ->
  len q <= len p ->
  kraft_ok M (set_length len p (len q)) ps /\
  (lengths_cost w (set_length len p (len q)) ps <= lengths_cost w len ps)%Z.
Proof.
  intros Hp Hq Hqp [Hle Hk] Hmax Hqp'.
  assert (Hsp : set_length len p (len q) p = len q)
    by (unfold set_length; now rewrite Nat.eqb_refl).
  assert (Hso : forall z, z <> p -> set_length len p (len q) z = len z).
  { intros z Hz. unfold set_length. now rewrite (proj2 (Nat.eqb_neq z p)). }
  assert (HpM : len p <= M) by now apply Hle.
  split; [split|].
  - intros z Hz. destruct (Nat.eq_dec z p) as [->|Hzp].
    + rewrite Hsp. lia.
    + rewrite Hso by assumption. now apply Hle.
  - destruct (Nat.eq_dec (len q) (len p)) as [E|Hne].
    { unfold kraft_sum in *.
      rewrite (map_ext_in _ (fun z => (2 ^ Z.of_nat (M - len z))%Z));
        [exact Hk|].
      intros z Hz. destruct (Nat.eq_dec z p) as [->|Hzp].
      - now rewrite Hsp, E.
      - now rewrite Hso. }
    (* the other terms of the sum *)
    set (D := (2 ^ Z.of_nat (M - len q))%Z).
    set (h := fun z => if z =? p then 0%Z
                       else (2 ^ Z.of_nat (len q - len z))%Z).
    assert (HD : (0 < D)%Z) by apply pow2_pos.
    assert (Hothers : zsum (map (fun z => (D * h z)%Z) ps)
                      = (kraft_sum M len ps - 2 ^ Z.of_nat (M - len p))%Z).
    { unfold kraft_sum.
      rewrite (@zsum_update ps p
                 (fun z => (2 ^ Z.of_nat (M - len z))%Z)
                 (fun z => (D * h z)%Z)); try assumption.
      - unfold h. rewrite Nat.eqb_refl. lia.
      - intros z Hz Hzp. unfold h, D.
        rewrite (proj2 (Nat.eqb_neq z p)) by assumption.
        rewrite <- pow2_split. f_equal. f_equal.
        specialize (Hmax z Hz Hzp). specialize (Hle q Hq). lia. }
    rewrite zsum_scale in Hothers.
    set (o := zsum (map h ps)) in *.
    assert (HM : (2 ^ Z.of_nat M = D * 2 ^ Z.of_nat (len q))%Z).
    { unfold D. rewrite <- pow2_split. f_equal. f_equal.
      specialize (Hle q Hq). lia. }
    assert (Hlt : (o < 2 ^ Z.of_nat (len q))%Z).
    { pose proof (pow2_pos (M - len p)) as Hpos.
      apply (Z.mul_lt_mono_pos_l D); [exact HD|]. lia. }
    unfold kraft_sum.
    rewrite (@zsum_update ps p
               (fun z => (2 ^ Z.of_nat (M - len z))%Z)
               (fun z => (2 ^ Z.of_nat (M - set_length len p (len q) z))%Z));
      try assumption.
    2:{ intros z _ Hzp. now rewrite Hso. }
    rewrite Hsp. fold D. fold (kraft_sum M len ps).
    assert (Hle' : (D * o + D <= D * 2 ^ Z.of_nat (len q))%Z).
    { replace (D * o + D)%Z with (D * (o + 1))%Z by ring.
      apply Z.mul_le_mono_nonneg_l; lia. }
    lia.
  - unfold lengths_cost.
    rewrite (@zsum_update ps p
               (fun z => (w z * Z.of_nat (len z))%Z)
               (fun z => (w z * Z.of_nat (set_length len p (len q) z))%Z));
      try assumption.
    2:{ intros z _ Hzp. now rewrite Hso. }
    rewrite Hsp. specialize (Hw p Hp).
    assert (H : (w p * Z.of_nat (len q) <= w p * Z.of_nat (len p))%Z)
      by (apply Z.mul_le_mono_nonneg_l; lia).
    lia.
Qed.

(** Two codes of the same length leave room for no code of length 0. *)
Lemma two_longest_positive (len : nat -> nat) (p q : nat) :
  In p ps -> In q ps -> q <> p ->
  kraft_ok M len ps -> len p = len q -> 1 <= len p.
Proof.
  intros Hp Hq Hqp [Hle Hk] E.
  destruct (len p) as [|n] eqn:Ep; [exfalso|lia].
  unfold kraft_sum in Hk.
  set (f := fun z => (2 ^ Z.of_nat (M - len z))%Z) in *.
  set (f' := fun z => if (z =? p) || (z =? q) then 0%Z else f z).
  assert (Hsum : zsum (map f' ps)
                 = (zsum (map f ps) - f p - f q + f' p + f' q)%Z).
  { apply zsum_update2; try assumption; [auto|].
    intros z _ Hzp Hzq. unfold f'.
    now rewrite (proj2 (Nat.eqb_neq z p)), (proj2 (Nat.eqb_neq z q)). }
  assert (Hnn : (0 <= zsum (map f' ps))%Z).
  { apply zsum_nonneg. apply Forall_forall. intros x Hx.
    apply in_map_iff in Hx. destruct Hx as (z & <- & _). unfold f', f.
    destruct ((z =? p) || (z =? q)); [lia|].
    pose proof (pow2_pos (M - len z)). lia. }
  unfold f' in Hsum at 2 3. rewrite !Nat.eqb_refl, orb_true_r in Hsum.
  cbn [orb] in Hsum. unfold f in Hsum at 2 3.
  rewrite <- E, Ep, Nat.sub_0_r in Hsum.
  pose proof (pow2_pos M). lia.
Qed.

(** A longest code can be moved to a node that is not heavier. *)
Lemma move_longest (len : nat -> nat) (t s L : nat) :
  In t ps -> In s ps ->
  kraft_ok M len ps ->
  (forall z, In z ps -> len z <= L) ->
  len s = L -> (w t <= w s)%Z ->
  exists len',
    kraft_ok M len' ps /\
    (lengths_cost w len' ps <= lengths_cost w len ps)%Z /\
    (forall z, In z ps -> len' z <= L) /\
    len' t = L /\
    (forall z, z <> t -> z <> s -> len' z = len z) /\
    (len t = L -> forall z, len' z = len z).
Proof.
  intros Ht Hs Hok Hmax HsL Hwts.
  destruct (Nat.eq_dec (len t) L) as [E|Hne].
  - exists len. split; [exact Hok|]. split; [apply Z.le_refl|].
    split; [exact Hmax|]. split; [exact E|].
    split; intros; reflexivity.
  - assert (Hts : t <> s) by (intros ->; contradiction).
    destruct (@swap_lengths_ok len t s Ht Hs Hts Hok Hwts) as [Hok' Hcost].
    { rewrite HsL. now apply Hmax. }
    exists (swap_lengths len t s).
    assert (Hst : swap_lengths len t s t = L)
      by (unfold swap_lengths; now rewrite Nat.eqb_refl).
    split; [exact Hok'|]. split; [exact Hcost|]. split; [|split; [exact Hst|]].
    + intros z Hz. unfold swap_lengths.
      destruct (z =? t); [lia|]. destruct (z =? s); now apply Hmax.
    + split; [|contradiction].
      intros z Hzt Hzs. unfold swap_lengths.
      now rewrite (proj2 (Nat.eqb_neq z t)), (proj2 (Nat.eqb_neq z s)).
Qed.

(** The two lightest nodes can be given two codes of one length, a
    longest one, without raising the cost. *)
Lemma exchange (len : nat -> nat) (x y : nat) :
  In x ps -> In y ps -> x <> y ->
  (w x <= w y)%Z ->
  (forall z, In z ps -> z <> x -> z <> y -> (w y <= w z)%Z) ->
  kraft_ok M len ps ->
  exists len',
    kraft_ok M len' ps /\
    (lengths_cost w len' ps <= lengths_cost w len ps)%Z /\
    len' x = len' y /\ 1 <= len' x.
Proof.
  intros Hx Hy Hxy Hwxy Hmin Hok.
  assert (Hwx : forall z, In z ps -> z <> x -> (w x <= w z)%Z).
  { intros z Hz Hzx. destruct (Nat.eq_dec z y) as [->|Hzy]; [exact Hwxy|].
    specialize (Hmin z Hz Hzx Hzy). lia. }
  (* a longest code, and a longest among the others *)
  destruct (@longest len ps) as (p & Hp & Hpmax);
    [intros E; rewrite E in Hx; destruct Hx|].
  assert (Hother : exists o, In o ps /\ o <> p).
  { destruct (Nat.eq_dec x p) as [E|E]; [exists y|exists x]; split; auto.
    intros ->. now apply Hxy. }
  destruct Hother as (o & Ho & Hop).
  destruct (@longest_but len ps p o Ho Hop) as (q & Hq & Hqp & Hqmax).
  destruct (@shorten_longest len p q Hp Hq Hqp Hok Hqmax (Hpmax q Hq))
    as [Hok0 Hcost0].
  set (len0 := set_length len p (len q)) in *.
  set (L := len q).
  assert (Hp0 : len0 p = L)
    by (unfold len0, set_length; now rewrite Nat.eqb_refl).
  assert (Hq0 : len0 q = L)
    by (unfold len0, set_length; now rewrite (proj2 (Nat.eqb_neq q p))).
  assert (Hmax0 : forall z, In z ps -> len0 z <= L).
  { intros z Hz. destruct (Nat.eq_dec z p) as [->|Hzp]; [lia|].
    unfold len0, set_length. rewrite (proj2 (Nat.eqb_neq z p)) by assumption.
    now apply Hqmax. }
  assert (HL : 1 <= L).
  { rewrite <- Hp0. apply (@two_longest_positive len0 p q); try assumption.
    now rewrite Hp0, Hq0. }
  (* bring a longest code to [x] *)
  assert (Hsrc : exists s, In s ps /\ len0 s = L /\ (w x <= w s)%Z).
  { exists p. split; [exact Hp|]. split; [exact Hp0|].
    destruct (Nat.eq_dec p x) as [->|Hpx]; [lia|now apply Hwx]. }
  destruct Hsrc as (s & Hs & HsL & Hws).
  destruct (@move_longest len0 x s L Hx Hs Hok0 Hmax0 HsL Hws)
    as (len1 & Hok1 & Hcost1 & Hmax1 & Hx1 & Hkeep1 & Hsame1).
  (* another longest code, not at [x] *)
  assert (Hsrc2 : exists s2, In s2 ps /\ s2 <> x /\ len1 s2 = L).
  { destruct (Nat.eq_dec (len0 x) L) as [E|E].
    - (* nothing was moved *)
      destruct (Nat.eq_dec p x) as [Epx|Epx].
      + exists q. split; [exact Hq|]. split; [congruence|].
        now rewrite (Hsame1 E).
      + exists p. split; [exact Hp|]. split; [exact Epx|].
        now rewrite (Hsame1 E).
    - (* [x] and [s] were exchanged; one of [p], [q] is neither *)
      assert (Hpx : p <> x) by (intros ->; now apply E).
      assert (Hqx : q <> x) by (intros ->; now apply E).
      destruct (Nat.eq_dec s p) as [Esp|Esp].
      + exists q. split; [exact Hq|]. split; [exact Hqx|].
        rewrite Hkeep1; [exact Hq0|exact Hqx|congruence].
      + exists p. split; [exact Hp|]. split; [exact Hpx|].
        rewrite Hkeep1; [exact Hp0|exact Hpx|auto]. }
  destruct Hsrc2 as (s2 & Hs2 & Hs2x & Hs2L).
  assert (Hws2 : (w y <= w s2)%Z).
  { destruct (Nat.eq_dec s2 y) as [->|Hne]; [lia|now apply Hmin]. }
  destruct (@move_longest len1 y s2 L Hy Hs2 Hok1 Hmax1 Hs2L Hws2)
    as (len2 & Hok2 & Hcost2 & Hmax2 & Hy2 & Hkeep2 & Hsame2).
  exists len2. split; [exact Hok2|]. split; [lia|].
  assert (Hx2 : len2 x = L).
  { rewrite Hkeep2; [exact Hx1|exact Hxy|auto]. }
  rewrite Hx2, Hy2. split; [reflexivity|exact HL].
Qed.
End Exchange.

(** *** One step of the construction *)

(** Whatever lengths a prefix code gives to the leaves, they can be
    turned, step by step of the construction, into lengths for the nodes
    not yet consumed that cost at least the weight of the internal nodes
    less. *)
Lemma merge_array_lower_bound (leaves nodes : list node)
    (consumed : list nat) (M : nat) (len0 : nat -> nat) :
  merge_array leaves nodes consumed ->
  Forall (fun x => (0 <= fst x)%Z) leaves ->
  kraft_ok M len0 (seq 0 (length leaves)) ->
  exists len,
    kraft_ok M len (live nodes consumed) /\
    (lengths_cost (weight nodes) len (live nodes consumed)
     + zsum (map fst (skipn (length leaves) nodes))
     <= lengths_cost (weight leaves) len0 (seq 0 (length leaves)))%Z.
Proof.
  intros Hma Hpos Hok0.
  induction Hma as [|nodes consumed x y Hma IH Hxy].
  - exists len0. rewrite live_nil, skipn_all. split; [exact Hok0|].
    cbn [map zsum fold_right]. lia.
  - destruct IH as (len & Hok & Hcost).
    destruct (merge_array_picks Hma Hpos) as (_ & Hkl & _ & Hnn & _).
    pose proof (merge_array_consumed_lt Hma) as Hlt.
    destruct Hxy as (Hx & Hy & Hne & Hle & Hmin).
    pose proof Hx as Hx'. pose proof Hy as Hy'.
    apply In_live in Hx', Hy'. destruct Hx' as [Hxl Hxc], Hy' as [Hyl Hyc].
    destruct (@exchange (weight nodes) M (live nodes consumed)
                (live_NoDup nodes consumed)) with (len := len) (x := x)
      (y := y) as (len' & Hok' & Hcost' & Exy & HL); try assumption.
    { intros z Hz. apply In_live in Hz. apply Hnn. tauto. }
    set (L := len' x) in *.
    set (new := merge_first_op (nth x nodes node_default)
                  (nth y nodes node_default)).
    set (len'' := set_length len' (length nodes) (L - 1)).
    assert (Hold : forall z, z < length nodes -> len'' z = len' z).
    { intros z Hz. unfold len'', set_length.
      now rewrite (proj2 (Nat.eqb_neq z (length nodes))) by lia. }
    assert (Hnew : len'' (length nodes) = L - 1)
      by (unfold len'', set_length; now rewrite Nat.eqb_refl).
    assert (HLM : L <= M) by (destruct Hok' as [Hb _]; now apply Hb).
    assert (Hlive_lt : forall z, In z (live nodes consumed) ->
              z < length nodes)
      by (intros z Hz; apply In_live in Hz; tauto).
    exists len''. split; [split|].
    + intros z Hz. apply In_live in Hz. destruct Hz as [Hz1 Hz2].
      rewrite length_app in Hz1. cbn [length] in Hz1.
      destruct (Nat.eq_dec z (length nodes)) as [->|Hzn].
      * rewrite Hnew. lia.
      * rewrite Hold by lia. destruct Hok' as [Hb _]. apply Hb.
        apply In_live. split; [lia|].
        intros Hin. apply Hz2. right. now right.
    + unfold kraft_sum.
      rewrite (@live_step_sum _ nodes consumed x y new) by assumption.
      rewrite (map_ext_in _ (fun z => (2 ^ Z.of_nat (M - len' z))%Z)).
      2:{ intros z Hz. now rewrite Hold by (now apply Hlive_lt). }
      rewrite !Hold by assumption. rewrite Hnew.
      fold L. rewrite <- Exy. fold L.
      replace (M - (L - 1)) with (S (M - L)) by lia.
      rewrite Nat2Z.inj_succ, Z.pow_succ_r by lia.
      destruct Hok' as [_ Hk']. unfold kraft_sum in Hk'. lia.
    + unfold lengths_cost.
      rewrite (@live_step_sum _ nodes consumed x y new) by assumption.
      rewrite (map_ext_in _
                 (fun z => (weight nodes z * Z.of_nat (len' z))%Z)).
      2:{ intros z Hz. specialize (Hlive_lt z Hz).
          now rewrite Hold, weight_app_l by assumption. }
      rewrite !Hold by assumption. rewrite Hnew.
      rewrite !weight_app_l by assumption. rewrite weight_app_r.
      fold L. rewrite <- Exy. fold L.
      rewrite skipn_app.
      replace (length leaves - length nodes) with 0 by lia.
      cbn [skipn]. rewrite map_app, zsum_app.
      cbn [map zsum fold_right].
      unfold new, merge_first_op. cbn [fst].
      fold (weight nodes x). fold (weight nodes y).
      rewrite Nat2Z.inj_sub by lia.
      unfold lengths_cost in Hcost, Hcost'. cbn [Z.of_nat Pos.of_succ_nat].
      nia.
Qed.

(** The weight of the internal nodes is a lower bound for the cost of
    every prefix code for the leaves. *)
Lemma merge_array_cost_bound (leaves nodes : list node)
    (consumed : list nat) (M : nat) (len0 : nat -> nat) :
  merge_array leaves nodes consumed ->
  Forall (fun x => (0 <= fst x)%Z) leaves ->
  kraft_ok M len0 (seq 0 (length leaves)) ->
  (zsum (map fst (skipn (length leaves) nodes))
   <= lengths_cost (weight leaves) len0 (seq 0 (length leaves)))%Z.
Proof.
  intros Hma Hpos Hok0.
  destruct (merge_array_lower_bound Hma Hpos Hok0) as (len & _ & Hcost).
  destruct (merge_array_picks Hma Hpos) as (_ & _ & _ & Hnn & _).
  assert (H : (0 <= lengths_cost (weight nodes) len (live nodes consumed))%Z).
  { apply zsum_nonneg. apply Forall_forall. intros c Hc.
    apply in_map_iff in Hc. destruct Hc as (z & <- & Hz).
    apply In_live in Hz. apply Z.mul_nonneg_nonneg; [|lia].
    apply Hnn. tauto. }
  lia.
Qed.

(** *** Kraft's inequality for binary prefix codes *)

Lemma In_tails (b : ascii) (l : list str) (t : str) :
  In t (tails b l) <-> In (b :: t) l.
Proof.
  unfold tails. rewrite in_flat_map. split.
  - intros (c & Hc & Ht). destruct c as [|x c]; [destruct Ht|].
    destruct (char_eqb x b) eqn:E; [|destruct Ht].
    apply char_eqb_eq in E. subst x. destruct Ht as [<-|[]]. exact Hc.
  - intros H. exists (b :: t). split; [exact H|].
    rewrite char_eqb_refl. now left.
Qed.

Lemma tails_cons (b x : ascii) (t : str) (l : list str) :
  tails b ((x :: t) :: l)
  = if char_eqb x b then t :: tails b l else tails b l.
Proof. unfold tails. cbn [flat_map]. now destruct (char_eqb x b). Qed.

Lemma tails_prefix_free (b : ascii) (l : list str) :
  prefix_free l -> prefix_free (tails b l).
Proof.
  induction 1 as [|c l Hc Hl IH]; [constructor|].
  destruct c as [|x t]; [exact IH|].
  rewrite tails_cons. destruct (char_eqb x b) eqn:E; [|exact IH].
  apply char_eqb_eq in E. subst x.
  constructor; [|exact IH].
  rewrite Forall_forall in Hc. apply Forall_forall. intros t' Ht'.
  apply In_tails in Ht'. destruct (Hc _ Ht') as [H1 H2].
  split; intros [u Eu]; [apply H1|apply H2]; exists u; cbn [app];
    now rewrite Eu.
Qed.

Lemma prefix_free_nil (l : list str) :
  prefix_free l -> In [] l -> l = [[]].
Proof.
  induction 1 as [|x l Hx Hl IH]; intros Hin; [destruct Hin|].
  rewrite Forall_forall in Hx.
  destruct l as [|y l].
  - destruct Hin as [->|[]]. reflexivity.
  - exfalso. destruct Hin as [->|Hin].
    + destruct (Hx y) as [Hn _]; [now left|]. apply Hn. now exists y.
    + specialize (IH Hin). injection IH as -> ->.
      destruct (Hx []) as [_ Hn]; [now left|]. apply Hn. now exists x.
Qed.

Lemma kraft_codes_cons (M : nat) (c : str) (l : list str) :
  kraft_codes M (c :: l)
  = (2 ^ Z.of_nat (M - length c) + kraft_codes M l)%Z.
Proof. reflexivity. Qed.

Lemma kraft_codes_split (M : nat) (l : list str) :
  Forall (Forall binary) l -> ~ In [] l ->
  kraft_codes (S M) l
  = (kraft_codes M (tails c0 l) + kraft_codes M (tails c1 l))%Z.
Proof.
  induction 1 as [|c l Hc Hl IH]; intros Hnil; [reflexivity|].
  destruct c as [|x t]; [exfalso; apply Hnil; now left|].
  assert (Hnil' : ~ In [] l) by (intros H; apply Hnil; now right).
  specialize (IH Hnil').
  rewrite !tails_cons, kraft_codes_cons, IH.
  replace (S M - length (x :: t)) with (M - length t) by reflexivity.
  inversion Hc as [|? ? [Hx|Hx] _]; subst x.
  - rewrite char_eqb_refl.
    replace (char_eqb c0 c1) with false by reflexivity.
    rewrite kraft_codes_cons. lia.
  - rewrite char_eqb_refl.
    replace (char_eqb c1 c0) with false by reflexivity.
    rewrite kraft_codes_cons. lia.
Qed.

Lemma kraft_prefix_free :
  forall M (l : list str),
    prefix_free l -> Forall (Forall binary) l ->
    Forall (fun c => length c <= M) l ->
    (kraft_codes M l <= 2 ^ Z.of_nat M)%Z.
Proof.
  induction M as [|M IH]; intros l Hpf Hb Hlen.
  - destruct l as [|c l]; [unfold kraft_codes; cbn; lia|].
    assert (E : c :: l = [[]]).
    { apply prefix_free_nil; [exact Hpf|]. left.
      inversion Hlen as [|? ? Hc _]; subst.
      destruct c; [reflexivity|simpl in Hc; lia]. }
    rewrite E. unfold kraft_codes. cbn. lia.
  - destruct (in_dec (list_eq_dec ascii_dec) [] l) as [Hnil|Hnil].
    + rewrite (prefix_free_nil Hpf Hnil). unfold kraft_codes.
      cbn [map zsum fold_right length Nat.sub]. lia.
    + rewrite kraft_codes_split by assumption.
      assert (Htail : forall b,
                Forall (Forall binary) (tails b l) /\
                Forall (fun c => length c <= M) (tails b l)).
      { intros b. rewrite Forall_forall in Hb, Hlen.
        split; apply Forall_forall; intros t Ht; apply In_tails in Ht.
        - specialize (Hb _ Ht). now inversion Hb.
        - specialize (Hlen _ Ht). simpl in Hlen. lia. }
      pose proof (IH (tails c0 l) (tails_prefix_free c0 Hpf)
                    (proj1 (Htail c0)) (proj2 (Htail c0))) as H0.
      pose proof (IH (tails c1 l) (tails_prefix_free c1 Hpf)
                    (proj1 (Htail c1)) (proj2 (Htail c1))) as H1.
      rewrite Nat2Z.inj_succ, Z.pow_succ_r by lia. lia.
Qed.

Lemma prefix_free_map (A : Type) (code : A -> str) (l : list A) :
  NoDup l ->
  (forall a b, In a l -> In b l -> a <> b -> ~ is_prefix (code a) (code b)) ->
  prefix_free (map code l).
Proof.
  induction 1 as [|a l Ha Hnd IH]; intros H; [constructor|].
  cbn [map]. constructor.
  - apply Forall_forall. intros c Hc. apply in_map_iff in Hc.
    destruct Hc as (b & <- & Hb).
    assert (Hab : a <> b) by (intros ->; contradiction).
    split; apply H; auto; try (now left); now right.
  - apply IH. intros x y Hx Hy. apply H; now right.
Qed.

(** X22.  No binary prefix code is shorter: for an input with at least
    two distinct symbols and for any table [code] that gives the symbols
    of the input strings of binary digits of which none is a prefix of
    another, the codes that [compress] writes for the input take at most
    as many characters as the codes of that table would. *)
Theorem compress_optimal (impl : Implementation) (input : str)
    (code : ascii -> str) :
  2 <= distinct_symbols input ->
  (forall c, In c input -> Forall binary (code c)) ->
  (forall a b, In a input -> In b input -> a <> b ->
     ~ is_prefix (code a) (code b)) ->
  exists fr nodes hdr st bits,
    compress_stages input fr nodes hdr st bits /\
    length (flat_map (st_index st) input) <= length (flat_map code input).
Proof.
  intros H2 Hbin Hfree.
  destruct (compress_cost_facts impl input H2)
    as (fr & leaves & nodes & consumed & hdr & st & bits & Hst & Hperm &
        Hexp & Hpos & Hnd & Hin & Hma & Hcost).
  exists fr, nodes, hdr, st, bits. split; [exact Hst|].
  apply Nat2Z.inj_le.
  rewrite (@length_encoded (st_index st) fr leaves input Hperm Hexp Hpos).
  rewrite (@length_encoded code fr leaves input Hperm Hexp Hpos).
  rewrite Hcost.
  assert (Hpos' : Forall (fun x => (0 <= fst x)%Z) leaves).
  { eapply Permutation_Forall; [apply Permutation_sym; exact Hperm|].
    eapply Forall_impl; [|exact Hpos]. simpl. intros; lia. }
  set (len0 := fun i => length (code (symbol leaves i))).
  set (M := list_max (map (fun c => length (code c)) (map snd leaves))).
  assert (Hsyms : map snd leaves
                  = map (symbol leaves) (seq 0 (length leaves))).
  { rewrite (list_as_seq leaves node_default) at 1.
    rewrite map_map. reflexivity. }
  assert (Hok : kraft_ok M len0 (seq 0 (length leaves))).
  { split.
    - intros z Hz. unfold len0, M.
      assert (Hall : Forall (fun n => n <= list_max
                        (map (fun c => length (code c)) (map snd leaves)))
                       (map (fun c => length (code c)) (map snd leaves)))
        by (now apply list_max_le).
      rewrite Forall_forall in Hall. apply Hall.
      apply (in_map (fun c => length (code c))).
      rewrite Hsyms. now apply in_map.
    - assert (E : kraft_sum M len0 (seq 0 (length leaves))
                  = kraft_codes M (map code (map snd leaves))).
      { unfold kraft_sum, kraft_codes, len0.
        rewrite Hsyms, !map_map. reflexivity. }
      rewrite E. apply kraft_prefix_free.
      + apply prefix_free_map; [exact Hnd|].
        intros a b Ha Hb. apply Hfree; now apply Hin.
      + apply Forall_forall. intros c Hc. apply in_map_iff in Hc.
        destruct Hc as (a & <- & Ha). apply Hbin. now apply Hin.
      + apply Forall_forall. intros c Hc. unfold M.
        assert (Hall : Forall (fun n => n <= list_max
                          (map (fun c => length (code c)) (map snd leaves)))
                         (map (fun c => length (code c)) (map snd leaves)))
          by (now apply list_max_le).
        rewrite Forall_forall in Hall. apply Hall.
        rewrite map_map. rewrite map_map in Hc.
        apply in_map_iff in Hc. destruct Hc as (e & <- & He).
        apply in_map_iff. now exists e. }
  pose proof (merge_array_cost_bound Hma Hpos' Hok) as Hbound.
  assert (E : lengths_cost (weight leaves) len0 (seq 0 (length leaves))
              = zsum (map (fun e =>
                             (fst e * Z.of_nat (length (code (snd e))))%Z)
                        leaves)).
  { unfold lengths_cost, len0.
    transitivity
      (zsum (map (fun e => (fst e * Z.of_nat (length (code (snd e))))%Z)
               (map (fun i => nth i leaves node_default)
                  (seq 0 (length leaves))))).
    - rewrite map_map. reflexivity.
    - now rewrite <- (list_as_seq leaves node_default). }
  rewrite <- E. exact Hbound.
Qed.

(** ** [main] *)

(** X17.  [main] with one argument that has at least two distinct
    symbols: it returns 0, and what it has written is the argument under
    the first heading, the output of [compress] under the second, the
    argument again under the third, as the decompressed message, and
    under the fourth eight times the length of the argument and the
    length of the compressed string. *)
Theorem main_prints_round_trip (impl : Implementation) (prog s : str) :
  2 <= distinct_symbols s ->
  exists compressed fuel0,
    returns (fun fuel => compress fuel s) compressed /\
    forall fuel, fuel0 <= fuel ->
      main fuel [prog; s]
      = (Text.input_message ++ [Text.nl] ++ s ++ [Text.nl] ++
         [Text.nl] ++ Text.compressed_message ++ [Text.nl] ++
         compressed ++ [Text.nl] ++
         [Text.nl] ++ Text.decompressed_message ++ [Text.nl] ++
         s ++ [Text.nl] ++
         [Text.nl] ++ Text.compression_results ++ [Text.nl] ++
         Text.input_size ++ Text.decimal (length s * 8) ++ Text.bits ++
         [Text.nl] ++
         Text.output_size ++ Text.decimal (length compressed) ++ Text.bits ++
         [Text.nl],
         Ret 0%Z).
Proof.
  intros H2.
  destruct (compress_stages_facts impl s H2)
    as (fr & leaves & nodes & hdr & out & st & bits & Hst & Eleaves & Hexp &
        Hpos & Hnd & Hin & Hk & Hsorted & Hnodes & Hhdr & Est & Hkeys &
        Hout & Hshort & Hfree & Hne & Hdec).
  destruct Hst as (_ & _ & _ & _ & [fuelc Ec] & Ebits).
  assert (Ed : forall fuel, length s <= fuel -> decompress fuel bits = Ret s).
  { intros fuel Hfuel. rewrite Ebits.
    destruct (Hdec (flat_map (st_index st) s)) as (dn & Edn & Hdn & Est' & Hr).
    unfold decompress, huffman_decoder. rewrite Edn. cbn [bind].
    pose proof (@decode_loop_spec (rev dn) out Hshort Hfree Hne Hr) as Hd.
    cbv zeta in Hd. rewrite <- Est' in Hd.
    apply (Hd ltac:(rewrite Hkeys; apply NoDup_rev; exact Hnd)
              s hdr [] fuel); [|exact Hfuel].
    intros c Hc. rewrite Hkeys, <- in_rev. now apply Hin. }
  exists bits, (fuelc + length s). split; [exists fuelc; exact Ec|].
  intros fuel Hfuel. unfold main. cbn [length Nat.eqb negb nth].
  rewrite Ec by lia. rewrite Ed by lia.
  cbv zeta. f_equal. repeat rewrite <- app_assoc. reflexivity.
Qed.

(** ** [generate_codes] by itself, and streams carried between
    implementations *)

(** X19.  [generate_codes] yields a complete prefix code whatever the
    array, the comparator and the cursors are: when it returns having
    emitted every entry it queued (half of its [n + 1] entries are then
    leaves, and the queue has not grown beyond the [n] places reserved
    for it), no emitted code is a prefix of another, and every string of
    at least [n] binary digits starts with an emitted code. *)
Theorem generate_codes_complete_prefix_code (T : Type) (v : list T)
    (cmp : T -> T -> bool) (l0 l1 f0 f1 : nat) (out : list (nat * str)) :
  generate_codes v cmp l0 l1 prefix_op f0 f1 [] = Ret out ->
  2 * length out = l0 - f1 + 1 ->
  prefix_free (map snd out) /\
  forall b, Forall binary b -> l0 - f1 <= length b ->
    Exists (fun e => is_prefix (snd e) b) out.
Proof.
  intros H Hcount. apply generate_codes_prefix_op in H. split.
  - assert (Hroot : prefix_free (map snd [(f1, @nil ascii)]))
      by (repeat constructor).
    now destruct (gen_list_prefix_free _ _ _ _ _ _ _ _ Hroot H).
  - intros b Hb HL.
    apply (@gen_list_complete _ _ _ _ _ _ _ _ _ _ 0 b H).
    + cbn [length]. lia.
    + repeat constructor.
    + lia.
    + exact Hb.
    + constructor 1. cbn [snd]. now exists b.
Qed.

(** X20.  A stream can be carried from one implementation to another:
    what [compress] returns where [std::sort] orders equal elements one
    way and [char] is signed or not, [decompress] reads back as the
    input where the sort, the signedness of [char] and the contents of
    uninitialised variables are different. *)
Theorem decompress_other_implementation (impl1 impl2 : Implementation)
    (input : str) :
  2 <= distinct_symbols input ->
  exists bits,
    returns (fun fuel => @compress impl1 fuel input) bits /\
    returns (fun fuel => @decompress impl2 fuel bits) input.
Proof.
  intros H2.
  destruct (@frequencies_spec impl1 input)
    as (fr & Efr & Hnd & Hin & Hpos & Hlen).
  pose proof (@std_sort_perm impl1 _ compare_first fr) as Hperm.
  pose proof (@std_sort_sorted impl1 _ _ fr compare_first_swo) as Hsorted.
  remember (@std_sort impl1 _ compare_first fr) as leaves eqn:Eleaves.
  assert (Hk : length leaves = distinct_symbols input)
    by (now rewrite (Permutation_length Hperm)).
  assert (Hnd' : NoDup (map snd leaves)).
  { eapply Permutation_NoDup; [|exact Hnd].
    apply Permutation_map. now apply Permutation_sym. }
  assert (Hin' : forall c, In c (map snd leaves) <-> In c input).
  { intros c. rewrite <- Hin. split; apply Permutation_in;
      apply Permutation_map; [assumption|now apply Permutation_sym]. }
  assert (H256 : length leaves <= 256).
  { rewrite <- (length_map snd leaves). now apply NoDup_ascii_length. }
  assert (Hpos' : Forall (fun x => (0 <= fst x)%Z) leaves).
  { eapply Permutation_Forall; [apply Permutation_sym; exact Hperm|].
    eapply Forall_impl; [|exact Hpos]. simpl. intros; lia. }
  assert (Hk2 : 2 <= length leaves) by lia.
  destruct (@build_huffman_array_returns leaves Hk2 Hsorted)
    as (nodes & consumed & Ebuild & Hnodes & Hinv & Hnn).
  { assert (Hv : vector_max_size = 576460752303423487%Z) by reflexivity.
    rewrite Hv. lia. }
  specialize (Hnn Hpos').
  assert (Hsmall : 2 * length leaves - 1 < 2 ^ 16).
  { assert (E : 512 <= 2 ^ 16) by (apply Nat.leb_le; reflexivity). lia. }
  destruct (@codes_facts impl2 leaves nodes consumed Hk2 Hnodes Hsmall Hinv
              Hnn Hsorted Hnd')
    as (hdr & out & Ehdr & Hhdr & Hfst & Hshort & Hfree & Hne & Hsym &
        Ecodes & Hdec).
  set (st := map (fun e => (symbol (rev nodes) (fst e), snd e)) out) in *.
  exists (hdr ++ flat_map (st_index st) input). split.
  - exists (length input + 2 * length leaves). intros fuel Hfuel.
    unfold compress. rewrite Efr by lia. cbn [bind]. rewrite <- Eleaves.
    unfold huffman_encoder.
    rewrite Ebuild by lia. cbn [bind].
    rewrite Ehdr by lia. cbn [bind].
    rewrite Ecodes. cbn [bind].
    now rewrite encode_input_spec.
  - destruct (Hdec (flat_map (st_index st) input)) as (dn & Edn & Hdn & Hsame).
    exists (length input). intros fuel Hfuel.
    unfold decompress, huffman_decoder. rewrite Edn. cbn [bind].
    assert (Hst : map (fun e => (symbol (rev dn) (fst e), snd e)) out = st).
    { unfold st. apply map_ext_in. intros e He.
      rewrite Forall_forall in Hsame. now rewrite (Hsame e He). }
    assert (Hkeys : map fst st = rev (map snd leaves)).
    { unfold st. rewrite map_map. simpl. exact Hsym. }
    assert (Hrange : Forall (fun e => fst e < length (rev dn)) out).
    { rewrite length_rev, Hdn. apply Forall_forall. intros e He.
      assert (Hp : In (fst e) (map fst out)) by now apply in_map.
      rewrite Hfst in Hp. apply in_seq in Hp. lia. }
    pose proof (@decode_loop_spec (rev dn) out Hshort Hfree Hne Hrange) as Hd.
    cbv zeta in Hd. rewrite Hst in Hd.
    apply (Hd ltac:(rewrite Hkeys; apply NoDup_rev; exact Hnd')
              input hdr [] fuel); [|exact Hfuel].
    intros s Hs. rewrite Hkeys, <- in_rev. now apply Hin'.
Qed.

(** ** These properties at sample inputs *)

Lemma next_node_lightest_witness :
  exists x f0' f1',
    next_node tie_nodes compare_first 2 3 3 (length tie_nodes)
    = Ret (x, f0', f1') /\
    ((x = 2 /\ f0' = 3 /\ f1' = 3 /\ 2 < 3) \/
     (x = 3 /\ f0' = 2 /\ f1' = 4 /\ 3 < length tie_nodes)) /\
    (forall z, (2 <= z /\ z < 3) \/ (3 <= z /\ z < length tie_nodes) ->
       (weight tie_nodes x <= weight tie_nodes z)%Z).
Proof.
  apply (@next_node_lightest tie_nodes 3 2 3); simpl; try lia.
  - intros p p' H1 H2 H3.
    assert (p = 2) by lia. assert (p' = 2) by lia. subst. reflexivity.
  - intros q q' H1 H2 H3.
    assert (q = 3) by lia. assert (q' = 3) by lia. subst. reflexivity.
Defined.

Lemma build_huffman_array_internal_nodes_witness :
  exists nodes,
    returns (fun fuel =>
               build_huffman_array compare_first merge_first_op fuel
                 sample_leaves) nodes /\
    (forall q q', length sample_leaves <= q -> q <= q' -> q' < length nodes ->
       (weight nodes q <= weight nodes q')%Z) /\
    (forall j, length sample_leaves + j < length nodes ->
       (weight nodes (S j) <= weight nodes (length sample_leaves + j))%Z) /\
    (forall q, length sample_leaves <= q -> q < length nodes ->
       symbol nodes q = char_zero) /\
    Forall (fun x => in_ptrdiff (fst x)) nodes.
Proof.
  apply (@build_huffman_array_internal_nodes sample_leaves).
  - simpl; lia.
  - vm_compute. discriminate.
  - repeat constructor.
  - repeat constructor; simpl; lia.
  - vm_compute. discriminate.
Defined.

Lemma compress_root_weight_witness :
  exists fr nodes,
    returns (fun fuel => @frequencies reference_implementation fuel abc) fr /\
    returns (fun fuel =>
               build_huffman_array compare_first merge_first_op fuel
                 (insertion_sort compare_first fr)) nodes /\
    firstn (length fr) nodes = insertion_sort compare_first fr /\
    length nodes = 2 * distinct_symbols abc - 1 /\
    length nodes <= 511 /\
    weight nodes (length nodes - 1) = Z.of_nat (length abc).
Proof.
  apply (@compress_root_weight reference_implementation abc).
  vm_compute; lia.
Defined.

Lemma header_read_back_witness :
  exists hdr,
    returns (fun fuel =>
               header compare_first (@converter_bits Z) fuel abc_nodes) hdr /\
    length hdr = 16 + length abc_nodes + 8 * 3 /\
    forall payload,
      exists dn,
        @read_header reference_implementation converter_char (hdr ++ payload)
        = Ret (dn, length hdr) /\
        length dn = length abc_nodes /\
        (forall p, p < 3 -> symbol dn p = symbol abc_nodes p) /\
        (forall p q, p < 3 -> 3 <= q -> q < length abc_nodes ->
           (header_pos dn q <? header_pos dn p)%Z
           = (weight abc_nodes q <? weight abc_nodes p)%Z).
Proof.
  apply (@header_read_back reference_implementation abc_nodes 3).
  - lia.
  - reflexivity.
  - apply Nat.ltb_lt. reflexivity.
  - intros p p' H1 H2.
    destruct p as [|[|[|p]]], p' as [|[|[|p']]]; try lia;
      unfold weight; simpl; lia.
  - simpl. intros q q' H1 H2 H3.
    destruct q as [|[|[|[|[|q]]]]], q' as [|[|[|[|[|q']]]]]; try lia;
      unfold weight; simpl; lia.
Defined.

Lemma decompress_bad_count_witness :
  In "2"%char (firstn 16 bad_count_stream) /\
  forall fuel,
    @decompress reference_implementation fuel bad_count_stream
    = Throw invalid_argument.
Proof.
  split; [simpl; tauto|].
  apply (@decompress_bad_count reference_implementation bad_count_stream
           "2"%char).
  - simpl. tauto.
  - intros [H|H]; discriminate.
Defined.

Lemma decompress_short_stream_witness :
  length count_only_stream <= 16 /\
  forall fuel,
    @decompress reference_implementation fuel count_only_stream = Undefined.
Proof.
  split; [simpl; lia|].
  apply (@decompress_short_stream reference_implementation count_only_stream).
  - simpl; lia.
  - apply to_bits_binary.
  - simpl. repeat (try (left; reflexivity); right).
Defined.

Lemma decompress_any_message_witness :
  exists fr nodes hdr st bits,
    @compress_stages reference_implementation abc fr nodes hdr st bits /\
    returns (fun fuel =>
               @decompress reference_implementation fuel
                 (hdr ++ flat_map (st_index st) cab)) cab.
Proof.
  apply (@decompress_any_message reference_implementation abc cab).
  - vm_compute; lia.
  - simpl. tauto.
Defined.

Lemma compress_output_binary_witness :
  exists bits,
    returns (fun fuel => @compress reference_implementation fuel abc) bits /\
    Forall binary bits.
Proof.
  apply (@compress_output_binary reference_implementation abc).
  vm_compute; lia.
Defined.

Lemma frequent_symbols_shorter_codes_witness :
  exists fr nodes hdr st bits,
    @compress_stages reference_implementation aabcccc fr nodes hdr st bits /\
    In (1%Z, "b"%char) fr /\ In (4%Z, "c"%char) fr /\
    forall na a nb b,
      In (na, a) fr -> In (nb, b) fr -> (na < nb)%Z ->
      length (st_index st b) <= length (st_index st a).
Proof.
  destruct (@frequent_symbols_shorter_codes reference_implementation aabcccc)
    as (fr & nodes & hdr & st & bits & Hst & H); [vm_compute; lia|].
  exists fr, nodes, hdr, st, bits.
  split; [exact Hst|].
  destruct Hst as ((n & Hfr) & _).
  specialize (Hfr (n + 10) (Nat.le_add_r n 10)).
  replace (n + 10) with (10 + n) in Hfr by apply Nat.add_comm.
  cbn in Hfr. injection Hfr as <-.
  split; [right; left; reflexivity|].
  split; [right; right; left; reflexivity|].
  exact H.
Defined.

Lemma code_length_bounds_witness :
  exists fr nodes hdr st bits,
    @compress_stages reference_implementation abc fr nodes hdr st bits /\
    Forall (fun e => 1 <= length (snd e) <= distinct_symbols abc - 1) st /\
    length hdr + length abc <= length bits /\
    length bits <= length hdr + (distinct_symbols abc - 1) * length abc.
Proof.
  apply (@code_length_bounds reference_implementation abc).
  vm_compute; lia.
Defined.

Lemma compress_output_size_witness :
  exists fr nodes hdr st bits,
    @compress_stages reference_implementation abc fr nodes hdr st bits /\
    Z.of_nat (length bits)
    = (Z.of_nat (length hdr)
       + zsum (map (fun e =>
                      (fst e * Z.of_nat (length (st_index st (snd e))))%Z)
                 fr))%Z.
Proof.
  apply (@compress_output_size reference_implementation abc).
  vm_compute; lia.
Defined.

Lemma main_prints_round_trip_witness :
  exists compressed fuel0,
    returns (fun fuel => @compress reference_implementation fuel abc)
      compressed /\
    forall fuel, fuel0 <= fuel ->
      @main reference_implementation fuel [program_name; abc]
      = (Text.input_message ++ [Text.nl] ++ abc ++ [Text.nl] ++
         [Text.nl] ++ Text.compressed_message ++ [Text.nl] ++
         compressed ++ [Text.nl] ++
         [Text.nl] ++ Text.decompressed_message ++ [Text.nl] ++
         abc ++ [Text.nl] ++
         [Text.nl] ++ Text.compression_results ++ [Text.nl] ++
         Text.input_size ++ Text.decimal (length abc * 8) ++ Text.bits ++
         [Text.nl] ++
         Text.output_size ++ Text.decimal (length compressed) ++ Text.bits ++
         [Text.nl],
         Ret 0%Z).
Proof.
  apply (@main_prints_round_trip reference_implementation program_name abc).
  vm_compute; lia.
Defined.

Lemma decompress_binary_payload_witness :
  exists fr nodes hdr st bits,
    @compress_stages reference_implementation abc fr nodes hdr st bits /\
    ((exists w,
        [c1; c0; c1] = flat_map (st_index st) w /\
        (forall c, In c w -> In c abc) /\
        returns (fun fuel =>
                   @decompress reference_implementation fuel
                     (hdr ++ [c1; c0; c1])) w) \/
     (exists w t a,
        [c1; c0; c1] = flat_map (st_index st) w ++ t /\
        (forall c, In c w -> In c abc) /\
        In a abc /\
        is_prefix t (st_index st a) /\
        1 <= length t < length (st_index st a) /\
        forall fuel, length [c1; c0; c1] <= fuel ->
          @decompress reference_implementation fuel (hdr ++ [c1; c0; c1])
          = Undefined)).
Proof.
  apply (@decompress_binary_payload reference_implementation abc
           [c1; c0; c1]).
  - vm_compute; lia.
  - repeat constructor; (now left) || (now right).
Defined.

Lemma generate_codes_complete_prefix_code_witness :
  prefix_free (map snd abc_prefixes) /\
  forall b, Forall binary b -> 5 - 0 <= length b ->
    Exists (fun e => is_prefix (snd e) b) abc_prefixes.
Proof.
  apply (@generate_codes_complete_prefix_code _ (rev abc_dnodes) decoder_cmp
           5 2 2 0 abc_prefixes).
  - reflexivity.
  - reflexivity.
Defined.

Lemma decompress_other_implementation_witness :
  exists bits,
    returns (fun fuel => @compress reference_implementation fuel abc) bits /\
    returns (fun fuel => @decompress unsigned_implementation fuel bits) abc.
Proof.
  apply (@decompress_other_implementation reference_implementation
           unsigned_implementation abc).
  vm_compute; lia.
Defined.

Lemma compress_payload_internal_weight_witness :
  exists fr nodes hdr st bits,
    @compress_stages reference_implementation abc fr nodes hdr st bits /\
    Z.of_nat (length bits)
    = (Z.of_nat (length hdr) + zsum (map fst (skipn (length fr) nodes)))%Z.
Proof.
  apply (@compress_payload_internal_weight reference_implementation abc).
  vm_compute; lia.
Defined.

Lemma compress_optimal_witness :
  exists fr nodes hdr st bits,
    @compress_stages reference_implementation abc fr nodes hdr st bits /\
    length (flat_map (st_index st) abc) <= length (flat_map plain_code abc).
Proof.
  apply (@compress_optimal reference_implementation abc plain_code).
  - vm_compute; lia.
  - intros c _. apply to_bits_binary.
  - intros a b [<-|[<-|[<-|[]]]] [<-|[<-|[<-|[]]]] Hne [u Eu];
      try congruence; vm_compute in Eu; discriminate.
Defined.
